(** * Polyhedron scripts: edge extraction, normalisation, midradius, record codec

    A shallow embedding of [scripts/calculate_midradius.py] and
    [scripts/convert_obj_to_format.py], of the functions that
    [scripts/download_johnson_solids.py] shares with the latter, and of
    the recipe checks of [scripts/download_polyhedronisme.py].

    Modelling conventions.
    - A Python [float] is a real number ([R]); [float('inf')], which the
      midradius loops start from, is the extra element [PosInf] of [efloat].
      Rounding error, overflow and NaN are outside the model.
    - A Python [int] is a [Z]; a list is a [list]; a 3-element coordinate
      list [[x, y, z]] is a [point]; a [set] of index pairs is a [gset].
    - A Python [str] is a [list ascii], its characters being the code
      points below 256.
    - A function that can raise returns a [result]. *)

From Stdlib Require Import ZArith Reals Lra Lia List String Ascii.
From stdpp Require Import base gmap sets list sorting strings.

(** ** Python primitives shared by the scripts *)

Module Py.

(** The exceptions that the modelled code can raise. *)
Inductive exn :=
| IndexError
| ValueError
| TypeError
| FileNotFoundError
| ReError.

Inductive result (A : Type) :=
| Ok (a : A)
| Raise (e : exn).
Arguments Ok {A} a.
Arguments Raise {A} e.

(** Sequencing: an exception raised by the first computation propagates. *)
#[export] Instance result_bind : MBind result := fun A B k m =>
  match m with
  | Ok a => k a
  | Raise e => Raise e
  end.

(** [l[i]]: negative indices count from the end, anything outside
    [-len(l) .. len(l)-1] raises [IndexError]. *)
Definition getitem {A} (l : list A) (i : Z) : result A :=
  let n := Z.of_nat (length l) in
  let j := if (i <? 0)%Z then (i + n)%Z else i in
  if ((0 <=? j)%Z && (j <? n)%Z)%bool then
    match l !! Z.to_nat j with
    | Some x => Ok x
    | None => Raise IndexError
    end
  else Raise IndexError.

(** A float that may be [float('inf')]. *)
Inductive efloat :=
| Num (r : R)
| PosInf.

(** [d < m] for a finite [d]. *)
Definition lt_efloat (d : R) (m : efloat) : bool :=
  match m with
  | PosInf => true
  | Num r => if Rlt_dec d r then true else false
  end.

(** The two-argument builtins: [min(a, b)] is [b] when [b < a] and [a]
    otherwise, [max(a, b)] is [b] when [b > a] and [a] otherwise. *)
Definition min (a b : R) : R := if Rlt_dec b a then b else a.
Definition max (a b : R) : R := if Rgt_dec b a then b else a.


(** [sum(iterable)]: starts from 0 and adds from the left. *)
Definition sum (xs : list R) : R := fold_left Rplus xs 0%R.

End Py.

Import Py.

(** ** Text *)

(** A [str]; string literals are read as their list of characters. *)
Abbreviation str := (list ascii).

Coercion list_ascii_of_string : string >-> list.

Module Text.

Definition newline : ascii := "010"%char.
Definition backslash : ascii := "092"%char.

(** A decimal digit, the regex class [\d], on code points below 256. *)
Definition isdigit (c : ascii) : bool :=
  let n := N_of_ascii c in ((48 <=? n) && (n <=? 57))%N.

(** [c.isspace()] and the regex class [\s], on code points below 256:
    U+0009..U+000D, U+001C..U+0020, U+0085 and U+00A0. *)
Definition isspace (c : ascii) : bool :=
  let n := N_of_ascii c in
  (((9 <=? n) && (n <=? 13)) || ((28 <=? n) && (n <=? 32))
   || (n =? 133) || (n =? 160))%N.

Definition nonspace (c : ascii) : Prop := isspace c = false.

(** [s.lstrip()], [s.rstrip()] and [s.strip()] *)
Fixpoint lstrip (s : str) : str :=
  match s with
  | c :: s' => if isspace c then lstrip s' else s
  | [] => []
  end.

Definition rstrip (s : str) : str := rev (lstrip (rev s)).

Definition strip (s : str) : str := rstrip (lstrip s).

(** [s.startswith(prefix)] *)
Fixpoint startswith (s prefix : str) : bool :=
  match prefix, s with
  | [], _ => true
  | p :: prefix', c :: s' => Ascii.eqb c p && startswith s' prefix'
  | _ :: _, [] => false
  end.

(** [s.split(sep)] for a one-character separator. *)
Fixpoint split (sep : ascii) (s : str) : list str :=
  match s with
  | [] => [[]]
  | c :: s' =>
      if Ascii.eqb c sep then [] :: split sep s'
      else match split sep s' with
           | l :: ls => (c :: l) :: ls
           | [] => [[c]]
           end
  end.

(** [sep.join(lines)] *)
Fixpoint join (sep : str) (lines : list str) : str :=
  match lines with
  | [] => []
  | [l] => l
  | l :: ls => l ++ sep ++ join sep ls
  end.

(** [s[start:stop]] for [0 <= start <= stop]. *)
Definition slice (s : str) (start stop : nat) : str :=
  take (stop - start) (drop start s).

(** The longest prefix of [s] whose characters satisfy [ok], and the rest. *)
Fixpoint span (ok : ascii -> bool) (s : str) : str * str :=
  match s with
  | c :: s' =>
      if ok c then let '(a, b) := span ok s' in (c :: a, b) else ([], s)
  | [] => ([], [])
  end.

(** *** Decimal numerals *)

Definition digit_char (d : N) : ascii := ascii_of_N (48 + d).
Definition digit_val (c : ascii) : N := N_of_ascii c - 48.

(** The number a string of decimal digits denotes. *)
Definition digits_val (s : str) : N :=
  fold_left (fun a c => (10 * a + digit_val c)%N) s 0%N.

(** The decimal digits of [n] in front of [acc]; [fuel] bounds the number
    of digits. *)
Fixpoint digits_of (fuel : nat) (n : N) (acc : str) : str :=
  match fuel with
  | O => acc
  | S fuel' =>
      if (n <? 10)%N then digit_char n :: acc
      else digits_of fuel' (n / 10)%N (digit_char (n mod 10)%N :: acc)
  end.

(** [str(n)] for [n >= 0]; a number has at most as many decimal digits as
    binary ones. *)
Definition str_of_N (n : N) : str := digits_of (S (N.to_nat (N.size n))) n [].

(** [str(z)] *)
Definition str_of_Z (z : Z) : str :=
  if (z <? 0)%Z then "-"%char :: str_of_N (Z.abs_N z) else str_of_N (Z.to_N z).

(** The sign that a numeral may start with, and the rest of the numeral. *)
Definition split_sign (s : str) : bool * str :=
  match s with
  | c :: r =>
      if Ascii.eqb c "-" then (true, r)
      else if Ascii.eqb c "+" then (false, r)
      else (false, s)
  | [] => (false, s)
  end.

(** [int(s)] on an optional sign followed by digits; underscores and
    surrounding whitespace, which [int] also accepts, and the interpreter's
    limit on the number of digits are not modelled. *)
Definition py_int (s : str) : result Z :=
  let '(negative, body) := split_sign s in
  match body with
  | [] => Raise ValueError
  | _ :: _ =>
      if forallb isdigit body then
        Ok (if negative then (- Z.of_N (digits_val body))%Z
            else Z.of_N (digits_val body))
      else Raise ValueError
  end.

(** [float(s)] on decimal numerals: an optional sign, then digits with an
    optional point and further digits, or a point and at least one digit.
    Exponents, [inf], [nan], underscores and surrounding whitespace, which
    [float] also accepts, are not modelled: the strings that reach [float]
    in the scripts consist of digits, ['-'] and ['.'] only. The value is
    the number the numeral denotes. *)
Definition py_float (s : str) : result R :=
  let '(negative, body) := split_sign s in
  let '(ip, rest) := span isdigit body in
  let value (fp : str) : R :=
    let v := (IZR (Z.of_N (digits_val (ip ++ fp))) / 10 ^ length fp)%R in
    if negative then (- v)%R else v in
  match rest with
  | [] => match ip with [] => Raise ValueError | _ :: _ => Ok (value []) end
  | c :: fp =>
      if Ascii.eqb c "."
         && forallb isdigit fp
         && negb (Nat.eqb (length ip + length fp) 0)
      then Ok (value fp)
      else Raise ValueError
  end.

(** Round to the nearest integer, ties to the even one. *)
Definition round_half_even (y : R) : Z :=
  let f := Zfloor y in
  if Rlt_dec (y - IZR f) (1 / 2) then f
  else if Rlt_dec (1 / 2) (y - IZR f) then (f + 1)%Z
  else if Z.even f then f else (f + 1)%Z.

(** The four digits after the decimal point. *)
Definition pad4 (k : N) : str :=
  [ digit_char ((k / 1000) mod 10); digit_char ((k / 100) mod 10);
    digit_char ((k / 10) mod 10); digit_char (k mod 10) ]%N.

(** [f"{x:.4f}"] for a finite [x]: the sign, then [|x|] rounded to a
    multiple of 0.0001 (ties to even). A negative number that rounds to
    zero keeps its sign. *)
Definition format_4f (x : R) : str :=
  let n := Z.to_N (round_half_even (Rabs x * 10000)) in
  (if Rlt_dec x 0 then ["-"%char] else [])
    ++ str_of_N (n / 10000) ++ "." ++ pad4 (n mod 10000).

(** [f"{m:.4f}"] for a float that may be infinite. *)
Definition format_4f_e (m : efloat) : str :=
  match m with
  | Num x => format_4f x
  | PosInf => "inf"
  end.

End Text.

(** ** Regular expressions: the fragment of [re] that the scripts use *)

Module Re.

Import Text.

(** What a single character can be matched against. *)
Inductive atom :=
| Digit                (* \d *)
| Space                (* \s *)
| Char (c : ascii).    (* a literal character *)

Definition atom_matches (a : atom) (c : ascii) : bool :=
  match a with
  | Digit => isdigit c
  | Space => isspace c
  | Char c' => Ascii.eqb c c'
  end.

(** A character class is a list of atoms, [[-\d.]] being
    [[Char "-"; Digit; Char "."]]. *)
Definition in_class (cs : list atom) (c : ascii) : bool :=
  existsb (fun a => atom_matches a c) cs.

Inductive node :=
| One (cs : list atom)     (* one character of the class *)
| Star (cs : list atom)    (* X*, greedy *)
| Plus (cs : list atom)    (* X+, greedy *)
| Open                     (* ( *)
| Close                    (* ) *)
| Bol                      (* ^ *)
| Eol.                     (* $ *)

Definition pattern : Type := list node.

(** A run of literal characters. *)
Definition lits (s : str) : pattern := map (fun c => One [Char c]) s.

(** Greedy repetition with backtracking: take as many characters of the
    class as possible, then give them back one at a time until the rest of
    the pattern, [k], matches. *)
Fixpoint star {X} (ok : ascii -> bool) (k : nat -> str -> option X)
    (pos : nat) (s : str) : option X :=
  match s with
  | c :: s' =>
      if ok c then
        match star ok k (S pos) s' with
        | Some r => Some r
        | None => k pos s
        end
      else k pos s
  | [] => k pos s
  end.

(** Match pattern [p] against [s], the rest of the subject string from
    position [pos]. The result is the position where the match ends and
    the positions at which the parentheses were passed, in order. *)
Fixpoint exec (p : pattern) (marks : list nat) (pos : nat) (s : str)
  : option (nat * list nat) :=
  match p with
  | [] => Some (pos, marks)
  | One cs :: p' =>
      match s with
      | c :: s' => if in_class cs c then exec p' marks (S pos) s' else None
      | [] => None
      end
  | Star cs :: p' => star (in_class cs) (exec p' marks) pos s
  | Plus cs :: p' =>
      match s with
      | c :: s' =>
          if in_class cs c then star (in_class cs) (exec p' marks) (S pos) s'
          else None
      | [] => None
      end
  | Open :: p' => exec p' (marks ++ [pos]) pos s
  | Close :: p' => exec p' (marks ++ [pos]) pos s
  | Bol :: p' => if Nat.eqb pos 0 then exec p' marks pos s else None
  | Eol :: p' =>
      match s with
      | [] => exec p' marks pos s
      | [c] => if Ascii.eqb c newline then exec p' marks pos s else None
      | _ => None
      end
  end.

(** A match object: the subject string and the positions of the
    parentheses. *)
Record match_object := Match {
  m_string : str;
  m_end : nat;
  m_marks : list nat
}.

(** [re.match(p, s)] *)
Definition re_match (p : pattern) (s : str) : option match_object :=
  match exec p [] 0 s with
  | Some (e, marks) => Some (Match s e marks)
  | None => None
  end.

(** [m.group(k)] for [k >= 1]. *)
Definition group (m : match_object) (k : nat) : str :=
  slice (m_string m)
    (nth (2 * k - 2) (m_marks m) 0%nat) (nth (2 * k - 1) (m_marks m) 0%nat).

(** The replacement template of [re.sub]: a backslash followed by [n],
    [t], [r] or a backslash stands for the character it names. Group
    references and the other escapes are not modelled and are reported as
    an error; the template of the scripts has none. *)
Fixpoint expand_template (t : str) : result str :=
  match t with
  | [] => Ok []
  | c :: t' =>
      if Ascii.eqb c backslash then
        match t' with
        | e :: t'' =>
            rest ← expand_template t'';
            if Ascii.eqb e "n" then Ok (newline :: rest)
            else if Ascii.eqb e "t" then Ok ("009"%char :: rest)
            else if Ascii.eqb e "r" then Ok ("013"%char :: rest)
            else if Ascii.eqb e backslash then Ok (backslash :: rest)
            else Raise ReError
        | [] => Raise ReError
        end
      else rest ← expand_template t'; Ok (c :: rest)
  end.

(** The scan of [re.sub]: at each position try the pattern; on a match
    write the replacement and continue after the match ([skip] counts the
    characters of the match still to pass over), otherwise copy the
    character. An empty match writes the replacement and copies the
    character. *)
Fixpoint sub_scan (p : pattern) (repl : str) (pos : nat) (s : str) (skip : nat)
  : str :=
  match skip with
  | S skip' =>
      match s with
      | _ :: s' => sub_scan p repl (S pos) s' skip'
      | [] => []
      end
  | O =>
      match exec p [] pos s with
      | Some (e, _) =>
          repl ++ match s with
                  | c :: s' =>
                      if (e <=? pos)%nat then c :: sub_scan p repl (S pos) s' 0
                      else sub_scan p repl (S pos) s' (e - pos - 1)
                  | [] => []
                  end
      | None =>
          match s with
          | c :: s' => c :: sub_scan p repl (S pos) s' 0
          | [] => []
          end
      end
  end.

(** [re.sub(p, repl, s)] *)
Definition re_sub (p : pattern) (repl : str) (s : str) : result str :=
  r ← expand_template repl;
  Ok (sub_scan p r 0 s 0).

End Re.

(** ** Points *)

(** The three positions of a coordinate list, [range(3)]. *)
Inductive axis := A0 | A1 | A2.

Definition range3 : list axis := [A0; A1; A2].

Definition point : Type := R * R * R.

(** [p[i]] *)
Definition coord (p : point) (i : axis) : R :=
  match p, i with
  | (x, _, _), A0 => x
  | (_, y, _), A1 => y
  | (_, _, z), A2 => z
  end.

(** [[f(i) for i in range(3)]] *)
Definition comp3 (f : axis -> R) : point := (f A0, f A1, f A2).

(** [sum(f(i) for i in range(3))] *)
Definition sum3 (f : axis -> R) : R := Py.sum (map f range3).

(** An edge is a pair of vertex indices. *)
Definition edge : Type := Z * Z.

(** ** scripts/calculate_midradius.py: geometry *)

Module CalculateMidradius.

Open Scope R_scope.

Definition closest_point_on_segment (p1 p2 origin : point) : point * R :=
  let edge_vec := comp3 (fun i => coord p2 i - coord p1 i) in
  let to_origin := comp3 (fun i => - coord p1 i) in
  let edge_len_sq := sum3 (fun i => coord edge_vec i ^ 2) in
  if Rlt_dec edge_len_sq 1e-10 then
    (p1, sqrt (sum3 (fun i => coord p1 i ^ 2)))
  else
    let t := sum3 (fun i => coord to_origin i * coord edge_vec i) / edge_len_sq in
    let t := Py.max 0 (Py.min 1 t) in
    let closest := comp3 (fun i => coord p1 i + t * coord edge_vec i) in
    let distance := sqrt (sum3 (fun i => coord closest i ^ 2)) in
    (closest, distance).

(** The loop state of [calculate_midradius]. *)
Record best := Best {
  min_distance : efloat;
  min_edge : option edge;
  min_point : option point
}.

Definition origin : point := (0, 0, 0).

(** One iteration of [for edge in edges]. *)
Definition step (vertices : list point) (st : best) (e : edge) : result best :=
  let '(v1_idx, v2_idx) := e in
  p1 ← getitem vertices v1_idx;
  p2 ← getitem vertices v2_idx;
  let '(closest_point, distance) := closest_point_on_segment p1 p2 origin in
  if lt_efloat distance (min_distance st) then
    Ok (Best (Num distance) (Some e) (Some closest_point))
  else Ok st.

Fixpoint loop (vertices : list point) (edges : list edge) (st : best) : result best :=
  match edges with
  | [] => Ok st
  | e :: edges' => st' ← step vertices st e; loop vertices edges' st'
  end.

Definition calculate_midradius (vertices : list point) (edges : list edge)
  : result (efloat * option edge * option point) :=
  st ← loop vertices edges (Best PosInf None None);
  Ok (min_distance st, min_edge st, min_point st).

(** *** The record codec and the batch driver *)

Import Text Re.

(** The files the scripts read and write: path to content, the content
    being the text that [f.read()] returns. *)
Definition read (fs : gmap string str) (filepath : string) : result str :=
  match fs !! filepath with
  | Some content => Ok content
  | None => Raise FileNotFoundError
  end.

Inductive section := Vertices | Edges | Midradius.

(** The variables of the parse loop. *)
Record parse_state := ParseState {
  ps_vertices : list point;
  ps_edges : list edge;
  ps_midradius : option R;
  ps_section : option section
}.

Definition enter (st : parse_state) (sec : section) : parse_state :=
  ParseState (ps_vertices st) (ps_edges st) (ps_midradius st) (Some sec).

(** [[-\d.]] and [[\d.]] *)
Definition signed_number : list atom := [Char "-"; Digit; Char "."].
Definition unsigned_number : list atom := [Digit; Char "."].

(** [r'^\d+:([-\d.]+),([-\d.]+),([-\d.]+)$'] *)
Definition vertex_pattern : pattern :=
  [ Bol; Plus [Digit]; One [Char ":"];
    Open; Plus signed_number; Close; One [Char ","];
    Open; Plus signed_number; Close; One [Char ","];
    Open; Plus signed_number; Close; Eol ].

(** [r'^\d+:(\d+),(\d+)$'] *)
Definition edge_pattern : pattern :=
  [ Bol; Plus [Digit]; One [Char ":"];
    Open; Plus [Digit]; Close; One [Char ","];
    Open; Plus [Digit]; Close; Eol ].

(** [r'^([\d.]+)$'] *)
Definition midradius_pattern : pattern :=
  [ Bol; Open; Plus unsigned_number; Close; Eol ].

(** The body of [for line in lines]. *)
Definition parse_line (st : parse_state) (line : str) : result parse_state :=
  let line := strip line in
  if startswith line "VERTICES:" then Ok (enter st Vertices)
  else if startswith line "EDGES:" then Ok (enter st Edges)
  else if startswith line "MIDRADIUS:" then Ok (enter st Midradius)
  else
    match line with
    | [] => Ok st
    | _ :: _ =>
        match ps_section st with
        | Some Vertices =>
            match re_match vertex_pattern line with
            | Some m =>
                x ← py_float (group m 1);
                y ← py_float (group m 2);
                z ← py_float (group m 3);
                Ok (ParseState (ps_vertices st ++ [(x, y, z)]) (ps_edges st)
                      (ps_midradius st) (ps_section st))
            | None => Ok st
            end
        | Some Edges =>
            match re_match edge_pattern line with
            | Some m =>
                v1 ← py_int (group m 1);
                v2 ← py_int (group m 2);
                Ok (ParseState (ps_vertices st) (ps_edges st ++ [(v1, v2)])
                      (ps_midradius st) (ps_section st))
            | None => Ok st
            end
        | Some Midradius =>
            match re_match midradius_pattern line with
            | Some m =>
                v ← py_float (group m 1);
                Ok (ParseState (ps_vertices st) (ps_edges st) (Some v)
                      (ps_section st))
            | None => Ok st
            end
        | None => Ok st
        end
    end.

Fixpoint parse_lines (lines : list str) (st : parse_state) : result parse_state :=
  match lines with
  | [] => Ok st
  | line :: lines' => st' ← parse_line st line; parse_lines lines' st'
  end.

Definition parse_polyhedron_file (fs : gmap string str) (filepath : string)
  : result (list point * list edge * option R) :=
  content ← read fs filepath;
  let lines := split newline content in
  st ← parse_lines lines (ParseState [] [] None None);
  Ok (ps_vertices st, ps_edges st, ps_midradius st).

(** [r'(MIDRADIUS:\s*\n)([\d.]+)'] *)
Definition midradius_value_pattern : pattern :=
  [Open] ++ lits "MIDRADIUS:" ++ [Star [Space]; One [Char newline]; Close]
    ++ [Open; Plus unsigned_number; Close].

(** The file system after the update, or the exception raised. *)
Definition update_midradius_in_file (fs : gmap string str) (filepath : string)
    (new_midradius : efloat) : result (gmap string str) :=
  content ← read fs filepath;
  let replacement : str := "MIDRADIUS:\n" ++ format_4f_e new_midradius in
  new_content ← re_sub midradius_value_pattern replacement content;
  Ok (<[filepath := new_content]> fs).

(** What [main] does with one file. *)
Inductive outcome :=
| Skipped                                   (* the warning, then [continue] *)
| Updated (old : option R) (new : efloat)   (* a row of the summary *)
| Failed (e : exn).                         (* the [except] branch *)

(** The body of [for filepath in txt_files], console output left out. The
    report lines subscript [min_edge] and [min_point], which raises
    [TypeError] when they are [None]. *)
Definition process_file (fs : gmap string str) (filepath : string)
  : gmap string str * outcome :=
  match parse_polyhedron_file fs filepath with
  | Raise e => (fs, Failed e)
  | Ok (vertices, edges, old_midradius) =>
      match vertices, edges with
      | [], _ | _, [] => (fs, Skipped)
      | _ :: _, _ :: _ =>
          match calculate_midradius vertices edges with
          | Raise e => (fs, Failed e)
          | Ok (new_midradius, Some _, Some _) =>
              match update_midradius_in_file fs filepath new_midradius with
              | Raise e => (fs, Failed e)
              | Ok fs' => (fs', Updated old_midradius new_midradius)
              end
          | Ok _ => (fs, Failed TypeError)
          end
      end
  end.

(** The loop of [main] over the files found. *)
Fixpoint process_files (fs : gmap string str) (txt_files : list string)
  : gmap string str * list outcome :=
  match txt_files with
  | [] => (fs, [])
  | filepath :: rest =>
      let '(fs', o) := process_file fs filepath in
      let '(fs'', os) := process_files fs' rest in
      (fs'', o :: os)
  end.

End CalculateMidradius.

(** ** scripts/convert_obj_to_format.py: geometry *)

Module ConvertObjToFormat.

(** The order [sorted] uses on index pairs: tuples compare lexicographically. *)
Definition tuple_le (a b : edge) : Prop :=
  (a.1 < b.1 \/ (a.1 = b.1 /\ a.2 <= b.2))%Z.

#[export] Instance tuple_le_dec : RelDecision tuple_le.
Proof. intros a b. unfold tuple_le. apply _. Defined.

(** The body of [for i in range(len(face))]. The two subscripts are always
    in range, [i] by the loop bound and [(i + 1) % len(face)] by the modulus,
    so the total lookup never takes its default. *)
Definition add_edge (face : list Z) (edges_set : gset edge) (i : nat) : gset edge :=
  let v1 := face !!! i in
  let v2 := face !!! ((i + 1) mod length face)%nat in
  let edge := (Z.min v1 v2, Z.max v1 v2) in
  {[ edge ]} ∪ edges_set.

(** The body of [for face in faces]. *)
Definition add_face (edges_set : gset edge) (face : list Z) : gset edge :=
  fold_left (add_edge face) (seq 0 (length face)) edges_set.

Definition faces_to_edges (faces : list (list Z)) : list edge :=
  let edges_set := fold_left add_face faces ∅ in
  let edges := merge_sort tuple_le (elements edges_set) in
  edges.

Open Scope R_scope.


(** One iteration of [for v1_idx, v2_idx in edges]. *)
Definition step (vertices : list point) (min_distance : efloat) (e : edge)
  : result efloat :=
  let '(v1_idx, v2_idx) := e in
  p1 ← getitem vertices v1_idx;
  p2 ← getitem vertices v2_idx;
  let edge_vec := comp3 (fun i => coord p2 i - coord p1 i) in
  let to_origin := comp3 (fun i => - coord p1 i) in
  let edge_len_sq := sum3 (fun i => coord edge_vec i ^ 2) in
  let distance :=
    if Rlt_dec edge_len_sq 1e-10 then
      sqrt (sum3 (fun i => coord p1 i ^ 2))
    else
      let t := sum3 (fun i => coord to_origin i * coord edge_vec i) / edge_len_sq in
      let t := Py.max 0 (Py.min 1 t) in
      let closest := comp3 (fun i => coord p1 i + t * coord edge_vec i) in
      sqrt (sum3 (fun i => coord closest i ^ 2)) in
  if lt_efloat distance min_distance then Ok (Num distance) else Ok min_distance.

Fixpoint loop (vertices : list point) (edges : list edge) (min_distance : efloat)
  : result efloat :=
  match edges with
  | [] => Ok min_distance
  | e :: edges' =>
      min_distance' ← step vertices min_distance e;
      loop vertices edges' min_distance'
  end.

Definition calculate_midradius (vertices : list point) (edges : list edge)
  : result efloat :=
  loop vertices edges PosInf.

Import Text.

(** [f"{i}:{v[0]:.4f},{v[1]:.4f},{v[2]:.4f}"] *)
Definition vertex_line (i : nat) (v : point) : str :=
  str_of_N (N.of_nat i) ++ ":" ++ format_4f (coord v A0) ++ ","
    ++ format_4f (coord v A1) ++ "," ++ format_4f (coord v A2).

(** [f"{i}:{v1},{v2}"] *)
Definition edge_line (i : nat) (e : edge) : str :=
  let '(v1, v2) := e in
  str_of_N (N.of_nat i) ++ ":" ++ str_of_Z v1 ++ "," ++ str_of_Z v2.

Definition convert_to_format (vertices : list point) (edges : list edge)
    (midradius : efloat) : str :=
  let lines : list str := ["VERTICES:" : str] in
  let lines := lines ++ imap vertex_line vertices in
  let lines := lines ++ [[] : str] in
  let lines := lines ++ ["EDGES:" : str] in
  let lines := lines ++ imap edge_line edges in
  let lines := lines ++ [[] : str] in
  let lines := lines ++ ["MIDRADIUS:" : str] in
  let lines := lines ++ [format_4f_e midradius] in
  join [newline] lines.

End ConvertObjToFormat.

(** ** What the specification says about the segment evaluator *)

Module SegmentSpec.

Open Scope R_scope.

Definition sub (p q : point) : point :=
  (coord p A0 - coord q A0, coord p A1 - coord q A1, coord p A2 - coord q A2).
Definition neg (p : point) : point := (- coord p A0, - coord p A1, - coord p A2).
Definition dot (p q : point) : R :=
  coord p A0 * coord q A0 + coord p A1 * coord q A1 + coord p A2 * coord q A2.
Definition norm (p : point) : R := sqrt (dot p p).
(** [p + t * e] *)
Definition along (p : point) (t : R) (e : point) : point :=
  (coord p A0 + t * coord e A0, coord p A1 + t * coord e A1, coord p A2 + t * coord e A2).
(** [t] clamped to [0, 1] *)
Definition clamp01 (t : R) : R := Rmax 0 (Rmin 1 t).

End SegmentSpec.

(** ** What the specification says about the midradius calculator *)

Module MidradiusSpec.

(** An index that is a valid position of the vertex list. *)
Definition valid_index (vertices : list point) (i : Z) : Prop :=
  (0 <= i < Z.of_nat (length vertices))%Z.

Definition valid_edge (vertices : list point) (e : edge) : Prop :=
  valid_index vertices e.1 /\ valid_index vertices e.2.

(** The closest point to the origin on edge [e], and its distance, as the
    segment evaluator computes them from the two endpoint vertices. *)
Definition segment_of (vertices : list point) (e : edge) : option (point * R) :=
  match vertices !! Z.to_nat e.1, vertices !! Z.to_nat e.2 with
  | Some p1, Some p2 =>
      Some (CalculateMidradius.closest_point_on_segment p1 p2
              CalculateMidradius.origin)
  | _, _ => None
  end.

End MidradiusSpec.

(** ** What the specification says about the edge extractor *)

Module EdgeSpec.

(** [e] is the canonical pair of a consecutive index pair of [face], the
    pair that closes the cycle included. *)
Definition edge_of_face (face : list Z) (e : edge) : Prop :=
  exists (i : nat) (v1 v2 : Z),
    face !! i = Some v1
    /\ face !! ((i + 1) mod length face)%nat = Some v2
    /\ e = (Z.min v1 v2, Z.max v1 v2).

End EdgeSpec.

(** ** The canonical cube fixture *)

Module Cube.

Open Scope R_scope.

(** The 8 vertices (±0.5, ±0.5, ±0.5); vertex [4a + 2b + c] has its x, y
    and z coordinate positive when [a], [b] and [c] are 1. *)
Definition vertices : list point :=
  [ (-0.5, -0.5, -0.5); (-0.5, -0.5, 0.5); (-0.5, 0.5, -0.5); (-0.5, 0.5, 0.5);
    (0.5, -0.5, -0.5); (0.5, -0.5, 0.5); (0.5, 0.5, -0.5); (0.5, 0.5, 0.5) ].

(** The 6 square faces, each a cycle of 4 vertex indices. *)
Definition faces : list (list Z) :=
  [ [0; 1; 3; 2]; [4; 6; 7; 5]; [0; 4; 5; 1];
    [2; 3; 7; 6]; [0; 2; 6; 4]; [1; 5; 7; 3] ]%Z.

Definition edges : list edge :=
  [ (0, 1); (0, 2); (0, 4); (1, 3); (1, 5); (2, 3);
    (2, 6); (3, 7); (4, 5); (4, 6); (5, 7); (6, 7) ]%Z.

(** The squared midradius of the fixture, 0.5² + 0.5². *)
Definition half_sq : R := 0.5 ^ 2 + 0.5 ^ 2.

End Cube.

(** ** What the specification says about the normaliser *)

Module NormalizeSpec.

Import SegmentSpec.
Open Scope R_scope.







End NormalizeSpec.

(** ** What the specification says about the in-place update *)

Module UpdateSpec.

Import Text Re.

Definition header : str := "MIDRADIUS:".

(** A digit or a dot, the characters of [[\d.]]. *)
Definition is_number_char (c : ascii) : bool := isdigit c || Ascii.eqb c ".".

(** [s] begins with [MIDRADIUS:], then whitespace, a line break and a digit
    or dot: what the update pattern needs in order to match at the start
    of [s]. *)
Definition header_then_number (s : str) : Prop :=
  exists ws c rest,
    s = header ++ ws ++ newline :: c :: rest
    /\ Forall (fun x => isspace x = true) ws
    /\ is_number_char c = true.

(** Somewhere in [content] a [MIDRADIUS:] is followed by whitespace, a line
    break and a digit or dot. *)
Definition mentions_value (content : str) : Prop :=
  exists pre s, content = pre ++ s /\ header_then_number s.

(** [MIDRADIUS:] does not occur in [pre ++ "MIDRADIUS:"] before its end:
    the header that follows [pre] is the first one. *)
Definition first_header (pre : str) : Prop :=
  forall a b, pre ++ header = a ++ header ++ b -> b = [].

(** [s] does not begin with a digit or dot. *)
Definition no_number_ahead (s : str) : Prop :=
  match s with
  | c :: _ => is_number_char c = false
  | [] => True
  end.

(** A header line and a numeric line as the decoder recognises them. *)
Definition is_header_line (line : str) : bool :=
  startswith (strip line) header.

Definition is_numeric_line (line : str) : bool :=
  match re_match CalculateMidradius.midradius_pattern (strip line) with
  | Some _ => true
  | None => false
  end.

(** Some header line is directly followed by a numeric line. *)
Fixpoint header_before_numeric_line (lines : list str) : bool :=
  match lines with
  | l1 :: lines' =>
      match lines' with
      | l2 :: _ =>
          (is_header_line l1 && is_numeric_line l2)
          || header_before_numeric_line lines'
      | [] => false
      end
  | [] => false
  end.

End UpdateSpec.

(** ** What the specification says about the round trip *)

Module RoundTripSpec.

Import Text.
Open Scope R_scope.

(** [x] rounded to 4 decimal digits. *)
Definition round4 (x : R) : R :=
  let q := IZR (round_half_even (Rabs x * 10000)) / 10000 in
  if Rlt_dec x 0 then - q else q.

Definition round4_point (v : point) : point :=
  (round4 (coord v A0), round4 (coord v A1), round4 (coord v A2)).

(** The indices of an edge are not negative. *)
Definition nonneg_edge (e : edge) : Prop := (0 <= e.1 /\ 0 <= e.2)%Z.

End RoundTripSpec.

(** ** Index pairs that the midradius loops accept, and what they compute *)

Module MeshSpec.

Import SegmentSpec.
Open Scope R_scope.

(** An index that [vertices[i]] accepts: a position, or a negative index
    counting from the end. *)
Definition subscript (vertices : list point) (i : Z) : Prop :=
  (- Z.of_nat (length vertices) <= i < Z.of_nat (length vertices))%Z.

Definition subscript_edge (vertices : list point) (e : edge) : Prop :=
  subscript vertices e.1 /\ subscript vertices e.2.

(** The position that an accepted index denotes. *)
Definition position (vertices : list point) (i : Z) : Z :=
  if (i <? 0)%Z then (i + Z.of_nat (length vertices))%Z else i.

Definition positions (vertices : list point) (e : edge) : edge :=
  (position vertices e.1, position vertices e.2).

(** The distance from the origin that an iteration of the loops computes
    for edge [e]. *)
Definition edge_distance (vertices : list point) (e : edge) : result R :=
  p1 ← getitem vertices e.1;
  p2 ← getitem vertices e.2;
  Ok (CalculateMidradius.closest_point_on_segment p1 p2
        CalculateMidradius.origin).2.

(** The running minimum after a distance [d]. *)
Definition running_min (d : R) (m : efloat) : efloat :=
  if lt_efloat d m then Num d else m.




End MeshSpec.

(** ** What survives a round trip through the record format *)

Module CodecSpec.

Import Text RoundTripSpec.
Open Scope R_scope.

(** The decoder reads back the midradius line that the encoder writes for
    [m] only when [m] is a finite number that is not negative: its pattern
    accepts digits and dots, neither a sign nor [inf]. *)
Definition readable (m : efloat) : bool :=
  match m with
  | Num x => if Rlt_dec x 0 then false else true
  | PosInf => false
  end.

Definition decoded_midradius (m : efloat) : option R :=
  match m with
  | Num x => if Rlt_dec x 0 then None else Some (round4 x)
  | PosInf => None
  end.

(** The edges that the decoder reads back: its pattern accepts digits, not
    a sign. *)
Definition nonneg_edgeb (e : edge) : bool := ((0 <=? e.1) && (0 <=? e.2))%Z.

(** What the decoder has collected never has a negative index or a
    negative midradius. *)
Definition unsigned_state (st : CalculateMidradius.parse_state) : Prop :=
  Forall nonneg_edge (CalculateMidradius.ps_edges st)
  /\ forall x, CalculateMidradius.ps_midradius st = Some x -> 0 <= x.

(** A character other than the letter M, with which the header of the
    midradius section starts. *)
Definition not_M (c : ascii) : Prop := c <> "M"%char.

End CodecSpec.

(** ** scripts/convert_obj_to_format.py and scripts/download_johnson_solids.py:
    the OBJ reader and the conversion pipeline *)

Module ObjReader.

Import Text.

(** [s.split()]: the maximal runs of characters that are not whitespace. *)
Fixpoint split_whitespace (s : str) : list str :=
  match s with
  | [] => []
  | c :: s' =>
      if isspace c then split_whitespace s'
      else
        match s' with
        | d :: _ =>
            if isspace d then [c] :: split_whitespace s'
            else
              match split_whitespace s' with
              | w :: ws => (c :: w) :: ws
              | [] => [[c]]
              end
        | [] => [[c]]
        end
  end.

(** The digits of a decimal numeral in which single underscores may stand
    between digits; [after_digit] tells whether the previous character was
    a digit. *)
Fixpoint digits_of_numeral (s : str) (after_digit : bool) : option str :=
  match s with
  | [] => if after_digit then Some [] else None
  | c :: s' =>
      if isdigit c then
        match digits_of_numeral s' true with
        | Some ds => Some (c :: ds)
        | None => None
        end
      else if Ascii.eqb c "_" && after_digit then digits_of_numeral s' false
      else None
  end.

(** The whitespace that [int] skips around a numeral: U+0009..U+000D,
    U+0020, U+0085 and U+00A0. Unlike [str.strip], [int] does not skip
    U+001C..U+001F. *)
Definition int_space (c : ascii) : bool :=
  let n := N_of_ascii c in
  (((9 <=? n) && (n <=? 13)) || (n =? 32) || (n =? 133) || (n =? 160))%N.

Fixpoint skip_int_space (s : str) : str :=
  match s with
  | c :: s' => if int_space c then skip_int_space s' else s
  | [] => []
  end.

(** [int(s)] on any string of code points below 256: surrounding
    whitespace, an optional sign, and decimal digits with single
    underscores between them. The interpreter's limit on the number of
    digits is not modelled. *)
Definition int_of_str (s : str) : result Z :=
  let s := rev (skip_int_space (rev (skip_int_space s))) in
  let '(negative, body) := split_sign s in
  match digits_of_numeral body false with
  | Some ds =>
      Ok (if negative then (- Z.of_N (digits_val ds))%Z
          else Z.of_N (digits_val ds))
  | None => Raise ValueError
  end.

(** The lines that iterating over a text file yields: each ends with its
    line break, except possibly the last. *)
Fixpoint file_lines (s : str) : list str :=
  match s with
  | [] => []
  | c :: s' =>
      if Ascii.eqb c newline then [c] :: file_lines s'
      else
        match file_lines s' with
        | l :: ls => (c :: l) :: ls
        | [] => [[c]]
        end
  end.

Section Reader.

(** [float] on the coordinate fields. The OBJ reader hands it any field of
    a vertex line; what it accepts plays no part in how lines are
    classified and faces are read, so the reader is given it as an
    argument. *)
Variable float : str -> result R.

(** [part.split('/')[0]] *)
Definition first_component (part : str) : str :=
  match split "/" part with
  | x :: _ => x
  | [] => []
  end.

(** The loop [for part in parts] of a face line. *)
Fixpoint face_indices (parts : list str) (face_vertices : list Z)
  : result (list Z) :=
  match parts with
  | [] => Ok face_vertices
  | part :: parts' =>
      v ← int_of_str (first_component part);
      let vertex_idx := (v - 1)%Z in
      face_indices parts' (face_vertices ++ [vertex_idx])
  end.

(** The body of the loop over the lines. *)
Definition parse_obj_line (st : list point * list (list Z)) (line : str)
  : result (list point * list (list Z)) :=
  let '(vertices, faces) := st in
  let line := strip line in
  match line with
  | [] => Ok st
  | _ :: _ =>
      if startswith line "#" then Ok st
      else if startswith line "v " then
        let parts := split_whitespace line in
        if (4 <=? length parts)%nat then
          x ← float (nth 1 parts []);
          y ← float (nth 2 parts []);
          z ← float (nth 3 parts []);
          Ok (vertices ++ [(x, y, z)], faces)
        else Ok st
      else if startswith line "f " then
        let parts := tail (split_whitespace line) in
        face_vertices ← face_indices parts [];
        if (2 <=? length face_vertices)%nat then
          Ok (vertices, faces ++ [face_vertices])
        else Ok st
      else Ok st
  end.

Fixpoint parse_obj_lines (lines : list str) (st : list point * list (list Z))
  : result (list point * list (list Z)) :=
  match lines with
  | [] => Ok st
  | line :: lines' => st' ← parse_obj_line st line; parse_obj_lines lines' st'
  end.

End Reader.

End ObjReader.

(** The reader of [convert_obj_to_format.py] iterates over the file; its
    [main] chains the reader, the edge extractor, the normaliser, the
    midradius calculator and the encoder, and writes the record. *)
Module ConvertObjMain.

Import ObjReader.

Definition parse_obj_file (float : str -> result R) (fs : gmap string str)
    (obj_path : string) : result (list point * list (list Z)) :=
  content ← CalculateMidradius.read fs obj_path;
  parse_obj_lines float (file_lines content) ([], []).


End ConvertObjMain.

(** The reader of [download_johnson_solids.py] splits the downloaded text
    at line breaks. *)
Module DownloadJohnsonSolids.

Import Text ObjReader.

Definition parse_obj_file (float : str -> result R) (obj_content : str)
  : result (list point * list (list Z)) :=
  parse_obj_lines float (split newline obj_content) ([], []).

End DownloadJohnsonSolids.

(** ** scripts/download_polyhedronisme.py: recipes and suggested names *)

Module DownloadPolyhedronisme.

Import Text Re.

(** The regular expressions of this script have alternatives. *)
Inductive rx :=
| RChar (cs : list atom)     (* one character of the class *)
| RPlus (cs : list atom)     (* X+, greedy *)
| RSeq (a b : rx)            (* a then b *)
| RAlt (a b : rx)            (* a|b, the left alternative first *)
| RGroup (r : rx)            (* (r) *)
| REol.                      (* $ *)

(** Match [r] at position [pos], [s] being the rest of the subject string,
    and hand the marks of the parentheses, the position reached and the
    rest of the string to the continuation [k]; when the continuation
    fails the next possibility is tried. *)
Fixpoint run {X} (r : rx) (marks : list nat) (pos : nat) (s : str)
    (k : list nat -> nat -> str -> option X) : option X :=
  match r with
  | RChar cs =>
      match s with
      | c :: s' => if in_class cs c then k marks (S pos) s' else None
      | [] => None
      end
  | RPlus cs =>
      match s with
      | c :: s' =>
          if in_class cs c then star (in_class cs) (k marks) (S pos) s'
          else None
      | [] => None
      end
  | RSeq a b => run a marks pos s (fun marks' pos' s' => run b marks' pos' s' k)
  | RAlt a b =>
      match run a marks pos s k with
      | Some x => Some x
      | None => run b marks pos s k
      end
  | RGroup r' =>
      run r' (marks ++ [pos]) pos s
        (fun marks' pos' s' => k (marks' ++ [pos']) pos' s')
  | REol =>
      match s with
      | [] => k marks pos s
      | [c] => if Ascii.eqb c newline then k marks pos s else None
      | _ => None
      end
  end.

(** The match object of [re.search]: where the match starts, and the
    subject string with the end of the match and the marks. *)
Record search_result := SearchResult {
  sr_start : nat;
  sr_match : match_object
}.

(** The scan of [re.search]: the first position at which the pattern
    matches; [s] is the rest of [subject] from position [pos]. *)
Fixpoint search_from (r : rx) (subject : str) (pos : nat) (s : str)
  : option search_result :=
  match run r [] pos s (fun marks e _ => Some (e, marks)) with
  | Some (e, marks) => Some (SearchResult pos (Match subject e marks))
  | None =>
      match s with
      | _ :: s' => search_from r subject (S pos) s'
      | [] => None
      end
  end.

(** [re.search(r, s)] *)
Definition re_search (r : rx) (s : str) : option search_result :=
  search_from r s 0 s.

Definition lit (c : ascii) : rx := RChar [Char c].

(** [r'(T|C|O|I|D|P\d+|A\d+|Y\d+|J\d+)$'] *)
Definition base_pattern : rx :=
  RSeq
    (RGroup
       (RAlt (lit "T") (RAlt (lit "C") (RAlt (lit "O") (RAlt (lit "I")
       (RAlt (lit "D")
       (RAlt (RSeq (lit "P") (RPlus [Digit]))
       (RAlt (RSeq (lit "A") (RPlus [Digit]))
       (RAlt (RSeq (lit "Y") (RPlus [Digit]))
             (RSeq (lit "J") (RPlus [Digit])))))))))))
    REol.

(** [r'^C\d+'] *)
Definition canonicalization_prefix : pattern :=
  [Bol; One [Char "C"]; Plus [Digit]].

Definition validate_recipe (recipe : str) : bool * str :=
  if match recipe with [] => true | _ :: _ => false end
     || match strip recipe with [] => true | _ :: _ => false end
  then (false, "Recipe cannot be empty" : str)
  else
    let recipe := strip recipe in
    match re_search base_pattern recipe with
    | None =>
        (false,
         "Recipe must end with a valid base shape (T, C, O, I, D, P_N, A_N, Y_N, or J_N)" : str)
    | Some _ => (true, [])
    end.

(** [s.lower()] on code points below 256: the letters A to Z and the
    capital letters U+00C0..U+00DE other than the multiplication sign. *)
Definition lower_char (c : ascii) : ascii :=
  let n := N_of_ascii c in
  if (((65 <=? n) && (n <=? 90))
      || ((192 <=? n) && (n <=? 222) && negb (n =? 215)))%N
  then ascii_of_N (n + 32) else c.

Definition lower (s : str) : str := map lower_char s.

(** [s.replace(old, new)] for a one-character [old]. *)
Definition replace (old : ascii) (new : str) (s : str) : str :=
  flat_map (fun c => if Ascii.eqb c old then new else [c]) s.

(** [s.endswith(suffix)] *)
Definition endswith (s suffix : str) : bool := startswith (rev s) (rev suffix).

(** A [dict] with string keys, in insertion order. *)
Definition dict : Type := list (str * str).

Definition str_eqb (a b : str) : bool := bool_decide (a = b).

(** [d.get(key, default)] *)
Fixpoint get (d : dict) (key default : str) : str :=
  match d with
  | [] => default
  | (k, v) :: d' => if str_eqb k key then v else get d' key default
  end.

Definition op_map : dict :=
  [ ("a" : str, "ambo" : str);
    ("t" : str, "truncated" : str);
    ("at" : str, "truncated" : str);
    ("aat" : str, "expanded_truncated" : str);
    ("st" : str, "snub" : str);
    ("j" : str, "joined" : str);
    ("jt" : str, "joined_truncated" : str);
    ("b" : str, "beveled" : str);
    ("bt" : str, "beveled_truncated" : str);
    ("c" : str, "chamfered" : str);
    ("ct" : str, "chamfered_truncated" : str);
    ("k" : str, "kis" : str);
    ("kt" : str, "kis_truncated" : str);
    ("e" : str, "exploded" : str);
    ("et" : str, "exploded_truncated" : str);
    ("r" : str, "reflected" : str);
    ("rt" : str, "reflected_truncated" : str);
    ("g" : str, "gyro" : str);
    ("gt" : str, "gyro_truncated" : str);
    ("p" : str, "propellor" : str);
    ("pt" : str, "propellor_truncated" : str);
    ("w" : str, "whirl" : str);
    ("wt" : str, "whirl_truncated" : str);
    ("q" : str, "quinto" : str);
    ("qt" : str, "quinto_truncated" : str) ].

Definition base_map : dict :=
  [ ("T" : str, "tetrahedron" : str);
    ("C" : str, "cube" : str);
    ("O" : str, "octahedron" : str);
    ("I" : str, "icosahedron" : str);
    ("D" : str, "dodecahedron" : str) ].

(** [sorted(items, key=lambda x: -len(x[0]))]: longest key first; the
    sort is stable, items with keys of the same length keep their order. *)
Fixpoint insert_by_length (x : str * str) (l : dict) : dict :=
  match l with
  | [] => [x]
  | y :: l' =>
      if (length y.1 <=? length x.1)%nat then x :: l
      else y :: insert_by_length x l'
  end.

Definition sorted_longest_first (d : dict) : dict :=
  fold_right insert_by_length [] d.

(** The loop over the operations: the value of the first key that [ops]
    ends with. *)
Fixpoint find_op (ops : str) (items : dict) : option str :=
  match items with
  | [] => None
  | (op_key, op_val) :: items' =>
      if endswith ops op_key then Some op_val else find_op ops items'
  end.

Definition suggest_slug (recipe : str) : result str :=
  clean_recipe ← re_sub canonicalization_prefix [] recipe;
  match re_search base_pattern clean_recipe with
  | Some base_match =>
      let base := group (sr_match base_match) 1 in
      let base_name := get base_map base (lower base) in
      let ops :=
        if (0 <? sr_start base_match)%nat
        then take (sr_start base_match) clean_recipe else [] in
      let op_name := find_op ops (sorted_longest_first op_map) in
      match op_name with
      | Some (_ :: _ as op_name) => Ok (op_name ++ "_" ++ base_name)
      | _ =>
          match ops with
          | _ :: _ => Ok (lower (replace "_" "_" (ops ++ "_" ++ base_name)))
          | [] => Ok base_name
          end
      end
  | None =>
      Ok (replace "_" "_" (replace "C" "canonicalized_" (lower recipe)))
  end.

End DownloadPolyhedronisme.

(** ** What a recipe must end with *)

Module RecipeSpec.

Import Text.

(** A base shape: one of the letters T, C, O, I and D, or one of the
    letters P, A, Y and J followed by at least one digit. *)
Definition is_base (b : str) : Prop :=
  b ∈ [("T" : str); ("C" : str); ("O" : str); ("I" : str); ("D" : str)]
  \/ exists (l : ascii) (ds : str),
       l ∈ ["P"%char; "A"%char; "Y"%char; "J"%char]
       /\ ds <> [] /\ Forall (fun c => isdigit c = true) ds
       /\ b = l :: ds.

Definition ends_with_base (s : str) : Prop :=
  exists pre b, s = pre ++ b /\ is_base b.

(** [s] names a base where the pattern of the bases looks for one: at its
    end, or before its final line break. *)
Definition names_base (s : str) : Prop :=
  exists pre b tail,
    s = pre ++ b ++ tail /\ is_base b /\ (tail = [] \/ tail = [newline]).

(** The recipe without its canonicalisation prefix, the letter C followed
    by digits. *)
Definition without_prefix (recipe : str) : str :=
  match recipe with
  | c :: s =>
      if Ascii.eqb c "C" then
        match span isdigit s with
        | (_ :: _, rest) => rest
        | ([], _) => recipe
        end
      else recipe
  | [] => []
  end.

End RecipeSpec.

(** * Theorems *)

Section SegmentDistance.

Import CalculateMidradius SegmentSpec.
Open Scope R_scope.

Lemma sum3_eq f : sum3 f = f A0 + f A1 + f A2.
Proof. unfold sum3, Py.sum. simpl. lra. Qed.

Lemma py_min_Rmin a b : Py.min a b = Rmin a b.
Proof.
  unfold Py.min, Rmin. destruct (Rlt_dec b a), (Rle_dec a b); lra.
Qed.

Lemma py_max_Rmax a b : Py.max a b = Rmax a b.
Proof.
  unfold Py.max, Rmax. destruct (Rgt_dec b a), (Rle_dec a b); lra.
Qed.


Lemma sum3_sq_dot p : sum3 (fun i => coord p i ^ 2) = dot p p.
Proof. rewrite sum3_eq. unfold dot. lra. Qed.

Lemma edge_len_sq_dot p1 p2 :
  sum3 (fun i => coord (comp3 (fun i => coord p2 i - coord p1 i)) i ^ 2)
  = dot (sub p2 p1) (sub p2 p1).
Proof. rewrite sum3_eq. unfold dot, sub, comp3. simpl. lra. Qed.

Lemma cps_degenerate (p1 p2 o : point) :
  dot (sub p2 p1) (sub p2 p1) < 1e-10 ->
  closest_point_on_segment p1 p2 o = (p1, norm p1).
Proof.
  intros Hlt. unfold closest_point_on_segment. rewrite edge_len_sq_dot.
  destruct (Rlt_dec _ 1e-10) as [_|Hn]; [|lra].
  unfold norm. now rewrite sum3_sq_dot.
Qed.

Lemma cps_regular (p1 p2 o : point) :
  let e := sub p2 p1 in
  let t := clamp01 (dot (neg p1) e / dot e e) in
  1e-10 <= dot e e ->
  closest_point_on_segment p1 p2 o = (along p1 t e, norm (along p1 t e)).
Proof.
  intros e t Hge. unfold closest_point_on_segment.
  rewrite edge_len_sq_dot. fold e.
  destruct (Rlt_dec (dot e e) 1e-10) as [Hlt|_]; [lra|].
  rewrite py_min_Rmin, py_max_Rmax.
  assert (Ht : sum3 (fun i => coord (comp3 (fun i => - coord p1 i)) i
                              * coord (comp3 (fun i => coord p2 i - coord p1 i)) i)
               = dot (neg p1) e).
  { rewrite sum3_eq. destruct p1 as [[x1 y1] z1], p2 as [[x2 y2] z2].
    unfold dot, neg, e, sub, comp3. simpl. lra. }
  rewrite Ht. fold (clamp01 (dot (neg p1) e / dot e e)). fold t.
  assert (Hc : comp3 (fun i => coord p1 i
                 + t * coord (comp3 (fun i => coord p2 i - coord p1 i)) i)
               = along p1 t e).
  { destruct p1 as [[x1 y1] z1], p2 as [[x2 y2] z2].
    unfold along, e, sub, comp3. simpl. reflexivity. }
  rewrite Hc. unfold norm. now rewrite sum3_sq_dot.
Qed.


End SegmentDistance.

Section SegmentDistanceWitness.

Import CalculateMidradius SegmentSpec.
Open Scope R_scope.


End SegmentDistanceWitness.


Section MidradiusCalculator.

Import CalculateMidradius MidradiusSpec.
Open Scope R_scope.

Lemma getitem_valid {A} (l : list A) (i : Z) :
  (0 <= i < Z.of_nat (length l))%Z ->
  exists x, l !! Z.to_nat i = Some x /\ getitem l i = Ok x.
Proof.
  intros [Hlo Hhi]. unfold getitem.
  destruct (Z.ltb_spec i 0) as [Hneg|_]; [lia|].
  destruct (Z.leb_spec 0 i) as [_|Hneg]; [|lia].
  destruct (Z.ltb_spec i (Z.of_nat (length l))) as [_|Hge]; [|lia].
  simpl. destruct (l !! Z.to_nat i) as [x|] eqn:Hx.
  - exists x. split; reflexivity.
  - apply lookup_ge_None in Hx. lia.
Qed.

Lemma segment_of_valid vertices e :
  valid_edge vertices e -> exists p d, segment_of vertices e = Some (p, d).
Proof.
  intros [H1 H2]. unfold segment_of.
  destruct (getitem_valid vertices _ H1) as (p1 & -> & _).
  destruct (getitem_valid vertices _ H2) as (p2 & -> & _).
  destruct (closest_point_on_segment p1 p2 origin) as [p d]. eauto.
Qed.

(** On an edge with valid indices an iteration cannot raise: it replaces
    the running best exactly when the edge's distance is strictly smaller. *)
Lemma step_valid vertices st e p d :
  valid_edge vertices e ->
  segment_of vertices e = Some (p, d) ->
  step vertices st e
  = Ok (if lt_efloat d (min_distance st)
        then Best (Num d) (Some e) (Some p) else st).
Proof.
  intros [H1 H2] Hseg. unfold step, segment_of in *. destruct e as [i j].
  simpl in *.
  destruct (getitem_valid vertices _ H1) as (p1 & Hp1 & ->).
  destruct (getitem_valid vertices _ H2) as (p2 & Hp2 & ->).
  rewrite Hp1, Hp2 in Hseg. injection Hseg as Hseg. simpl.
  rewrite Hseg. destruct (lt_efloat d (min_distance st)); reflexivity.
Qed.

Lemma lt_efloat_trans d d' m :
  lt_efloat d' m = true -> d < d' -> lt_efloat d m = true.
Proof.
  destruct m as [r|]; simpl; [|reflexivity].
  destruct (Rlt_dec d' r); [|discriminate]. intros _ Hlt.
  destruct (Rlt_dec d r); [reflexivity|lra].
Qed.

Lemma lt_efloat_false_le d d' m :
  lt_efloat d m = true -> lt_efloat d' m = false -> d < d'.
Proof.
  destruct m as [r|]; simpl; [|discriminate].
  destruct (Rlt_dec d r); [|discriminate].
  destruct (Rlt_dec d' r); [discriminate|]. intros _ _. lra.
Qed.

(** The loop invariant, stated for an arbitrary starting state: either no
    edge beats the starting state and it is returned unchanged, or the
    first edge of least distance is returned. *)
Lemma loop_spec vertices edges :
  Forall (valid_edge vertices) edges ->
  forall st, exists st',
    loop vertices edges st = Ok st'
    /\ ((st' = st
         /\ forall j e p d, edges !! j = Some e ->
              segment_of vertices e = Some (p, d) ->
              lt_efloat d (min_distance st) = false)
        \/ (exists k e p d,
              st' = Best (Num d) (Some e) (Some p)
              /\ edges !! k = Some e
              /\ segment_of vertices e = Some (p, d)
              /\ lt_efloat d (min_distance st) = true
              /\ forall j e' p' d', edges !! j = Some e' ->
                   segment_of vertices e' = Some (p', d') ->
                   d <= d' /\ ((j < k)%nat -> d < d'))).
Proof.
  induction 1 as [|e0 edges Hv0 Hvs IH]; intros st.
  - exists st. split; [reflexivity|]. left. split; [reflexivity|].
    intros j e p d Hj. rewrite lookup_nil in Hj. discriminate.
  - destruct (segment_of_valid _ _ Hv0) as (p0 & d0 & Hseg0).
    cbn [loop]. rewrite (step_valid _ st _ _ _ Hv0 Hseg0). cbn [mbind result_bind].
    destruct (lt_efloat d0 (min_distance st)) eqn:Hlt0.
    + destruct (IH (Best (Num d0) (Some e0) (Some p0)))
        as (st' & -> & [[-> Hall] | (k & e & p & d & -> & Hk & Hseg & Hlt & Hmin)]).
      * eexists. split; [reflexivity|]. right.
        exists 0%nat, e0, p0, d0. repeat split; try assumption; try reflexivity.
        -- destruct j as [|j]; simpl in H.
           ++ injection H as <-. rewrite Hseg0 in H0. injection H0 as _ <-. lra.
           ++ specialize (Hall _ _ _ _ H H0). simpl in Hall.
              destruct (Rlt_dec d' d0); [discriminate|lra].
        -- lia.
      * eexists. split; [reflexivity|]. right.
        simpl in Hlt. destruct (Rlt_dec d d0) as [Hdd0|]; [|discriminate].
        exists (S k), e, p, d. repeat split; try assumption.
        -- eapply lt_efloat_trans; eassumption.
        -- destruct j as [|j]; simpl in H.
           ++ injection H as <-. rewrite Hseg0 in H0. injection H0 as _ <-. lra.
           ++ apply (Hmin _ _ _ _ H H0).
        -- destruct j as [|j]; simpl in H.
           ++ injection H as <-. rewrite Hseg0 in H0. injection H0 as _ <-.
              intros _. lra.
           ++ intros Hjk. apply (Hmin _ _ _ _ H H0). lia.
    + destruct (IH st)
        as (st' & -> & [[-> Hall] | (k & e & p & d & -> & Hk & Hseg & Hlt & Hmin)]).
      * eexists. split; [reflexivity|]. left. split; [reflexivity|].
        intros [|j] e p d Hj Hs; simpl in Hj.
        -- injection Hj as <-. rewrite Hseg0 in Hs. injection Hs as _ <-. exact Hlt0.
        -- eapply Hall; eassumption.
      * eexists. split; [reflexivity|]. right.
        exists (S k), e, p, d. repeat split; try assumption.
        -- destruct j as [|j]; simpl in H.
           ++ injection H as <-. rewrite Hseg0 in H0. injection H0 as _ <-.
              pose proof (lt_efloat_false_le _ _ _ Hlt Hlt0). lra.
           ++ apply (Hmin _ _ _ _ H H0).
        -- destruct j as [|j]; simpl in H.
           ++ injection H as <-. rewrite Hseg0 in H0. injection H0 as _ <-.
              intros _. eapply lt_efloat_false_le; eassumption.
           ++ intros Hjk. apply (Hmin _ _ _ _ H H0). lia.
Qed.


End MidradiusCalculator.


Section MidradiusCalculatorWitness.

Import CalculateMidradius MidradiusSpec.
Open Scope R_scope.


End MidradiusCalculatorWitness.

Section EdgeExtractor.

Import ConvertObjToFormat EdgeSpec.
Open Scope Z_scope.

#[local] Instance tuple_le_total : Total tuple_le.
Proof. intros [a1 a2] [b1 b2]. unfold tuple_le. simpl. lia. Qed.

#[local] Instance tuple_le_trans : Transitive tuple_le.
Proof. intros [a1 a2] [b1 b2] [c1 c2]. unfold tuple_le. simpl. lia. Qed.

#[local] Instance tuple_le_antisymm : AntiSymm (=) tuple_le.
Proof.
  intros [a1 a2] [b1 b2]. unfold tuple_le. simpl. intros H1 H2.
  f_equal; lia.
Qed.

Lemma elem_of_add_face_aux (face : list Z) (idxs : list nat) (s : gset edge) (e : edge) :
  e ∈ fold_left (add_edge face) idxs s
  <-> e ∈ s \/ exists i, i ∈ idxs
        /\ e = (Z.min (face !!! i) (face !!! ((i + 1) mod length face)%nat),
                Z.max (face !!! i) (face !!! ((i + 1) mod length face)%nat)).
Proof.
  revert s. induction idxs as [|i idxs IH]; intros s; simpl.
  - split; [auto|]. intros [H|(i & Hi & _)]; [exact H|]. inversion Hi.
  - rewrite IH. unfold add_edge at 1. rewrite elem_of_union, elem_of_singleton.
    split.
    + intros [[->|H]|(j & Hj & ->)]; [right|left|right]; try assumption.
      * exists i. split; [left|reflexivity].
      * exists j. split; [right; assumption|reflexivity].
    + intros [H|(j & Hj & ->)]; [left; right; assumption|].
      apply elem_of_cons in Hj as [->|Hj]; [left; left; reflexivity|].
      right. exists j. split; [assumption|reflexivity].
Qed.

Lemma elem_of_add_face (face : list Z) (s : gset edge) (e : edge) :
  e ∈ add_face s face <-> e ∈ s \/ edge_of_face face e.
Proof.
  unfold add_face. rewrite elem_of_add_face_aux.
  split; (intros [H|H]; [left; exact H|right]).
  - destruct H as (i & Hi & ->). apply elem_of_seq in Hi as [_ Hi]. simpl in Hi.
    assert (Hj : ((i + 1) mod length face < length face)%nat)
      by (apply Nat.mod_upper_bound; lia).
    exists i, (face !!! i), (face !!! ((i + 1) mod length face)%nat).
    split; [|split; [|reflexivity]]; apply list_lookup_lookup_total_lt; assumption.
  - destruct H as (i & v1 & v2 & H1 & H2 & ->).
    exists i. split.
    + apply elem_of_seq. apply lookup_lt_Some in H1. lia.
    + apply list_lookup_total_correct in H1, H2. rewrite H1, H2. reflexivity.
Qed.

Lemma elem_of_faces_fold (faces : list (list Z)) (s : gset edge) (e : edge) :
  e ∈ fold_left add_face faces s
  <-> e ∈ s \/ exists face, face ∈ faces /\ edge_of_face face e.
Proof.
  revert s. induction faces as [|f faces IH]; intros s; simpl.
  - split; [auto|]. intros [H|(f & Hf & _)]; [exact H|]. inversion Hf.
  - rewrite IH, elem_of_add_face. split.
    + intros [[H|H]|(f' & Hf' & H)]; [left; exact H|right|right].
      * exists f. split; [left|exact H].
      * exists f'. split; [right; exact Hf'|exact H].
    + intros [H|(f' & Hf' & H)]; [left; left; exact H|].
      apply elem_of_cons in Hf' as [->|Hf']; [left; right; exact H|].
      right. exists f'. split; assumption.
Qed.

(** C3. The result of [faces_to_edges] contains exactly the canonical
    pairs [(min(v1,v2), max(v1,v2))] of the consecutive index pairs of each
    face, wrap-around pair included; it has no duplicates; it is sorted in
    ascending order by (first index, second index); and a face with exactly
    two indices contributes exactly one edge: both of its consecutive pairs
    have the same canonical pair, and on its own it yields a one-edge list. *)
Theorem faces_to_edges_spec (faces : list (list Z)) :
  (forall e : edge,
     e ∈ faces_to_edges faces
     <-> exists face, face ∈ faces /\ edge_of_face face e)
  /\ NoDup (faces_to_edges faces)
  /\ StronglySorted tuple_le (faces_to_edges faces)
  /\ (forall (a b : Z) (e : edge),
        edge_of_face [a; b] e <-> e = (Z.min a b, Z.max a b))
  /\ (forall a b : Z, faces_to_edges [[a; b]] = [(Z.min a b, Z.max a b)]).
Proof.
  assert (Hmem : forall fs (e : edge),
             e ∈ faces_to_edges fs
             <-> exists face, face ∈ fs /\ edge_of_face face e).
  { intros fs e. unfold faces_to_edges.
    rewrite merge_sort_Permutation, elem_of_elements, elem_of_faces_fold.
    split; [intros [H|H]; [set_solver|exact H]|auto]. }
  assert (Hnd : forall fs, NoDup (faces_to_edges fs)).
  { intros fs. unfold faces_to_edges. rewrite merge_sort_Permutation.
    apply NoDup_elements. }
  assert (Hsort : forall fs, StronglySorted tuple_le (faces_to_edges fs)).
  { intros fs. unfold faces_to_edges. apply StronglySorted_merge_sort; apply _. }
  assert (Hpair : forall (a b : Z) (e : edge),
             edge_of_face [a; b] e <-> e = (Z.min a b, Z.max a b)).
  { intros a b e. split.
    - intros (i & v1 & v2 & H1 & H2 & ->).
      destruct i as [|[|i]]; simpl in *; try discriminate.
      + injection H1 as <-. injection H2 as <-. reflexivity.
      + injection H1 as <-. injection H2 as <-. f_equal; lia.
    - intros ->. exists 0%nat, a, b. repeat split. }
  split; [apply Hmem|]. split; [apply Hnd|]. split; [apply Hsort|].
  split; [exact Hpair|].
  intros a b.
  assert (Hone : forall e : edge,
             e ∈ faces_to_edges [[a; b]] <-> e = (Z.min a b, Z.max a b)).
  { intros e. rewrite Hmem, <- Hpair. split.
    - intros (face & Hf & He). apply list_elem_of_singleton in Hf as ->. exact He.
    - intros He. exists [a; b]. split; [left|exact He]. }
  destruct (faces_to_edges [[a; b]]) as [|e1 [|e2 l]] eqn:Heq.
  - exfalso. eapply not_elem_of_nil. apply Hone. reflexivity.
  - f_equal. apply Hone. left.
  - exfalso. specialize (Hnd [[a; b]]). rewrite Heq in Hnd.
    apply NoDup_cons in Hnd as [Hnotin _]. apply Hnotin.
    assert (e1 = (Z.min a b, Z.max a b)) as -> by (apply Hone; left).
    assert (e2 = (Z.min a b, Z.max a b)) as -> by (apply Hone; right; left).
    left.
Qed.

End EdgeExtractor.


Section CubeFixture.

Import SegmentSpec.
Open Scope R_scope.

(** The inlined distance computation of [convert_obj_to_format.py] is the
    distance component of the segment evaluator of [calculate_midradius.py]. *)
Lemma convert_step_eq vertices m e :
  ConvertObjToFormat.step vertices m e
  = (p1 ← getitem vertices e.1;
     p2 ← getitem vertices e.2;
     let d := (CalculateMidradius.closest_point_on_segment p1 p2
                 CalculateMidradius.origin).2 in
     if lt_efloat d m then Ok (Num d) else Ok m).
Proof.
  destruct e as [i j]. unfold ConvertObjToFormat.step. simpl.
  destruct (getitem vertices i) as [p1|]; [|reflexivity].
  destruct (getitem vertices j) as [p2|]; [|reflexivity]. simpl.
  unfold CalculateMidradius.closest_point_on_segment.
  destruct (Rlt_dec _ 1e-10); reflexivity.
Qed.

(** An edge whose projection parameter is exactly 1/2. *)
Lemma cps_midpoint (p1 p2 : point) :
  let e := sub p2 p1 in
  1e-10 <= dot e e ->
  dot (neg p1) e / dot e e = 1 / 2 ->
  CalculateMidradius.closest_point_on_segment p1 p2 CalculateMidradius.origin
  = (along p1 (1 / 2) e, norm (along p1 (1 / 2) e)).
Proof.
  intros e Hge Ht. rewrite cps_regular by exact Hge. fold e. rewrite Ht.
  assert (clamp01 (1 / 2) = 1 / 2) as ->; [|reflexivity].
  unfold clamp01, Rmin, Rmax.
  destruct (Rle_dec 1 (1 / 2)); [lra|]. destruct (Rle_dec 0 (1 / 2)); lra.
Qed.

(** Every edge of the cube has its closest point at parameter 1/2, at
    distance √(0.5² + 0.5²). *)
Lemma cube_edge_distance :
  Forall (fun e : edge =>
            exists p1 p2,
              getitem Cube.vertices e.1 = Ok p1
              /\ getitem Cube.vertices e.2 = Ok p2
              /\ CalculateMidradius.closest_point_on_segment p1 p2
                   CalculateMidradius.origin
                 = (along p1 (1 / 2) (sub p2 p1), sqrt Cube.half_sq))
         Cube.edges.
Proof.
  unfold Cube.edges.
  repeat (apply Forall_cons; split;
    [ eexists; eexists; split; [reflexivity|]; split; [reflexivity|];
      rewrite cps_midpoint;
      [ f_equal; unfold norm, Cube.half_sq; f_equal;
        unfold dot, along, sub; simpl; lra
      | unfold dot, sub; simpl; lra
      | unfold dot, sub, neg; simpl; lra ]
    | ]).
  constructor.
Qed.

Lemma convert_loop_cons vertices e es m :
  ConvertObjToFormat.loop vertices (e :: es) m
  = ConvertObjToFormat.step vertices m e ≫= ConvertObjToFormat.loop vertices es.
Proof. reflexivity. Qed.

(** Once the running minimum is the distance shared by all edges, no later
    edge replaces it. *)
Lemma cube_loop_stable (es : list edge) (d : R) :
  Forall (fun e : edge =>
            exists p1 p2,
              getitem Cube.vertices e.1 = Ok p1
              /\ getitem Cube.vertices e.2 = Ok p2
              /\ (CalculateMidradius.closest_point_on_segment p1 p2
                    CalculateMidradius.origin).2 = d) es ->
  ConvertObjToFormat.loop Cube.vertices es (Num d) = Ok (Num d).
Proof.
  induction 1 as [|e es (p1 & p2 & H1 & H2 & Hd) _ IH]; [reflexivity|].
  rewrite convert_loop_cons, convert_step_eq, H1, H2.
  cbn [mbind result_bind]. rewrite Hd. simpl.
  destruct (Rlt_dec d d) as [Hlt|_]; [lra|]. exact IH.
Qed.

Lemma sqrt_between (a b x : R) :
  0 <= a -> a * a < x -> x < b * b -> 0 <= b -> a < sqrt x < b.
Proof.
  intros Ha Hax Hxb Hb. split.
  - rewrite <- (sqrt_square a Ha). apply sqrt_lt_1_alt. nra.
  - rewrite <- (sqrt_square b Hb). apply sqrt_lt_1_alt. nra.
Qed.

(** C7. For the cube with vertices (±0.5, ±0.5, ±0.5) and its 6 square
    faces, [faces_to_edges] yields exactly 12 edges, and
    [calculate_midradius] on the unnormalised cube yields
    √(0.5² + 0.5²), which lies between 0.7071 and 0.7072 and is the
    distance from the origin of the midpoint (parameter t = 0.5) of the
    edge between (0.5, 0.5, 0.5) and (0.5, 0.5, -0.5). *)
Theorem cube_fixture :
  ConvertObjToFormat.faces_to_edges Cube.faces = Cube.edges
  /\ length (ConvertObjToFormat.faces_to_edges Cube.faces) = 12%nat
  /\ ConvertObjToFormat.calculate_midradius Cube.vertices
       (ConvertObjToFormat.faces_to_edges Cube.faces)
     = Ok (Num (sqrt (0.5 ^ 2 + 0.5 ^ 2)))
  /\ 0.7071 < sqrt (0.5 ^ 2 + 0.5 ^ 2) < 0.7072
  /\ (let p1 : point := (0.5, 0.5, 0.5) in
      let p2 : point := (0.5, 0.5, -0.5) in
      CalculateMidradius.closest_point_on_segment p1 p2 CalculateMidradius.origin
      = (along p1 0.5 (sub p2 p1), sqrt (0.5 ^ 2 + 0.5 ^ 2))).
Proof.
  assert (Hedges : ConvertObjToFormat.faces_to_edges Cube.faces = Cube.edges)
    by (vm_compute; reflexivity).
  split; [exact Hedges|]. rewrite Hedges.
  split; [reflexivity|]. split; [|split].
  - pose proof cube_edge_distance as Hall. unfold Cube.edges in *.
    apply Forall_cons in Hall as [(p1 & p2 & H1 & H2 & Hd) Hall].
    unfold ConvertObjToFormat.calculate_midradius.
    rewrite convert_loop_cons, convert_step_eq, H1, H2.
    cbn [mbind result_bind]. rewrite Hd. cbn [snd lt_efloat].
    apply (cube_loop_stable _ (sqrt Cube.half_sq)).
    eapply Forall_impl; [exact Hall|].
    intros e (q1 & q2 & Hq1 & Hq2 & Hq). exists q1, q2.
    rewrite Hq. auto.
  - apply sqrt_between; lra.
  - intros p1 p2. rewrite cps_midpoint.
    + f_equal.
      * unfold along. f_equal; [f_equal|]; lra.
      * unfold norm. f_equal. unfold dot, along, sub, p1, p2. simpl. lra.
    + unfold dot, sub, p1, p2. simpl. lra.
    + unfold dot, sub, neg, p1, p2. simpl. lra.
Qed.

End CubeFixture.


Section Normalizer.

Import ConvertObjToFormat SegmentSpec NormalizeSpec.
Open Scope R_scope.





























End Normalizer.

Section NormalizerWitness.

Import ConvertObjToFormat SegmentSpec NormalizeSpec.
Open Scope R_scope.


End NormalizerWitness.


Section Numerals.

Import Text.
Open Scope N_scope.

Lemma digit_char_spec d :
  d < 10 -> isdigit (digit_char d) = true /\ digit_val (digit_char d) = d.
Proof.
  intros Hd.
  assert (Hcases : d = 0 \/ d = 1 \/ d = 2 \/ d = 3 \/ d = 4 \/ d = 5
                   \/ d = 6 \/ d = 7 \/ d = 8 \/ d = 9) by lia.
  repeat (destruct Hcases as [->|Hcases]; [split; reflexivity|]).
  subst. split; reflexivity.
Qed.

Lemma digits_val_acc s a :
  fold_left (fun a c => 10 * a + digit_val c) s a
  = a * 10 ^ N.of_nat (length s) + digits_val s.
Proof.
  unfold digits_val. revert a. induction s as [|c s IH]; intros a.
  - simpl. lia.
  - cbn [fold_left length]. rewrite IH, (IH (10 * 0 + digit_val c)).
    rewrite Nat2N.inj_succ, N.pow_succ_r'. lia.
Qed.

Lemma digits_val_app a b :
  digits_val (a ++ b) = digits_val a * 10 ^ N.of_nat (length b) + digits_val b.
Proof.
  unfold digits_val at 1. rewrite fold_left_app.
  fold (digits_val a). apply digits_val_acc.
Qed.

Lemma digits_of_acc fuel n acc :
  digits_of fuel n acc = digits_of fuel n [] ++ acc.
Proof.
  revert n acc. induction fuel as [|fuel IH]; intros n acc; simpl; [reflexivity|].
  destruct (n <? 10); [reflexivity|].
  rewrite IH, (IH _ [_]), <- app_assoc. reflexivity.
Qed.

Lemma digits_of_isdigit fuel n :
  Forall (fun c => isdigit c = true) (digits_of fuel n []).
Proof.
  revert n. induction fuel as [|fuel IH]; intros n; simpl; [constructor|].
  destruct (N.ltb_spec n 10) as [Hlt|Hge].
  - repeat constructor. apply digit_char_spec, Hlt.
  - rewrite digits_of_acc. apply Forall_app. split; [apply IH|].
    repeat constructor. apply digit_char_spec, N.mod_lt. lia.
Qed.

Lemma digits_of_val fuel n :
  n < 2 ^ N.of_nat fuel -> digits_val (digits_of fuel n []) = n.
Proof.
  revert n. induction fuel as [|fuel IH]; intros n Hn.
  - simpl in *. unfold digits_val. simpl. lia.
  - cbn [digits_of]. destruct (N.ltb_spec n 10) as [Hlt|Hge].
    + unfold digits_val. simpl. rewrite (proj2 (digit_char_spec n Hlt)). lia.
    + rewrite digits_of_acc, digits_val_app, IH.
      * unfold digits_val at 1. simpl.
        rewrite (proj2 (digit_char_spec (n mod 10) ltac:(apply N.mod_lt; lia))).
        pose proof (N.div_mod n 10 ltac:(lia)). lia.
      * rewrite Nat2N.inj_succ, N.pow_succ_r' in Hn.
        apply N.Div0.div_lt_upper_bound. lia.
Qed.

Lemma str_of_N_isdigit n : Forall (fun c => isdigit c = true) (str_of_N n).
Proof. apply digits_of_isdigit. Qed.

Lemma str_of_N_nonempty n : str_of_N n <> [].
Proof.
  unfold str_of_N. cbn [digits_of]. destruct (n <? 10); [discriminate|].
  rewrite digits_of_acc. destruct (digits_of _ _ []); discriminate.
Qed.

(** Reading back the digits of [n] gives [n]. *)
Lemma str_of_N_val n : digits_val (str_of_N n) = n.
Proof.
  apply digits_of_val. rewrite Nat2N.inj_succ, N2Nat.id, N.pow_succ_r'.
  pose proof (N.size_gt n). lia.
Qed.

Lemma pad4_isdigit k : Forall (fun c => isdigit c = true) (pad4 k).
Proof.
  unfold pad4. repeat constructor; apply digit_char_spec, N.mod_lt; lia.
Qed.

Lemma pad4_val k : k < 10000 -> digits_val (pad4 k) = k.
Proof.
  intros Hk. unfold pad4, digits_val. cbn [fold_left].
  rewrite !(fun d H => proj2 (digit_char_spec d H)) by (apply N.mod_lt; lia).
  pose proof (N.div_mod k 10 ltac:(lia)).
  pose proof (N.div_mod (k / 10) 10 ltac:(lia)).
  pose proof (N.div_mod (k / 10 / 10) 10 ltac:(lia)).
  rewrite !N.Div0.div_div in *.
  change (10 * 10) with 100 in *. change (100 * 10) with 1000 in *.
  assert (k / 1000 < 10) by (apply N.Div0.div_lt_upper_bound; lia).
  rewrite (N.mod_small (k / 1000) 10) by assumption. lia.
Qed.

End Numerals.


Section Regex.

Import Text Re.

Lemma star_sound {X} ok (k : nat -> str -> option X) pos s r :
  star ok k pos s = Some r ->
  exists a b, s = a ++ b /\ Forall (fun c => ok c = true) a
              /\ k (pos + length a)%nat b = Some r.
Proof.
  revert pos. induction s as [|c s IH]; intros pos H; simpl in H.
  - exists [], []. rewrite Nat.add_0_r. auto.
  - destruct (ok c) eqn:Hc.
    + destruct (star ok k (S pos) s) as [r'|] eqn:Hs.
      * injection H as ->. destruct (IH _ Hs) as (a & b & -> & Ha & Hk).
        exists (c :: a), b. repeat split; [constructor; assumption|].
        simpl. rewrite <- Hk. f_equal. lia.
      * exists [], (c :: s). rewrite Nat.add_0_r. auto.
    + exists [], (c :: s). rewrite Nat.add_0_r. auto.
Qed.

(** The repetition is greedy: when the rest of the pattern matches after
    the longest run, that is the match found. *)
Lemma star_greedy {X} ok (k : nat -> str -> option X) pos a b r :
  Forall (fun c => ok c = true) a ->
  match b with c :: _ => ok c = false | [] => True end ->
  k (pos + length a)%nat b = Some r ->
  star ok k pos (a ++ b) = Some r.
Proof.
  intros Ha Hb. revert pos. induction Ha as [|c a Hc Ha IH]; intros pos Hk.
  - simpl in *. rewrite Nat.add_0_r in Hk.
    destruct b as [|c b]; simpl; [exact Hk|]. rewrite Hb. exact Hk.
  - simpl. rewrite Hc, (IH (S pos)); [reflexivity|].
    rewrite <- Hk. f_equal. simpl. lia.
Qed.

Lemma expand_template_plain t :
  Forall (fun c => c <> backslash) t -> expand_template t = Ok t.
Proof.
  induction 1 as [|c t Hc _ IH]; [reflexivity|]. cbn [expand_template].
  destruct (Ascii.eqb_spec c backslash) as [->|_]; [contradiction|].
  rewrite IH. reflexivity.
Qed.

Lemma sub_scan_skip p repl pos s k :
  (k <= length s)%nat ->
  sub_scan p repl pos s k = sub_scan p repl (pos + k) (drop k s) 0.
Proof.
  revert pos s. induction k as [|k IH]; intros pos s Hk.
  - rewrite Nat.add_0_r. reflexivity.
  - destruct s as [|c s]; [simpl in Hk; lia|].
    cbn [sub_scan drop]. rewrite IH by (simpl in Hk; lia). f_equal. lia.
Qed.

(** Where the pattern matches nowhere in a prefix, the scan copies it. *)
Lemma sub_scan_copy p repl pos pre rest :
  (forall i, (i < length pre)%nat ->
             exec p [] (pos + i) (drop i (pre ++ rest)) = None) ->
  sub_scan p repl pos (pre ++ rest) 0
  = pre ++ sub_scan p repl (pos + length pre) rest 0.
Proof.
  revert pos. induction pre as [|c pre IH]; intros pos Hno.
  - simpl. rewrite Nat.add_0_r. reflexivity.
  - pose proof (Hno 0%nat ltac:(simpl; lia)) as H0.
    rewrite Nat.add_0_r in H0. simpl in H0.
    cbn [sub_scan app]. rewrite H0. f_equal.
    rewrite IH.
    + f_equal. f_equal. simpl. lia.
    + intros i Hi. specialize (Hno (S i) ltac:(simpl; lia)).
      simpl in Hno. rewrite <- Hno. f_equal. lia.
Qed.

(** Where the pattern matches nowhere, the scan returns its input. *)
Lemma sub_scan_none p repl pos s :
  (forall i, (i <= length s)%nat -> exec p [] (pos + i) (drop i s) = None) ->
  sub_scan p repl pos s 0 = s.
Proof.
  intros Hno. rewrite <- (app_nil_r s) at 1. rewrite sub_scan_copy.
  - simpl. specialize (Hno (length s) (Nat.le_refl _)).
    rewrite drop_all in Hno. rewrite Hno. apply app_nil_r.
  - intros i Hi. rewrite app_nil_r. apply Hno. lia.
Qed.

(** A non-empty match is replaced and the scan continues after it. *)
Lemma sub_scan_match p repl pos s n marks :
  (0 < n <= length s)%nat ->
  exec p [] pos s = Some ((pos + n)%nat, marks) ->
  sub_scan p repl pos s 0 = repl ++ sub_scan p repl (pos + n) (drop n s) 0.
Proof.
  intros Hn Hex. destruct s as [|c s]; [simpl in Hn; lia|].
  cbn [sub_scan]. rewrite Hex. f_equal.
  destruct (Nat.leb_spec (pos + n) pos) as [Hle|_]; [lia|].
  rewrite sub_scan_skip by (simpl in Hn; lia).
  replace (pos + n - pos - 1)%nat with (n - 1)%nat by lia.
  replace (S pos + (n - 1))%nat with (pos + n)%nat by lia.
  destruct n as [|n]; [lia|]. simpl. rewrite Nat.sub_0_r. reflexivity.
Qed.

Lemma exec_lits_inv h p marks pos s r :
  exec (lits h ++ p) marks pos s = Some r ->
  exists s', s = h ++ s' /\ exec p marks (pos + length h) s' = Some r.
Proof.
  revert pos s. induction h as [|c h IH]; intros pos s H.
  - exists s. rewrite Nat.add_0_r. auto.
  - cbn [lits map app exec] in H. destruct s as [|x s]; [discriminate|].
    cbn [in_class existsb atom_matches] in H.
    destruct (Ascii.eqb_spec x c) as [->|_]; [|discriminate].
    cbn [orb] in H. fold (lits h) in H.
    destruct (IH _ _ H) as (s' & -> & Hs'). exists s'. split; [reflexivity|].
    rewrite <- Hs'. f_equal. simpl. lia.
Qed.

Lemma exec_lits h p marks pos s :
  exec (lits h ++ p) marks pos (h ++ s) = exec p marks (pos + length h) s.
Proof.
  revert pos. induction h as [|c h IH]; intros pos.
  - simpl. rewrite Nat.add_0_r. reflexivity.
  - cbn [lits map app exec in_class existsb atom_matches].
    rewrite Ascii.eqb_refl. cbn [orb]. fold (lits h). rewrite IH.
    f_equal. simpl. lia.
Qed.

Lemma exec_One_cons cs p marks pos c s :
  exec (One cs :: p) marks pos (c :: s)
  = if in_class cs c then exec p marks (S pos) s else None.
Proof. reflexivity. Qed.

Lemma exec_Star cs p marks pos s :
  exec (Star cs :: p) marks pos s = star (in_class cs) (exec p marks) pos s.
Proof. reflexivity. Qed.

Lemma exec_Plus_cons cs p marks pos c s :
  exec (Plus cs :: p) marks pos (c :: s)
  = if in_class cs c then star (in_class cs) (exec p marks) (S pos) s else None.
Proof. reflexivity. Qed.

Lemma exec_Open p marks pos s :
  exec (Open :: p) marks pos s = exec p (marks ++ [pos]) pos s.
Proof. reflexivity. Qed.

Lemma exec_Close p marks pos s :
  exec (Close :: p) marks pos s = exec p (marks ++ [pos]) pos s.
Proof. reflexivity. Qed.

Lemma exec_Bol p marks s : exec (Bol :: p) marks 0 s = exec p marks 0 s.
Proof. reflexivity. Qed.

Lemma exec_Eol p marks pos : exec (Eol :: p) marks pos [] = exec p marks pos [].
Proof. reflexivity. Qed.

Lemma star_cons_true {X} ok (k : nat -> str -> option X) pos c s :
  ok c = true ->
  star ok k pos (c :: s)
  = match star ok k (S pos) s with Some r => Some r | None => k pos (c :: s) end.
Proof. intros H. simpl. now rewrite H. Qed.

Lemma star_cons_false {X} ok (k : nat -> str -> option X) pos c s :
  ok c = false -> star ok k pos (c :: s) = k pos (c :: s).
Proof. intros H. simpl. now rewrite H. Qed.

End Regex.

Section InPlaceUpdate.

Import Text Re CalculateMidradius UpdateSpec.

Lemma in_class_unsigned c : in_class unsigned_number c = is_number_char c.
Proof.
  unfold in_class, unsigned_number, is_number_char. simpl.
  now rewrite orb_false_r.
Qed.

Lemma in_class_space c : in_class [Space] c = isspace c.
Proof. unfold in_class. simpl. now rewrite orb_false_r. Qed.

Lemma in_class_newline c : in_class [Char newline] c = Ascii.eqb c newline.
Proof. unfold in_class. simpl. now rewrite orb_false_r. Qed.

Lemma number_char_not_space c : is_number_char c = true -> isspace c = false.
Proof.
  unfold is_number_char, isspace, isdigit. intros H.
  apply orb_true_iff in H as [H|H].
  - apply andb_true_iff in H as [H1 H2].
    apply N.leb_le in H1, H2. set (n := N_of_ascii c) in *.
    destruct (N.leb_spec n 13); [lia|]. destruct (N.leb_spec n 32); [lia|].
    destruct (N.eqb_spec n 133); [lia|]. destruct (N.eqb_spec n 160); [lia|].
    now rewrite !andb_false_r.
  - apply Ascii.eqb_eq in H as ->. reflexivity.
Qed.

Lemma number_char_not_newline c : is_number_char c = true -> c <> newline.
Proof. intros H ->. discriminate. Qed.

(** The update pattern matches at the start of [s] only if [s] begins with
    the header, whitespace, a line break and a digit or dot. *)
Lemma exec_value_sound marks pos s r :
  exec midradius_value_pattern marks pos s = Some r -> header_then_number s.
Proof.
  unfold midradius_value_pattern. cbn [app exec]. intros H.
  apply exec_lits_inv in H as (s1 & -> & H). cbn [app exec] in H.
  apply star_sound in H as (ws & s2 & -> & Hws & H).
  cbn [exec] in H. destruct s2 as [|x s2]; [discriminate|].
  rewrite in_class_newline in H.
  destruct (Ascii.eqb_spec x newline) as [->|_]; [|discriminate].
  cbn [exec] in H. destruct s2 as [|c s2]; [discriminate|].
  destruct (in_class unsigned_number c) eqn:Hc; [|discriminate].
  rewrite in_class_unsigned in Hc.
  exists ws, c, s2. repeat split; try assumption.
  eapply Forall_impl; [exact Hws|]. intros y Hy. now rewrite <- in_class_space.
Qed.

(** The update pattern matches a header directly followed by a line break
    and a run of digits and dots, up to the end of the run. *)
Lemma exec_value_at pos num post :
  num <> [] ->
  Forall (fun c => is_number_char c = true) num ->
  no_number_ahead post ->
  exists marks,
    exec midradius_value_pattern [] pos (header ++ newline :: num ++ post)
    = Some ((pos + (length header + 1 + length num))%nat, marks).
Proof.
  intros Hne Hnum Hpost. destruct num as [|c num]; [contradiction|].
  apply Forall_cons in Hnum as [Hc Hnum].
  unfold midradius_value_pattern. cbn [app]. rewrite exec_Open, exec_lits.
  cbn [app]. rewrite exec_Star.
  rewrite star_cons_true by (rewrite in_class_space; reflexivity).
  rewrite star_cons_false by (rewrite in_class_space; now apply number_char_not_space).
  rewrite exec_One_cons, in_class_newline.
  destruct (Ascii.eqb_spec c newline) as [->|_];
    [exfalso; eapply number_char_not_newline; eauto|].
  rewrite exec_One_cons, in_class_newline.
  change (Ascii.eqb newline newline) with true. cbv iota.
  rewrite exec_Close, exec_Open, exec_Plus_cons, in_class_unsigned, Hc.
  eexists. erewrite star_greedy.
  - reflexivity.
  - eapply Forall_impl; [exact Hnum|]. intros y Hy. now rewrite in_class_unsigned.
  - destruct post as [|d post]; [exact I|]. rewrite in_class_unsigned. exact Hpost.
  - rewrite exec_Close. cbn [exec]. f_equal. f_equal. simpl. lia.
Qed.

Lemma isdigit_not_backslash c : isdigit c = true -> c <> backslash.
Proof. intros H ->. discriminate. Qed.

Lemma format_4f_no_backslash x : Forall (fun c => c <> backslash) (format_4f x).
Proof.
  unfold format_4f. repeat apply Forall_app_2.
  - destruct (Rlt_dec x 0); repeat constructor; discriminate.
  - eapply Forall_impl; [apply str_of_N_isdigit|]. apply isdigit_not_backslash.
  - repeat constructor; discriminate.
  - eapply Forall_impl; [apply pad4_isdigit|]. apply isdigit_not_backslash.
Qed.

Lemma format_4f_e_no_backslash m : Forall (fun c => c <> backslash) (format_4f_e m).
Proof.
  destruct m as [x|]; [apply format_4f_no_backslash|].
  repeat constructor; discriminate.
Qed.

(** The replacement that [re.sub] writes for the template of the update. *)
Lemma expand_replacement m :
  expand_template ("MIDRADIUS:\n" ++ format_4f_e m)
  = Ok (header ++ newline :: format_4f_e m).
Proof.
  change (list_ascii_of_string "MIDRADIUS:\n")
    with (header ++ [backslash; "n"%char]).
  rewrite <- app_assoc.
  assert (Hh : forall t r, expand_template t = Ok r ->
                           expand_template (header ++ t) = Ok (header ++ r)).
  { intros t r Ht. unfold header. simpl. rewrite Ht. reflexivity. }
  apply Hh. cbn [app expand_template].
  rewrite (expand_template_plain _ (format_4f_e_no_backslash m)). reflexivity.
Qed.

Lemma round_half_even_IZR z : round_half_even (IZR z) = z.
Proof.
  unfold round_half_even. rewrite ZfloorZ.
  destruct (Rlt_dec (IZR z - IZR z) (1 / 2)) as [_|Hn]; [reflexivity|].
  exfalso. apply Hn. lra.
Qed.

(** Formatting a number that is a multiple of 0.0001. *)
Lemma format_4f_decimal (n : N) :
  format_4f (IZR (Z.of_N n) / 10000)
  = str_of_N (n / 10000) ++ "." ++ pad4 (n mod 10000).
Proof.
  unfold format_4f.
  assert (Hpos : (0 <= IZR (Z.of_N n) / 10000)%R).
  { apply Rmult_le_pos; [apply IZR_le; lia|lra]. }
  destruct (Rlt_dec _ 0) as [Hlt|_]; [lra|].
  rewrite Rabs_pos_eq by exact Hpos.
  replace (IZR (Z.of_N n) / 10000 * 10000)%R with (IZR (Z.of_N n)) by (field; lra).
  rewrite round_half_even_IZR, N2Z.id. reflexivity.
Qed.

Lemma format_4f_half : format_4f (1 / 2) = "0.5000".
Proof.
  replace (1 / 2)%R with (IZR (Z.of_N 5000) / 10000)%R by (simpl; lra).
  rewrite format_4f_decimal. reflexivity.
Qed.

Lemma drop_mentions content i r :
  exec midradius_value_pattern [] i (drop i content) = Some r ->
  mentions_value content.
Proof.
  intros H. exists (take i content), (drop i content).
  split; [symmetry; apply take_drop|]. eapply exec_value_sound, H.
Qed.

Lemma scan_without_value repl pos s :
  ~ mentions_value s -> sub_scan midradius_value_pattern repl pos s 0 = s.
Proof.
  intros Hno. apply sub_scan_none. intros i _.
  destruct (exec _ _ _ _) as [r|] eqn:Hex; [|reflexivity].
  exfalso. apply Hno. exists (take i s), (drop i s).
  split; [symmetry; apply take_drop|]. eapply exec_value_sound, Hex.
Qed.

(** C10, amended. When the content of the file nowhere has [MIDRADIUS:]
    followed by whitespace, a line break and a digit or dot,
    [update_midradius_in_file] raises no error and writes back the content
    it read: the file system is unchanged. *)
Theorem update_without_value_is_noop fs filepath content m :
  fs !! filepath = Some content ->
  ~ mentions_value content ->
  update_midradius_in_file fs filepath m = Ok (<[filepath := content]> fs)
  /\ <[filepath := content]> fs = fs.
Proof.
  intros Hfile Hno. split; [|apply insert_id, Hfile].
  unfold update_midradius_in_file, read. rewrite Hfile. cbn [mbind result_bind].
  unfold re_sub. rewrite expand_replacement. cbn [mbind result_bind].
  rewrite scan_without_value by exact Hno. reflexivity.
Qed.

Lemma header_overlap (x r w : str) :
  x ++ header ++ r = header ++ w ->
  exists b, x ++ header = header ++ b /\ length b = length x.
Proof.
  intros H. exists (take (length x) w).
  assert (Hlen : length w = (length x + length r)%nat).
  { apply (f_equal length) in H. rewrite !length_app in H. lia. }
  split; [|rewrite length_take; lia].
  apply (f_equal (take (length x + length header))) in H.
  rewrite app_assoc, take_app_length' in H by (rewrite length_app; lia).
  rewrite H. rewrite take_app_ge by lia. f_equal. f_equal. lia.
Qed.


End InPlaceUpdate.


Section InPlaceUpdateExamples.

Import Text Re CalculateMidradius UpdateSpec.

Lemma update_singleton (name : string) (content new_content : str) m :
  sub_scan midradius_value_pattern (header ++ newline :: format_4f_e m) 0 content 0
  = new_content ->
  update_midradius_in_file {[ name := content ]} name m
  = Ok {[ name := new_content ]}.
Proof.
  intros Hscan. unfold update_midradius_in_file, read.
  rewrite lookup_singleton_eq. cbn [mbind result_bind].
  unfold re_sub. rewrite expand_replacement. cbn [mbind result_bind].
  rewrite Hscan, insert_singleton_eq. reflexivity.
Qed.


(** C10 as stated fails when the line after the header starts with a digit
    but is not a line of digits and dots: the decoder finds no numeric line
    after the header, yet the update rewrites the leading digit. *)
Lemma update_partial_line_counterexample :
  let content : str := header ++ newline :: "1e-05" in
  header_before_numeric_line (split newline content) = false
  /\ update_midradius_in_file {[ "record.txt"%string := content ]}
       "record.txt" (Num (1 / 2))
     = Ok {[ "record.txt"%string := header ++ newline :: "0.5000e-05" ]}
  /\ header ++ newline :: "0.5000e-05" <> content.
Proof.
  intros content. split; [reflexivity|]. split.
  - apply update_singleton. cbn [format_4f_e]. rewrite format_4f_half.
    vm_compute. reflexivity.
  - discriminate.
Qed.

(** A text without the letter M has no header at all. *)
Lemma no_M_first_header pre :
  Forall (fun c => c <> "M"%char) pre -> first_header pre.
Proof.
  intros Hpre a b Heq.
  destruct (Nat.lt_ge_cases (length a) (length pre)) as [Hlt|Hge].
  - exfalso. apply (f_equal (fun l => l !! length a)) in Heq.
    rewrite lookup_app_l in Heq by exact Hlt.
    rewrite lookup_app_r, Nat.sub_diag in Heq by lia. simpl in Heq.
    rewrite Forall_lookup in Hpre. apply (Hpre _ _ Heq). reflexivity.
  - apply (f_equal length) in Heq. rewrite !length_app in Heq.
    destruct b; [reflexivity|simpl in Heq; lia].
Qed.

Lemma no_M_no_value s : Forall (fun c => c <> "M"%char) s -> ~ mentions_value s.
Proof.
  intros Hs (pre & t & -> & ws & c & rest & -> & _).
  apply Forall_app in Hs as [_ Hs]. unfold header in Hs. simpl in Hs.
  apply Forall_cons in Hs as [HM _]. apply HM. reflexivity.
Qed.


(** A record without a midradius section. *)
Lemma update_without_value_is_noop_witness :
  let content : str := "VERTICES:" ++ newline :: "EDGES:" in
  let fs : gmap string str := {[ "record.txt"%string := content ]} in
  update_midradius_in_file fs "record.txt" (Num (1 / 2))
  = Ok (<["record.txt"%string := content]> fs)
  /\ <["record.txt"%string := content]> fs = fs.
Proof.
  intros content fs.
  apply (update_without_value_is_noop fs "record.txt" content (Num (1 / 2))).
  - apply lookup_singleton_eq.
  - apply no_M_no_value. repeat constructor; discriminate.
Defined.

End InPlaceUpdateExamples.

Section Decoder.

Import Text Re CalculateMidradius.

(** C5 fails on the code: a vertex line whose fields are made of digits,
    dots and minus signs matches the vertex pattern, and [float] raises
    [ValueError] on a field that is not a numeral. *)
Theorem parse_polyhedron_file_raises :
  let line : str := "0:1.2.3,0.0,0.0" in
  let content : str := "VERTICES:" ++ newline :: line in
  (exists m, re_match vertex_pattern line = Some m /\ group m 1 = "1.2.3")
  /\ parse_polyhedron_file {[ "record.txt"%string := content ]} "record.txt"
     = Raise ValueError.
Proof.
  intros line content. split.
  - eexists. split; reflexivity.
  - vm_compute. reflexivity.
Qed.

(** Blank lines, lines before the first section marker and lines that do
    not match the pattern of their section are dropped. *)
Example parse_skips_unmatched_lines :
  let content : str :=
    "stray" ++ newline :: "VERTICES:" ++ newline :: "0:1,2,3" ++ newline
      :: "  1:-4.5,0.25,6.  " ++ newline :: "2:1,2" ++ newline :: newline
      :: "EDGES:" ++ newline :: "0:0,1" ++ newline :: "1:0,-1" ++ newline
      :: "MIDRADIUS:" ++ newline :: "-1" ++ newline :: "0.5" in
  parse_polyhedron_file {[ "record.txt"%string := content ]} "record.txt"
  = Ok ([(1 / 10 ^ 0, 2 / 10 ^ 0, 3 / 10 ^ 0);
         (- (45 / 10 ^ 1), 25 / 10 ^ 2, 6 / 10 ^ 0)]%R,
        [(0, 1)%Z], Some (5 / 10 ^ 1)%R).
Proof. vm_compute. reflexivity. Qed.

End Decoder.

Section MissingGeometry.

Import Text Re CalculateMidradius.

(** C6 as stated fails: on an empty edge list the calculators raise
    nothing and return the initial [float('inf')]. *)
Lemma calculate_midradius_empty_counterexample :
  calculate_midradius [] [] = Ok (PosInf, None, None)
  /\ ConvertObjToFormat.calculate_midradius [] [] = Ok PosInf.
Proof. split; reflexivity. Qed.

(** C6, amended. The calculator signals nothing for an empty edge list: it
    returns [(inf, None, None)] whatever the vertices are. It is the batch
    driver that checks: a record whose vertex list or edge list is empty
    after decoding is skipped, the calculator is not invoked, the file is
    left as it is, and the loop goes on with the remaining files. *)
Theorem empty_geometry_is_skipped_by_driver :
  (forall vertices, calculate_midradius vertices [] = Ok (PosInf, None, None))
  /\ (forall fs filepath vertices edges old_midradius,
        parse_polyhedron_file fs filepath = Ok (vertices, edges, old_midradius) ->
        vertices = [] \/ edges = [] ->
        process_file fs filepath = (fs, Skipped)
        /\ forall rest,
             process_files fs (filepath :: rest)
             = (fst (process_files fs rest), Skipped :: snd (process_files fs rest))).
Proof.
  split; [reflexivity|].
  intros fs filepath vertices edges old Hparse Hempty.
  assert (Hskip : process_file fs filepath = (fs, Skipped)).
  { unfold process_file. rewrite Hparse.
    destruct Hempty as [-> | ->]; [reflexivity|].
    destruct vertices; reflexivity. }
  split; [exact Hskip|]. intros rest. cbn [process_files]. rewrite Hskip.
  destruct (process_files fs rest). reflexivity.
Qed.

(** A record with both section headers and no entries. *)
Lemma empty_geometry_is_skipped_by_driver_witness :
  let fs : gmap string str :=
    {[ "record.txt"%string := "VERTICES:" ++ newline :: "EDGES:" ]} in
  process_file fs "record.txt" = (fs, Skipped)
  /\ forall rest,
       process_files fs ("record.txt"%string :: rest)
       = (fst (process_files fs rest), Skipped :: snd (process_files fs rest)).
Proof.
  intros fs.
  apply (proj2 empty_geometry_is_skipped_by_driver fs "record.txt" [] [] None).
  - vm_compute. reflexivity.
  - left. reflexivity.
Defined.

End MissingGeometry.


Section TextFacts.

Import Text.

Lemma span_app ok a b :
  Forall (fun c => ok c = true) a ->
  match b with c :: _ => ok c = false | [] => True end ->
  span ok (a ++ b) = (a, b).
Proof.
  intros Ha Hb. induction Ha as [|c a Hc _ IH]; simpl.
  - destruct b as [|c b]; [reflexivity|]. simpl. now rewrite Hb.
  - now rewrite Hc, IH.
Qed.

Lemma lstrip_nonspace s : Forall nonspace s -> lstrip s = s.
Proof. destruct 1 as [|c s Hc _]; [reflexivity|]. simpl. now rewrite Hc. Qed.

Lemma strip_nonspace s : Forall nonspace s -> strip s = s.
Proof.
  intros Hs. unfold strip, rstrip. rewrite (lstrip_nonspace s Hs).
  rewrite lstrip_nonspace by (apply Forall_rev, Hs). apply rev_involutive.
Qed.

Lemma nonspace_not_newline c : nonspace c -> Ascii.eqb c newline = false.
Proof.
  intros Hc. destruct (Ascii.eqb_spec c newline) as [->|]; [discriminate|reflexivity].
Qed.

Lemma split_line sep l :
  Forall (fun c => Ascii.eqb c sep = false) l -> split sep l = [l].
Proof.
  induction 1 as [|c l Hc _ IH]; [reflexivity|]. simpl. now rewrite Hc, IH.
Qed.

Lemma split_app_sep sep l s :
  Forall (fun c => Ascii.eqb c sep = false) l ->
  split sep (l ++ sep :: s) = l :: split sep s.
Proof.
  induction 1 as [|c l Hc _ IH]; simpl.
  - now rewrite Ascii.eqb_refl.
  - now rewrite Hc, IH.
Qed.

(** Splitting at line breaks undoes joining lines that have none. *)
Lemma split_join lines :
  lines <> [] ->
  Forall (Forall nonspace) lines ->
  split newline (join [newline] lines) = lines.
Proof.
  intros Hne Hall. induction Hall as [|l lines Hl Hls IH]; [contradiction|].
  assert (Hl' : Forall (fun c => Ascii.eqb c newline = false) l).
  { eapply Forall_impl; [exact Hl|]. apply nonspace_not_newline. }
  destruct lines as [|l2 lines].
  - simpl. apply split_line, Hl'.
  - change (join [newline] (l :: l2 :: lines))
      with (l ++ newline :: join [newline] (l2 :: lines)).
    rewrite split_app_sep by exact Hl'. f_equal. apply IH. discriminate.
Qed.

Lemma slice_middle (a x b : str) :
  slice (a ++ x ++ b) (length a) (length a + length x) = x.
Proof.
  unfold slice. rewrite drop_app_length.
  replace (length a + length x - length a)%nat with (length x) by lia.
  apply take_app_length.
Qed.

End TextFacts.


Section NumberFormats.

Import Text RoundTripSpec.

Lemma isdigit_signed c : isdigit c = true -> Re.in_class CalculateMidradius.signed_number c = true.
Proof. intros H. unfold Re.in_class. simpl. rewrite H. now rewrite orb_true_r. Qed.

Lemma isdigit_number_char c : isdigit c = true -> UpdateSpec.is_number_char c = true.
Proof. intros H. unfold UpdateSpec.is_number_char. now rewrite H. Qed.

Lemma isdigit_nonspace c : isdigit c = true -> nonspace c.
Proof. intros H. apply number_char_not_space, isdigit_number_char, H. Qed.

Lemma signed_nonspace c :
  Re.in_class CalculateMidradius.signed_number c = true -> nonspace c.
Proof.
  unfold Re.in_class. simpl. rewrite orb_false_r. intros H.
  apply orb_true_iff in H as [H|H].
  - apply Ascii.eqb_eq in H as ->. reflexivity.
  - apply number_char_not_space. unfold UpdateSpec.is_number_char. exact H.
Qed.

Lemma round_half_even_nonneg y : (0 <= y)%R -> (0 <= round_half_even y)%Z.
Proof.
  intros Hy. unfold round_half_even.
  assert (0 <= Zfloor y)%Z by (apply Zfloor_lub; exact Hy).
  repeat destruct (Rlt_dec _ _); try destruct (Z.even _); lia.
Qed.

Lemma forallb_of_Forall {A} (f : A -> bool) l :
  Forall (fun x => f x = true) l -> forallb f l = true.
Proof. induction 1 as [|x l Hx _ IH]; [reflexivity|]. simpl. now rewrite Hx, IH. Qed.

Lemma isdigit_not_punct d :
  isdigit d = true ->
  Ascii.eqb d "-" = false /\ Ascii.eqb d "+" = false /\ Ascii.eqb d "." = false.
Proof.
  intros H. repeat split;
    match goal with
    | |- Ascii.eqb d ?c = false =>
        destruct (Ascii.eqb_spec d c) as [->|]; [discriminate|reflexivity]
    end.
Qed.

Lemma split_sign_digit d s : isdigit d = true -> split_sign (d :: s) = (false, d :: s).
Proof.
  intros H. destruct (isdigit_not_punct d H) as (H1 & H2 & _).
  unfold split_sign. now rewrite H1, H2.
Qed.

(** [float] on a numeral with a point: sign, integer digits, point,
    fraction digits. *)
Lemma py_float_numeral (negative : bool) ip fp :
  ip <> [] ->
  Forall (fun c => isdigit c = true) ip ->
  Forall (fun c => isdigit c = true) fp ->
  py_float ((if negative then ["-"%char] else []) ++ ip ++ "."%char :: fp)
  = Ok (let v := (IZR (Z.of_N (digits_val (ip ++ fp))) / 10 ^ length fp)%R in
        if negative then (- v)%R else v).
Proof.
  intros Hne Hip Hfp. unfold py_float.
  assert (Hsign : split_sign ((if negative then ["-"%char] else [])
                              ++ ip ++ "."%char :: fp)
                  = (negative, ip ++ "."%char :: fp)).
  { destruct negative; [reflexivity|]. destruct ip as [|d ip]; [contradiction|].
    apply Forall_cons in Hip as [Hd _]. apply (split_sign_digit d _ Hd). }
  rewrite Hsign, (span_app isdigit ip ("."%char :: fp) Hip eq_refl).
  rewrite Ascii.eqb_refl, (forallb_of_Forall _ _ Hfp). cbn [andb].
  destruct ip as [|d ip]; [contradiction|]. reflexivity.
Qed.

Lemma pow10_4 : (10 ^ 4 = 10000)%R.
Proof. simpl. lra. Qed.

(** Reading back a formatted number gives the number rounded to 4 decimal
    digits. *)
Lemma py_float_format_4f x : py_float (format_4f x) = Ok (round4 x).
Proof.
  unfold format_4f, round4.
  set (z := round_half_even (Rabs x * 10000)).
  assert (Hz : (0 <= z)%Z).
  { apply round_half_even_nonneg. pose proof (Rabs_pos x). lra. }
  set (n := Z.to_N z).
  assert (Hval : digits_val (str_of_N (n / 10000) ++ pad4 (n mod 10000)) = n).
  { rewrite digits_val_app, str_of_N_val, pad4_val by (apply N.mod_lt; lia).
    change (N.of_nat (length (pad4 (n mod 10000)))) with 4%N.
    change (10 ^ 4)%N with 10000%N.
    pose proof (N.div_mod n 10000 ltac:(lia)). lia. }
  assert (Hnum : forall negative : bool,
             py_float ((if negative then ["-"%char] else [])
                       ++ str_of_N (n / 10000) ++ "." ++ pad4 (n mod 10000))
             = Ok (if negative then (- (IZR z / 10000))%R else (IZR z / 10000)%R)).
  { intros negative.
    change (list_ascii_of_string ".") with ["."%char]. cbn [app].
    rewrite py_float_numeral;
      [|apply str_of_N_nonempty|apply str_of_N_isdigit|apply pad4_isdigit].
    cbv zeta. rewrite Hval. unfold n. rewrite Z2N.id by exact Hz.
    change (length (pad4 (Z.to_N z mod 10000))) with 4%nat. rewrite pow10_4.
    reflexivity. }
  destruct (Rlt_dec x 0).
  - apply (Hnum true).
  - apply (Hnum false).
Qed.

(** Reading back a printed index gives the index. *)
Lemma py_int_str_of_Z v : (0 <= v)%Z -> py_int (str_of_Z v) = Ok v.
Proof.
  intros Hv. unfold str_of_Z. destruct (Z.ltb_spec v 0); [lia|].
  pose proof (str_of_N_isdigit (Z.to_N v)) as Hd.
  pose proof (str_of_N_val (Z.to_N v)) as Hval.
  pose proof (str_of_N_nonempty (Z.to_N v)) as Hne.
  destruct (str_of_N (Z.to_N v)) as [|d s] eqn:Hs; [contradiction|].
  unfold py_int. rewrite split_sign_digit by (apply Forall_cons in Hd; tauto).
  rewrite (forallb_of_Forall _ _ Hd), Hval. f_equal. lia.
Qed.

(** The characters of a formatted number. *)
Lemma format_4f_signed x :
  Forall (fun c => Re.in_class CalculateMidradius.signed_number c = true)
    (format_4f x).
Proof.
  unfold format_4f. repeat apply Forall_app_2.
  - destruct (Rlt_dec x 0); repeat constructor.
  - eapply Forall_impl; [apply str_of_N_isdigit|]. apply isdigit_signed.
  - repeat constructor.
  - eapply Forall_impl; [apply pad4_isdigit|]. apply isdigit_signed.
Qed.

Lemma format_4f_unsigned x :
  (0 <= x)%R -> Forall (fun c => UpdateSpec.is_number_char c = true) (format_4f x).
Proof.
  intros Hx. unfold format_4f. destruct (Rlt_dec x 0); [lra|].
  repeat apply Forall_app_2.
  - constructor.
  - eapply Forall_impl; [apply str_of_N_isdigit|]. apply isdigit_number_char.
  - repeat constructor.
  - eapply Forall_impl; [apply pad4_isdigit|]. apply isdigit_number_char.
Qed.

Lemma format_4f_nonempty x : format_4f x <> [].
Proof.
  unfold format_4f. destruct (Rlt_dec x 0); [discriminate|].
  pose proof (str_of_N_nonempty (Z.to_N (round_half_even (Rabs x * 10000)) / 10000)).
  destruct (str_of_N _); [contradiction|discriminate].
Qed.

End NumberFormats.


Section LineMatching.

Import Text Re CalculateMidradius.

Lemma exec_Plus_run cs p marks pos a b r :
  a <> [] ->
  Forall (fun c => in_class cs c = true) a ->
  match b with c :: _ => in_class cs c = false | [] => True end ->
  exec p marks (pos + length a) b = Some r ->
  exec (Plus cs :: p) marks pos (a ++ b) = Some r.
Proof.
  intros Hne Ha Hb Hk. destruct a as [|c a]; [contradiction|].
  apply Forall_cons in Ha as [Hc Ha].
  cbn [app]. rewrite exec_Plus_cons, Hc.
  apply star_greedy; [exact Ha|exact Hb|].
  rewrite <- Hk. f_equal. simpl. lia.
Qed.

(** A parenthesised field [(X+)]: the two marks are its start and end. *)
Lemma exec_field cs p marks pos f b r :
  f <> [] ->
  Forall (fun c => in_class cs c = true) f ->
  match b with c :: _ => in_class cs c = false | [] => True end ->
  exec p (marks ++ [pos; (pos + length f)%nat]) (pos + length f) b = Some r ->
  exec (Open :: Plus cs :: Close :: p) marks pos (f ++ b) = Some r.
Proof.
  intros Hne Hf Hb Hk. rewrite exec_Open.
  apply exec_Plus_run; [exact Hne|exact Hf|exact Hb|].
  rewrite exec_Close, <- app_assoc. exact Hk.
Qed.

Lemma exec_field_end cs p marks pos f r :
  f <> [] ->
  Forall (fun c => in_class cs c = true) f ->
  exec p (marks ++ [pos; (pos + length f)%nat]) (pos + length f) [] = Some r ->
  exec (Open :: Plus cs :: Close :: p) marks pos f = Some r.
Proof.
  intros Hne Hf Hk. rewrite <- (app_nil_r f) at 1.
  apply exec_field; [exact Hne|exact Hf|exact I|exact Hk].
Qed.

Lemma exec_One_char c p marks pos s :
  exec (One [Char c] :: p) marks pos (c :: s) = exec p marks (S pos) s.
Proof.
  rewrite exec_One_cons. unfold in_class. simpl. now rewrite Ascii.eqb_refl.
Qed.

Ltac reassoc :=
  repeat first [rewrite <- app_assoc | progress cbn [app]]; reflexivity.

Lemma slice_at (s a x b : str) pos :
  s = a ++ x ++ b -> pos = length a -> slice s pos (pos + length x) = x.
Proof. intros -> ->. apply slice_middle. Qed.

Lemma digits_in_class s :
  Forall (fun c => isdigit c = true) s ->
  Forall (fun c => in_class [Digit] c = true) s.
Proof.
  intros H. eapply Forall_impl; [exact H|].
  intros c Hc. unfold in_class. simpl. now rewrite Hc.
Qed.

(** A vertex line: index, colon and three comma-separated fields. *)
Lemma match_vertex_line idx f1 f2 f3 :
  idx <> [] -> Forall (fun c => isdigit c = true) idx ->
  f1 <> [] -> Forall (fun c => in_class signed_number c = true) f1 ->
  f2 <> [] -> Forall (fun c => in_class signed_number c = true) f2 ->
  f3 <> [] -> Forall (fun c => in_class signed_number c = true) f3 ->
  exists m,
    re_match vertex_pattern (idx ++ ":"%char :: f1 ++ ","%char :: f2 ++ ","%char :: f3)
    = Some m
    /\ group m 1 = f1 /\ group m 2 = f2 /\ group m 3 = f3.
Proof.
  intros Hi Hidx H1 Hf1 H2 Hf2 H3 Hf3.
  set (s := idx ++ ":"%char :: f1 ++ ","%char :: f2 ++ ","%char :: f3).
  set (p1 := S (0 + length idx)).
  set (p2 := S (p1 + length f1)).
  set (p3 := S (p2 + length f2)).
  assert (Hex : exec vertex_pattern [] 0 s
                = Some ((p3 + length f3)%nat,
                        [p1; (p1 + length f1)%nat; p2; (p2 + length f2)%nat;
                         p3; (p3 + length f3)%nat])).
  { unfold vertex_pattern, s. rewrite exec_Bol.
    apply exec_Plus_run; [exact Hi|apply digits_in_class, Hidx|reflexivity|].
    rewrite exec_One_char. fold p1.
    apply exec_field; [exact H1|exact Hf1|reflexivity|].
    rewrite exec_One_char. fold p2.
    apply exec_field; [exact H2|exact Hf2|reflexivity|].
    rewrite exec_One_char. fold p3.
    apply exec_field_end; [exact H3|exact Hf3|].
    rewrite exec_Eol. reflexivity. }
  exists (Match s (p3 + length f3) [p1; (p1 + length f1)%nat; p2;
                                    (p2 + length f2)%nat; p3; (p3 + length f3)%nat]).
  unfold re_match. rewrite Hex. split; [reflexivity|].
  unfold group. cbn [m_string m_marks Nat.mul Nat.add Nat.sub nth].
  repeat split.
  - apply (slice_at s (idx ++ [":"%char]) f1 (","%char :: f2 ++ ","%char :: f3)).
    + unfold s. reassoc.
    + unfold p1. rewrite length_app. simpl. lia.
  - apply (slice_at s (idx ++ ":"%char :: f1 ++ [","%char]) f2 (","%char :: f3)).
    + unfold s. reassoc.
    + unfold p2, p1. rewrite length_app. simpl. rewrite length_app. simpl. lia.
  - apply (slice_at s (idx ++ ":"%char :: f1 ++ ","%char :: f2 ++ [","%char]) f3 []).
    + unfold s. rewrite app_nil_r. reassoc.
    + unfold p3, p2, p1. rewrite length_app. simpl. rewrite length_app. simpl.
      rewrite length_app. simpl. lia.
Qed.

(** An edge line: index, colon and two comma-separated indices. *)
Lemma match_edge_line idx f1 f2 :
  idx <> [] -> Forall (fun c => isdigit c = true) idx ->
  f1 <> [] -> Forall (fun c => isdigit c = true) f1 ->
  f2 <> [] -> Forall (fun c => isdigit c = true) f2 ->
  exists m,
    re_match edge_pattern (idx ++ ":"%char :: f1 ++ ","%char :: f2) = Some m
    /\ group m 1 = f1 /\ group m 2 = f2.
Proof.
  intros Hi Hidx H1 Hf1 H2 Hf2.
  set (s := idx ++ ":"%char :: f1 ++ ","%char :: f2).
  set (p1 := S (0 + length idx)).
  set (p2 := S (p1 + length f1)).
  assert (Hex : exec edge_pattern [] 0 s
                = Some ((p2 + length f2)%nat,
                        [p1; (p1 + length f1)%nat; p2; (p2 + length f2)%nat])).
  { unfold edge_pattern, s. rewrite exec_Bol.
    apply exec_Plus_run; [exact Hi|apply digits_in_class, Hidx|reflexivity|].
    rewrite exec_One_char. fold p1.
    apply exec_field; [exact H1|apply digits_in_class, Hf1|reflexivity|].
    rewrite exec_One_char. fold p2.
    apply exec_field_end; [exact H2|apply digits_in_class, Hf2|].
    rewrite exec_Eol. reflexivity. }
  exists (Match s (p2 + length f2) [p1; (p1 + length f1)%nat; p2;
                                    (p2 + length f2)%nat]).
  unfold re_match. rewrite Hex. split; [reflexivity|].
  unfold group. cbn [m_string m_marks Nat.mul Nat.add Nat.sub nth].
  split.
  - apply (slice_at s (idx ++ [":"%char]) f1 (","%char :: f2)).
    + unfold s. reassoc.
    + unfold p1. rewrite length_app. simpl. lia.
  - apply (slice_at s (idx ++ ":"%char :: f1 ++ [","%char]) f2 []).
    + unfold s. rewrite app_nil_r. reassoc.
    + unfold p2, p1. rewrite length_app. simpl. rewrite length_app. simpl. lia.
Qed.

(** A midradius line: one unsigned number. *)
Lemma match_midradius_line f :
  f <> [] -> Forall (fun c => UpdateSpec.is_number_char c = true) f ->
  exists m, re_match midradius_pattern f = Some m /\ group m 1 = f.
Proof.
  intros Hne Hf.
  assert (Hex : exec midradius_pattern [] 0 f
                = Some ((0 + length f)%nat, [0%nat; (0 + length f)%nat])).
  { unfold midradius_pattern. rewrite exec_Bol.
    apply exec_field_end; [exact Hne| |].
    - eapply Forall_impl; [exact Hf|]. intros c Hc. now rewrite in_class_unsigned.
    - rewrite exec_Eol. reflexivity. }
  exists (Match f (0 + length f) [0%nat; (0 + length f)%nat]).
  unfold re_match. rewrite Hex. split; [reflexivity|].
  unfold group. cbn [m_string m_marks Nat.mul Nat.add Nat.sub nth].
  apply (slice_at f [] f []); [now rewrite app_nil_r|reflexivity].
Qed.

End LineMatching.


Section RoundTrip.

Import Text Re CalculateMidradius ConvertObjToFormat RoundTripSpec.

Lemma startswith_digit d s :
  isdigit d = true ->
  startswith (d :: s) "VERTICES:" = false
  /\ startswith (d :: s) "EDGES:" = false
  /\ startswith (d :: s) "MIDRADIUS:" = false.
Proof.
  intros H. repeat split; simpl;
    match goal with
    | |- Ascii.eqb d ?c && _ = false =>
        destruct (Ascii.eqb_spec d c) as [->|]; [discriminate|reflexivity]
    end.
Qed.

Lemma parse_lines_app l1 l2 st :
  parse_lines (l1 ++ l2) st = parse_lines l1 st ≫= parse_lines l2.
Proof.
  revert st. induction l1 as [|l l1 IH]; intros st; [reflexivity|].
  cbn [app parse_lines]. destruct (parse_line st l) as [st'|e]; [|reflexivity].
  cbn [mbind result_bind]. apply IH.
Qed.

Lemma vertex_line_eq i v :
  vertex_line i v
  = str_of_N (N.of_nat i) ++ ":"%char :: format_4f (coord v A0)
      ++ ","%char :: format_4f (coord v A1) ++ ","%char :: format_4f (coord v A2).
Proof. reflexivity. Qed.

Lemma edge_line_eq i v1 v2 :
  edge_line i (v1, v2)
  = str_of_N (N.of_nat i) ++ ":"%char :: str_of_Z v1 ++ ","%char :: str_of_Z v2.
Proof. reflexivity. Qed.

Lemma str_of_Z_nonneg v : (0 <= v)%Z -> str_of_Z v = str_of_N (Z.to_N v).
Proof. intros Hv. unfold str_of_Z. destruct (Z.ltb_spec v 0); [lia|reflexivity]. Qed.

Lemma digits_nonspace s : Forall (fun c => isdigit c = true) s -> Forall nonspace s.
Proof. intros H. eapply Forall_impl; [exact H|]. apply isdigit_nonspace. Qed.

Lemma format_4f_nonspace x : Forall nonspace (format_4f x).
Proof. eapply Forall_impl; [apply format_4f_signed|]. apply signed_nonspace. Qed.

Lemma vertex_line_nonspace i v : Forall nonspace (vertex_line i v).
Proof.
  rewrite vertex_line_eq.
  apply Forall_app_2; [apply digits_nonspace, str_of_N_isdigit|].
  apply Forall_cons_2; [reflexivity|].
  apply Forall_app_2; [apply format_4f_nonspace|].
  apply Forall_cons_2; [reflexivity|].
  apply Forall_app_2; [apply format_4f_nonspace|].
  apply Forall_cons_2; [reflexivity|]. apply format_4f_nonspace.
Qed.

Lemma edge_line_nonspace i e : nonneg_edge e -> Forall nonspace (edge_line i e).
Proof.
  destruct e as [v1 v2]. intros [H1 H2]. simpl in H1, H2.
  rewrite edge_line_eq, !str_of_Z_nonneg by assumption.
  apply Forall_app_2; [apply digits_nonspace, str_of_N_isdigit|].
  apply Forall_cons_2; [reflexivity|].
  apply Forall_app_2; [apply digits_nonspace, str_of_N_isdigit|].
  apply Forall_cons_2; [reflexivity|]. apply digits_nonspace, str_of_N_isdigit.
Qed.

(** A line that starts with a digit and has no whitespace is not a section
    marker and not blank: it is handed to the pattern of its section. *)
Ltac data_line Hd Hns :=
  unfold parse_line; rewrite (strip_nonspace _ Hns);
  match goal with
  | |- context [startswith (?d :: ?s) _] =>
      destruct (startswith_digit d s Hd) as (-> & -> & ->)
  end.

Lemma parse_line_vertex st i v :
  ps_section st = Some Vertices ->
  parse_line st (vertex_line i v)
  = Ok (ParseState (ps_vertices st ++ [round4_point v]) (ps_edges st)
          (ps_midradius st) (ps_section st)).
Proof.
  intros Hsec. pose proof (vertex_line_nonspace i v) as Hns.
  rewrite vertex_line_eq in *.
  pose proof (str_of_N_isdigit (N.of_nat i)) as Hidx.
  pose proof (str_of_N_nonempty (N.of_nat i)) as Hne.
  destruct (match_vertex_line (str_of_N (N.of_nat i))
              (format_4f (coord v A0)) (format_4f (coord v A1))
              (format_4f (coord v A2)))
    as (m & Hm & Hg1 & Hg2 & Hg3);
    try apply format_4f_nonempty; try apply format_4f_signed; try assumption.
  destruct (str_of_N (N.of_nat i)) as [|d idx] eqn:Hi; [contradiction|].
  apply Forall_cons in Hidx as [Hd _].
  cbn [app] in *. data_line Hd Hns.
  rewrite Hsec, Hm, Hg1, Hg2, Hg3, !py_float_format_4f. reflexivity.
Qed.

Lemma parse_line_edge st i e :
  nonneg_edge e ->
  ps_section st = Some Edges ->
  parse_line st (edge_line i e)
  = Ok (ParseState (ps_vertices st) (ps_edges st ++ [e])
          (ps_midradius st) (ps_section st)).
Proof.
  intros Hnn Hsec. pose proof (edge_line_nonspace i e Hnn) as Hns.
  destruct e as [v1 v2]. destruct Hnn as [H1 H2]. simpl in H1, H2.
  rewrite edge_line_eq in *.
  pose proof (str_of_N_isdigit (N.of_nat i)) as Hidx.
  pose proof (str_of_N_nonempty (N.of_nat i)) as Hne.
  assert (Hz : forall v, (0 <= v)%Z ->
                 str_of_Z v <> [] /\ Forall (fun c => isdigit c = true) (str_of_Z v)).
  { intros v Hv. rewrite str_of_Z_nonneg by exact Hv.
    split; [apply str_of_N_nonempty|apply str_of_N_isdigit]. }
  destruct (match_edge_line (str_of_N (N.of_nat i)) (str_of_Z v1) (str_of_Z v2))
    as (m & Hm & Hg1 & Hg2);
    [exact Hne|exact Hidx|apply Hz, H1|apply Hz, H1|apply Hz, H2|apply Hz, H2|].
  destruct (str_of_N (N.of_nat i)) as [|d idx] eqn:Hi; [contradiction|].
  apply Forall_cons in Hidx as [Hd _].
  cbn [app] in *. data_line Hd Hns.
  rewrite Hsec, Hm, Hg1, Hg2, !py_int_str_of_Z by assumption. reflexivity.
Qed.

Lemma parse_line_midradius st x :
  (0 <= x)%R ->
  ps_section st = Some Midradius ->
  parse_line st (format_4f x)
  = Ok (ParseState (ps_vertices st) (ps_edges st) (Some (round4 x))
          (ps_section st)).
Proof.
  intros Hx Hsec. pose proof (format_4f_nonspace x) as Hns.
  destruct (match_midradius_line (format_4f x)) as (m & Hm & Hg);
    [apply format_4f_nonempty|apply format_4f_unsigned, Hx|].
  pose proof (py_float_format_4f x) as Hfloat.
  assert (Hd : exists d s, format_4f x = d :: s /\ isdigit d = true).
  { unfold format_4f. destruct (Rlt_dec x 0); [lra|]. cbn [app].
    pose proof (str_of_N_isdigit (Z.to_N (round_half_even (Rabs x * 10000)) / 10000)) as Hd.
    pose proof (str_of_N_nonempty (Z.to_N (round_half_even (Rabs x * 10000)) / 10000)) as Hne.
    destruct (str_of_N _) as [|d s]; [contradiction|].
    apply Forall_cons in Hd as [Hd _]. exists d. eexists. split; [reflexivity|exact Hd]. }
  destruct Hd as (d & s & Heq & Hd). rewrite Heq in *.
  data_line Hd Hns. rewrite Hsec, Hm, Hg, Hfloat. reflexivity.
Qed.

(** The block of vertex lines, whatever index each line carries. *)
Lemma parse_vertex_lines (f : nat -> point -> str) vs st :
  (forall i v, exists j, f i v = vertex_line j v) ->
  ps_section st = Some Vertices ->
  parse_lines (imap f vs) st
  = Ok (ParseState (ps_vertices st ++ map round4_point vs) (ps_edges st)
          (ps_midradius st) (ps_section st)).
Proof.
  revert f st. induction vs as [|v vs IH]; intros f st Hf Hsec.
  - simpl. rewrite app_nil_r. destruct st; reflexivity.
  - rewrite imap_cons. cbn [parse_lines]. destruct (Hf 0%nat v) as (j & ->).
    rewrite parse_line_vertex by exact Hsec. cbn [mbind result_bind].
    rewrite IH; [|intros i w; apply (Hf (S i) w)|exact Hsec].
    cbn [ps_vertices ps_edges ps_midradius ps_section map].
    now rewrite <- app_assoc.
Qed.


Lemma imap_Forall {A} (P : str -> Prop) (f : nat -> A -> str) l :
  (forall i x, x ∈ l -> P (f i x)) -> Forall P (imap f l).
Proof.
  intros H. apply Forall_forall. intros y Hy.
  apply elem_of_lookup_imap_1 in Hy as (i & x & -> & Hx).
  apply H. eapply list_elem_of_lookup_2, Hx.
Qed.

(** The lines that the encoder joins. *)
Lemma convert_to_format_lines vertices edges midradius :
  convert_to_format vertices edges midradius
  = join [newline]
      (("VERTICES:" : str) :: imap vertex_line vertices
       ++ ([] : str) :: ("EDGES:" : str) :: imap edge_line edges
       ++ [([] : str); ("MIDRADIUS:" : str); format_4f_e midradius]).
Proof.
  unfold convert_to_format. f_equal. cbn [app]. f_equal.
  repeat first [rewrite <- app_assoc | progress cbn [app]]. reflexivity.
Qed.


End RoundTrip.


Section RoundTripExamples.

Import Text Re CalculateMidradius ConvertObjToFormat RoundTripSpec.

Lemma round_half_even_error y :
  (- (1 / 2) <= IZR (round_half_even y) - y <= 1 / 2)%R.
Proof.
  unfold round_half_even. pose proof (Zfloor_bound y) as [Hlo Hhi].
  repeat destruct (Rlt_dec _ _); try destruct (Z.even _);
    rewrite ?plus_IZR; simpl; lra.
Qed.

(** Rounding to 4 decimal digits moves a number by at most 0.00005. *)
Lemma round4_error x : (Rabs (round4 x - x) <= 1 / 20000)%R.
Proof.
  unfold round4. pose proof (round_half_even_error (Rabs x * 10000)) as Herr.
  set (z := IZR (round_half_even (Rabs x * 10000))) in *.
  destruct (Rlt_dec x 0) as [Hneg|Hpos]; apply Rabs_le.
  - rewrite Rabs_left in Herr by exact Hneg. lra.
  - rewrite Rabs_right in Herr by lra. lra.
Qed.

Lemma format_4f_of_decimal (n : N) x :
  x = (IZR (Z.of_N n) / 10000)%R ->
  format_4f x = str_of_N (n / 10000) ++ "." ++ pad4 (n mod 10000).
Proof. intros ->. apply format_4f_decimal. Qed.

(** The text of a small record. *)
Example convert_to_format_example :
  convert_to_format [(0.5, 0.25, 0); (12.5, 0, 1)]%R [(0, 1)%Z] (Num 0.7071)
  = "VERTICES:" ++ newline :: "0:0.5000,0.2500,0.0000" ++ newline
      :: "1:12.5000,0.0000,1.0000" ++ newline :: newline
      :: "EDGES:" ++ newline :: "0:0,1" ++ newline :: newline
      :: "MIDRADIUS:" ++ newline :: "0.7071".
Proof.
  unfold convert_to_format.
  cbn [imap compose format_4f_e]. unfold vertex_line, coord.
  rewrite (format_4f_of_decimal 5000 0.5), (format_4f_of_decimal 2500 0.25),
    (format_4f_of_decimal 0 0), (format_4f_of_decimal 125000 12.5),
    (format_4f_of_decimal 10000 1), (format_4f_of_decimal 7071 0.7071)
    by (simpl; lra).
  vm_compute. reflexivity.
Qed.


End RoundTripExamples.


(** * Further properties of the segment evaluator *)

Section SegmentGeometry.

Import CalculateMidradius SegmentSpec.
Open Scope R_scope.







Lemma cps_nonneg p1 p2 o : 0 <= (closest_point_on_segment p1 p2 o).2.
Proof.
  destruct (Rlt_le_dec (dot (sub p2 p1) (sub p2 p1)) 1e-10) as [Hlt|Hge].
  - rewrite cps_degenerate by exact Hlt. apply sqrt_pos.
  - rewrite cps_regular by exact Hge. apply sqrt_pos.
Qed.











End SegmentGeometry.

(** * Further properties of the midradius loops *)

Section MidradiusLoops.

Import SegmentSpec MidradiusSpec MeshSpec.
Open Scope R_scope.


Lemma getitem_raises {A} (l : list A) (i : Z) x :
  getitem l i = Raise x -> x = IndexError.
Proof.
  unfold getitem. destruct (_ && _); [destruct (l !! _)|]; congruence.
Qed.

Lemma getitem_position (vertices : list point) (i : Z) :
  subscript vertices i ->
  getitem vertices (position vertices i) = getitem vertices i
  /\ valid_index vertices (position vertices i).
Proof.
  intros Hi. unfold subscript, position, valid_index in *.
  destruct (Z.ltb_spec i 0) as [Hneg|Hpos]; [|split; [reflexivity|lia]].
  split; [|lia]. unfold getitem.
  destruct (Z.ltb_spec (i + Z.of_nat (length vertices)) 0) as [|_]; [lia|].
  destruct (Z.ltb_spec i 0) as [_|]; [|lia]. reflexivity.
Qed.


Lemma edge_distance_raises vertices e x :
  edge_distance vertices e = Raise x -> x = IndexError.
Proof.
  unfold edge_distance. intros H.
  destruct (getitem vertices e.1) as [p1|x1] eqn:H1.
  - destruct (getitem vertices e.2) as [p2|x2] eqn:H2; [discriminate|].
    simpl in H. injection H as <-. eapply getitem_raises, H2.
  - simpl in H. injection H as <-. eapply getitem_raises, H1.
Qed.

(** An iteration of either loop in terms of the distance of the edge. *)
Lemma convert_step_distance vertices m e :
  ConvertObjToFormat.step vertices m e
  = (d ← edge_distance vertices e; Ok (running_min d m)).
Proof.
  rewrite convert_step_eq. unfold edge_distance, running_min.
  destruct (getitem vertices e.1) as [p1|]; [|reflexivity].
  destruct (getitem vertices e.2) as [p2|]; [|reflexivity].
  cbn [mbind result_bind]. destruct (lt_efloat _ m); reflexivity.
Qed.

Lemma step_distance vertices st e :
  (st' ← CalculateMidradius.step vertices st e;
   Ok (CalculateMidradius.min_distance st'))
  = (d ← edge_distance vertices e;
     Ok (running_min d (CalculateMidradius.min_distance st))).
Proof.
  unfold CalculateMidradius.step, edge_distance, running_min. destruct e as [i j].
  cbn [fst snd].
  destruct (getitem vertices i) as [p1|]; [|reflexivity].
  destruct (getitem vertices j) as [p2|]; [|reflexivity].
  cbn [mbind result_bind].
  destruct (CalculateMidradius.closest_point_on_segment p1 p2 _) as [c d].
  cbn [snd]. destruct (lt_efloat d _); reflexivity.
Qed.

(** The loop of [convert_obj_to_format.py] computes the distance component
    of the loop of [calculate_midradius.py], from any starting state. *)
Lemma loops_agree vertices edges st :
  ConvertObjToFormat.loop vertices edges (CalculateMidradius.min_distance st)
  = (st' ← CalculateMidradius.loop vertices edges st;
     Ok (CalculateMidradius.min_distance st')).
Proof.
  revert st. induction edges as [|e edges IH]; intros st; [reflexivity|].
  rewrite convert_loop_cons. cbn [CalculateMidradius.loop].
  pose proof (step_distance vertices st e) as Hstep.
  rewrite convert_step_distance.
  destruct (CalculateMidradius.step vertices st e) as [st1|x];
    destruct (edge_distance vertices e) as [d|y];
    cbn [mbind result_bind] in *; try discriminate; [|symmetry; exact Hstep].
  injection Hstep as Hstep. rewrite <- Hstep. apply IH.
Qed.

(** X4. The two implementations of [calculate_midradius] agree: the one of
    [convert_obj_to_format.py] returns the distance that the one of
    [calculate_midradius.py] returns first, and raises what it raises. *)
Theorem calculate_midradius_agree (vertices : list point) (edges : list edge) :
  ConvertObjToFormat.calculate_midradius vertices edges
  = (r ← CalculateMidradius.calculate_midradius vertices edges; Ok r.1.1).
Proof.
  unfold ConvertObjToFormat.calculate_midradius,
    CalculateMidradius.calculate_midradius.
  change PosInf
    with (CalculateMidradius.min_distance (CalculateMidradius.Best PosInf None None))
    at 1.
  rewrite loops_agree.
  destruct (CalculateMidradius.loop _ _ _); reflexivity.
Qed.


Lemma convert_loop_raises vertices edges m x :
  ConvertObjToFormat.loop vertices edges m = Raise x -> x = IndexError.
Proof.
  revert m. induction edges as [|e edges IH]; intros m; [discriminate|].
  rewrite convert_loop_cons, convert_step_distance.
  destruct (edge_distance vertices e) as [d|y] eqn:Hd; cbn [mbind result_bind].
  - apply IH.
  - intros H. injection H as <-. eapply edge_distance_raises, Hd.
Qed.



Lemma edge_distance_positions vertices e :
  subscript_edge vertices e ->
  edge_distance vertices (positions vertices e) = edge_distance vertices e
  /\ valid_edge vertices (positions vertices e).
Proof.
  intros [H1 H2].
  destruct (getitem_position vertices _ H1) as [Hg1 Hv1].
  destruct (getitem_position vertices _ H2) as [Hg2 Hv2].
  split; [|split; assumption].
  unfold edge_distance, positions. cbn [fst snd]. now rewrite Hg1, Hg2.
Qed.

(** X6. A negative index counts from the end of the vertex list: when all
    indices are accepted, replacing each by the position it denotes gives
    edges with valid positions and the same midradius. *)
Theorem negative_indices_wrap (vertices : list point) (edges : list edge) :
  Forall (subscript_edge vertices) edges ->
  Forall (valid_edge vertices) (map (positions vertices) edges)
  /\ ConvertObjToFormat.calculate_midradius vertices (map (positions vertices) edges)
     = ConvertObjToFormat.calculate_midradius vertices edges.
Proof.
  intros Hall. split.
  - apply Forall_map. eapply Forall_impl; [exact Hall|].
    intros e He. now apply edge_distance_positions.
  - unfold ConvertObjToFormat.calculate_midradius. generalize PosInf.
    induction Hall as [|e edges He _ IH]; intros m; [reflexivity|].
    cbn [map]. rewrite !convert_loop_cons, !convert_step_distance.
    destruct (edge_distance_positions _ _ He) as [-> _].
    destruct (edge_distance vertices e); cbn [mbind result_bind]; [apply IH|reflexivity].
Qed.

Lemma negative_indices_wrap_witness :
  let vertices : list point := [(1, 0, 0); (0, 1, 0); (0, 0, 1)] in
  let edges : list edge := [(0, -1)%Z; (-3, 1)%Z] in
  Forall (valid_edge vertices) (map (positions vertices) edges)
  /\ ConvertObjToFormat.calculate_midradius vertices (map (positions vertices) edges)
     = ConvertObjToFormat.calculate_midradius vertices edges.
Proof.
  intros vertices edges. apply (negative_indices_wrap vertices edges).
  repeat constructor; simpl; lia.
Defined.



(** The loop of [calculate_midradius.py] on a non-empty list of valid
    edges: the segment of some edge of the list, whose distance no edge of
    the list undercuts. *)
Lemma loop_minimum vertices edges :
  edges <> [] ->
  Forall (valid_edge vertices) edges ->
  exists e p d,
    CalculateMidradius.loop vertices edges (CalculateMidradius.Best PosInf None None)
    = Ok (CalculateMidradius.Best (Num d) (Some e) (Some p))
    /\ e ∈ edges
    /\ segment_of vertices e = Some (p, d)
    /\ forall e' p' d', e' ∈ edges -> segment_of vertices e' = Some (p', d') -> d <= d'.
Proof.
  intros Hne Hvalid.
  destruct (loop_spec vertices edges Hvalid (CalculateMidradius.Best PosInf None None))
    as (st' & -> & [[-> Hall] | (k & e & p & d & -> & Hk & Hseg & _ & Hmin)]).
  - destruct edges as [|e0 edges]; [contradiction|].
    apply Forall_cons in Hvalid as [Hv0 _].
    destruct (segment_of_valid _ _ Hv0) as (p0 & d0 & Hseg0).
    specialize (Hall 0%nat e0 p0 d0 eq_refl Hseg0). discriminate.
  - exists e, p, d. split; [reflexivity|].
    split; [eapply list_elem_of_lookup_2, Hk|]. split; [exact Hseg|].
    intros e' p' d' He' Hseg'. apply list_elem_of_lookup in He' as [j Hj].
    apply (Hmin _ _ _ _ Hj Hseg').
Qed.







End MidradiusLoops.

(** * Further properties of the normaliser *)

Section NormalizerInvariance.

Import ConvertObjToFormat SegmentSpec NormalizeSpec MidradiusSpec.
Open Scope R_scope.

















End NormalizerInvariance.

(** * Further properties of the edge extractor *)

Section EdgeExtractorInvariance.

Import ConvertObjToFormat EdgeSpec MidradiusSpec.


(** The edge list is determined by the set of canonical pairs. *)
Lemma faces_to_edges_ext (faces faces' : list (list Z)) :
  (forall e, (exists face, face ∈ faces /\ edge_of_face face e)
             <-> (exists face, face ∈ faces' /\ edge_of_face face e)) ->
  faces_to_edges faces = faces_to_edges faces'.
Proof.
  intros Hext. unfold faces_to_edges. cbv zeta. do 2 f_equal.
  apply set_eq. intros e. rewrite !elem_of_faces_fold.
  split; (intros [H|H]; [set_solver|right; apply Hext, H]).
Qed.

(** X12. The edge list depends only on which faces there are, not on their
    order or on how often a face is listed. *)
Theorem faces_to_edges_set_of_faces (faces faces' : list (list Z)) :
  (forall face, face ∈ faces <-> face ∈ faces') ->
  faces_to_edges faces = faces_to_edges faces'.
Proof.
  intros Hsame. apply faces_to_edges_ext. intros e.
  split; intros (face & Hf & He); exists face; (split; [apply Hsame, Hf|exact He]).
Qed.

Lemma faces_to_edges_set_of_faces_witness :
  faces_to_edges [[0; 1; 2]; [2; 1; 3]; [0; 1; 2]]%Z
  = faces_to_edges [[2; 1; 3]; [0; 1; 2]]%Z.
Proof.
  apply (faces_to_edges_set_of_faces
           [[0; 1; 2]; [2; 1; 3]; [0; 1; 2]]%Z [[2; 1; 3]; [0; 1; 2]]%Z).
  intros face. rewrite !elem_of_cons. tauto.
Defined.

Lemma edge_of_face_reverse (face : list Z) (e : edge) :
  edge_of_face (reverse face) e -> edge_of_face face e.
Proof.
  intros (i & v1 & v2 & H1 & H2 & ->). rewrite length_reverse in H2.
  assert (Hi : (i < length face)%nat)
    by (apply lookup_lt_Some in H1; now rewrite length_reverse in H1).
  assert (Hj : ((i + 1) mod length face < length face)%nat)
    by (apply Nat.mod_upper_bound; lia).
  rewrite reverse_lookup in H1 by exact Hi.
  rewrite reverse_lookup in H2 by exact Hj.
  exists (length face - S ((i + 1) mod length face))%nat, v2, v1.
  split; [exact H2|]. split; [|f_equal; lia].
  rewrite <- H1. f_equal.
  destruct (decide (i + 1 = length face)%nat) as [Heq|Hne].
  - rewrite Heq, Nat.Div0.mod_same.
    replace (length face - 1 + 1)%nat with (length face) by lia.
    rewrite Nat.Div0.mod_same. lia.
  - rewrite (Nat.mod_small (i + 1)) by lia.
    rewrite Nat.mod_small by lia. lia.
Qed.

(** X13. The edge list does not depend on the orientation of the faces:
    listing the indices of every face in the opposite direction gives the
    same edges. *)
Theorem faces_to_edges_orientation (faces : list (list Z)) :
  faces_to_edges (map reverse faces) = faces_to_edges faces.
Proof.
  apply faces_to_edges_ext. intros e. split.
  - intros (face & Hf & He). apply list_elem_of_In, in_map_iff in Hf as (f & <- & Hf).
    exists f. split; [apply list_elem_of_In, Hf|apply edge_of_face_reverse, He].
  - intros (face & Hf & He). exists (reverse face). split.
    + apply list_elem_of_In, in_map, list_elem_of_In, Hf.
    + apply edge_of_face_reverse. now rewrite reverse_involutive.
Qed.

Lemma rotate_nat_add_succ (k i n : nat) :
  (0 < n)%nat ->
  rotate_nat_add k ((i + 1) mod n) n = ((rotate_nat_add k i n + 1) mod n)%nat.
Proof.
  intros Hn. unfold rotate_nat_add. apply Nat2Z.inj.
  rewrite Nat2Z.inj_mod, Nat2Z.inj_add, Nat2Z.inj_mod, Nat2Z.inj_add.
  rewrite !Z2Nat.id by (apply Z.mod_pos_bound; lia).
  rewrite Zplus_mod_idemp_r, Zplus_mod_idemp_l. f_equal. lia.
Qed.

Lemma edge_of_face_rotate (face : list Z) (k : nat) (e : edge) :
  edge_of_face (rotate k face) e <-> edge_of_face face e.
Proof.
  split.
  - intros (i & v1 & v2 & H1 & H2 & ->). rewrite length_rotate in H2.
    assert (Hi : (i < length face)%nat)
      by (apply lookup_lt_Some in H1; now rewrite length_rotate in H1).
    assert (Hj : ((i + 1) mod length face < length face)%nat)
      by (apply Nat.mod_upper_bound; lia).
    rewrite lookup_rotate_r in H1 by exact Hi.
    rewrite lookup_rotate_r in H2 by exact Hj.
    rewrite rotate_nat_add_succ in H2 by lia.
    exists (rotate_nat_add k i (length face)), v1, v2. auto.
  - intros (j & v1 & v2 & H1 & H2 & ->).
    assert (Hj : (j < length face)%nat) by (eapply lookup_lt_Some, H1).
    pose proof (rotate_nat_sub_lt k j (length face) ltac:(lia)) as Hi.
    exists (rotate_nat_sub k j (length face)), v1, v2.
    rewrite length_rotate. split; [|split; [|reflexivity]].
    + now rewrite lookup_rotate_l.
    + rewrite lookup_rotate_r by (apply Nat.mod_upper_bound; lia).
      rewrite rotate_nat_add_succ by lia.
      now rewrite rotate_nat_add_sub by exact Hj.
Qed.

(** X14. The edge list does not depend on the vertex at which the cycle of
    a face starts: rotating the indices of every face gives the same
    edges. *)
Theorem faces_to_edges_rotation (faces : list (list Z)) (k : nat) :
  faces_to_edges (map (rotate k) faces) = faces_to_edges faces.
Proof.
  apply faces_to_edges_ext. intros e. split.
  - intros (face & Hf & He). apply list_elem_of_In, in_map_iff in Hf as (f & <- & Hf).
    exists f. split; [apply list_elem_of_In, Hf|eapply edge_of_face_rotate, He].
  - intros (face & Hf & He). exists (rotate k face). split.
    + apply list_elem_of_In, in_map, list_elem_of_In, Hf.
    + apply edge_of_face_rotate, He.
Qed.





End EdgeExtractorInvariance.

(** * Further properties of the record codec *)

Section PatternInversion.

Import Text Re CalculateMidradius.

Ltac flatten_app :=
  repeat first [rewrite <- app_assoc | progress cbn [app]]; reflexivity.

Lemma exec_Plus_inv cs p marks pos s r :
  exec (Plus cs :: p) marks pos s = Some r ->
  exists a b, s = a ++ b /\ a <> []
    /\ Forall (fun c => in_class cs c = true) a
    /\ exec p marks (pos + length a) b = Some r.
Proof.
  destruct s as [|c s]; [discriminate|]. cbn [exec].
  destruct (in_class cs c) eqn:Hc; [|discriminate]. intros H.
  apply star_sound in H as (a & b & -> & Ha & Hk).
  exists (c :: a), b. split; [reflexivity|]. split; [discriminate|].
  split; [constructor; assumption|]. rewrite <- Hk. f_equal. simpl. lia.
Qed.

Lemma exec_One_inv cs p marks pos s r :
  exec (One cs :: p) marks pos s = Some r ->
  exists c s', s = c :: s' /\ in_class cs c = true
    /\ exec p marks (S pos) s' = Some r.
Proof.
  destruct s as [|c s]; [discriminate|]. cbn [exec].
  destruct (in_class cs c) eqn:Hc; [|discriminate]. eauto.
Qed.

Lemma exec_Bol_inv p marks pos s r :
  exec (Bol :: p) marks pos s = Some r -> pos = 0%nat /\ exec p marks 0 s = Some r.
Proof.
  cbn [exec]. destruct (Nat.eqb_spec pos 0) as [->|]; [auto|discriminate].
Qed.

Lemma exec_Eol_inv p marks pos s r :
  exec (Eol :: p) marks pos s = Some r ->
  (s = [] \/ s = [newline]) /\ exec p marks pos s = Some r.
Proof.
  cbn [exec]. destruct s as [|c [|d s]]; [auto| |discriminate].
  destruct (Ascii.eqb_spec c newline) as [->|]; [auto|discriminate].
Qed.

Lemma in_class_digit c : in_class [Digit] c = isdigit c.
Proof. unfold in_class. simpl. apply orb_false_r. Qed.

Lemma in_class_char a c : in_class [Char a] c = true -> c = a.
Proof.
  unfold in_class. simpl. rewrite orb_false_r. apply Ascii.eqb_eq.
Qed.

(** A parenthesised field [(X+)], read backwards. *)
Lemma exec_field_inv cs p marks pos s r :
  exec (Open :: Plus cs :: Close :: p) marks pos s = Some r ->
  exists f b, s = f ++ b /\ f <> []
    /\ Forall (fun c => in_class cs c = true) f
    /\ exec p (marks ++ [pos; (pos + length f)%nat]) (pos + length f) b = Some r.
Proof.
  rewrite exec_Open. intros H.
  apply exec_Plus_inv in H as (f & b & -> & Hne & Hf & H).
  rewrite exec_Close, <- app_assoc in H. eauto 6.
Qed.

(** What a line that matches the edge pattern looks like: the two groups
    are non-empty runs of digits. *)
Lemma match_edge_line_inv s m :
  re_match edge_pattern s = Some m ->
  exists idx f1 f2 tail,
    s = idx ++ ":"%char :: f1 ++ ","%char :: f2 ++ tail
    /\ idx <> [] /\ Forall (fun c => isdigit c = true) idx
    /\ f1 <> [] /\ Forall (fun c => isdigit c = true) f1
    /\ f2 <> [] /\ Forall (fun c => isdigit c = true) f2
    /\ group m 1 = f1 /\ group m 2 = f2.
Proof.
  unfold re_match. destruct (exec edge_pattern [] 0 s) as [[e marks]|] eqn:Hex;
    [|discriminate].
  intros H. injection H as <-. unfold edge_pattern in Hex.
  apply exec_Bol_inv in Hex as [_ Hex].
  apply exec_Plus_inv in Hex as (idx & s1 & -> & Hidx & Hdi & Hex).
  apply exec_One_inv in Hex as (c1 & s2 & -> & Hc1 & Hex).
  apply in_class_char in Hc1 as ->.
  apply exec_field_inv in Hex as (f1 & s3 & -> & Hf1 & Hd1 & Hex).
  apply exec_One_inv in Hex as (c2 & s4 & -> & Hc2 & Hex).
  apply in_class_char in Hc2 as ->.
  apply exec_field_inv in Hex as (f2 & tail & -> & Hf2 & Hd2 & Hex).
  apply exec_Eol_inv in Hex as [_ Hex]. cbn [exec app] in Hex.
  injection Hex as <- <-.
  assert (Hdig : forall l, Forall (fun c => in_class [Digit] c = true) l ->
                           Forall (fun c => isdigit c = true) l).
  { intros l Hl. eapply Forall_impl; [exact Hl|]. intros c Hc.
    now rewrite <- in_class_digit. }
  exists idx, f1, f2, tail. repeat split; auto.
  - unfold group. cbn [m_string m_marks Nat.mul Nat.add Nat.sub nth].
    apply (slice_at _ (idx ++ [":"%char]) f1 (","%char :: f2 ++ tail)).
    + flatten_app.
    + rewrite length_app. simpl. lia.
  - unfold group. cbn [m_string m_marks Nat.mul Nat.add Nat.sub nth].
    apply (slice_at _ (idx ++ ":"%char :: f1 ++ [","%char]) f2 tail).
    + flatten_app.
    + rewrite length_app. simpl. rewrite length_app. simpl. lia.
Qed.

(** What a line that matches the midradius pattern looks like. *)
Lemma match_midradius_line_inv s m :
  re_match midradius_pattern s = Some m ->
  group m 1 <> []
  /\ Forall (fun c => UpdateSpec.is_number_char c = true) (group m 1).
Proof.
  unfold re_match. destruct (exec midradius_pattern [] 0 s) as [[e marks]|] eqn:Hex;
    [|discriminate].
  intros H. injection H as <-. unfold midradius_pattern in Hex.
  apply exec_Bol_inv in Hex as [_ Hex].
  apply exec_field_inv in Hex as (f & tail & -> & Hf & Hd & Hex).
  apply exec_Eol_inv in Hex as [_ Hex]. cbn [exec app] in Hex.
  injection Hex as <- <-.
  assert (Hg : group (Match (f ++ tail) (length f) [0; length f]%nat) 1 = f).
  { unfold group. cbn [m_string m_marks Nat.mul Nat.add Nat.sub nth].
    apply (slice_at _ [] f tail 0); reflexivity. }
  rewrite Hg. split; [exact Hf|].
  eapply Forall_impl; [exact Hd|]. intros c Hc. now rewrite <- in_class_unsigned.
Qed.

End PatternInversion.

Section DecoderOutput.

Import Text Re CalculateMidradius RoundTripSpec CodecSpec UpdateSpec.

Lemma py_int_digits f :
  f <> [] -> Forall (fun c => isdigit c = true) f ->
  py_int f = Ok (Z.of_N (digits_val f)).
Proof.
  intros Hne Hf. destruct f as [|d f]; [contradiction|].
  unfold py_int. rewrite split_sign_digit by (apply Forall_cons in Hf; tauto).
  now rewrite (forallb_of_Forall _ _ Hf).
Qed.

Lemma py_int_raises s x : py_int s = Raise x -> x = ValueError.
Proof.
  unfold py_int. destruct (split_sign s) as [negative [|c body]]; [congruence|].
  destruct (forallb isdigit (c :: body)); congruence.
Qed.

Lemma py_float_raises s x : py_float s = Raise x -> x = ValueError.
Proof.
  unfold py_float. destruct (split_sign s) as [negative body].
  destruct (span isdigit body) as [ip [|c fp]].
  - destruct ip; congruence.
  - destruct (_ && _); congruence.
Qed.

Lemma split_sign_number_char c s :
  is_number_char c = true -> split_sign (c :: s) = (false, c :: s).
Proof.
  intros Hc. unfold split_sign.
  destruct (Ascii.eqb_spec c "-") as [->|_]; [discriminate|].
  destruct (Ascii.eqb_spec c "+") as [->|_]; [discriminate|]. reflexivity.
Qed.

(** [float] of digits and dots is never negative. *)
Lemma py_float_unsigned f v :
  Forall (fun c => is_number_char c = true) f ->
  py_float f = Ok v -> (0 <= v)%R.
Proof.
  intros Hf. unfold py_float.
  assert (Hsign : split_sign f = (false, f)).
  { destruct Hf as [|c f Hc _]; [reflexivity|]. now apply split_sign_number_char. }
  rewrite Hsign. destruct (span isdigit f) as [ip rest].
  assert (Hval : forall fp : str,
             (0 <= IZR (Z.of_N (digits_val (ip ++ fp))) / 10 ^ length fp)%R).
  { intros fp. apply Rmult_le_pos; [apply IZR_le; lia|].
    apply Rlt_le, Rinv_0_lt_compat, pow_lt. lra. }
  destruct rest as [|c fp].
  - destruct ip; [discriminate|]. intros H. injection H as <-. apply Hval.
  - destruct (_ && _); [|discriminate]. intros H. injection H as <-. apply Hval.
Qed.

Lemma unsigned_state_enter st sec : unsigned_state st -> unsigned_state (enter st sec).
Proof. intros H. exact H. Qed.

(** A line leaves the collected indices and midradius unsigned, and can
    only fail in [float]. *)
Lemma parse_line_unsigned st line :
  unsigned_state st ->
  match parse_line st line with
  | Ok st' => unsigned_state st'
  | Raise x => x = ValueError
  end.
Proof.
  intros Hst. unfold parse_line.
  destruct (startswith (strip line) "VERTICES:"); [exact Hst|].
  destruct (startswith (strip line) "EDGES:"); [exact Hst|].
  destruct (startswith (strip line) "MIDRADIUS:"); [exact Hst|].
  destruct (strip line) as [|c l]; [exact Hst|].
  destruct (ps_section st) as [[| |]|]; [| | |exact Hst].
  - destruct (re_match vertex_pattern (c :: l)) as [m|]; [|exact Hst].
    destruct (py_float (group m 1)) as [x|e1] eqn:H1;
      [|now apply py_float_raises in H1].
    destruct (py_float (group m 2)) as [y|e2] eqn:H2;
      [|now apply py_float_raises in H2].
    destruct (py_float (group m 3)) as [z|e3] eqn:H3;
      [|now apply py_float_raises in H3].
    exact Hst.
  - destruct (re_match edge_pattern (c :: l)) as [m|] eqn:Hm; [|exact Hst].
    apply match_edge_line_inv in Hm
      as (idx & f1 & f2 & tail & _ & _ & _ & Hn1 & Hd1 & Hn2 & Hd2 & -> & ->).
    rewrite !py_int_digits by assumption. cbn [mbind result_bind].
    destruct Hst as [Hedges Hmid]. split; [|exact Hmid].
    cbn [ps_edges]. apply Forall_app_2; [exact Hedges|].
    repeat constructor; simpl; lia.
  - destruct (re_match midradius_pattern (c :: l)) as [m|] eqn:Hm; [|exact Hst].
    apply match_midradius_line_inv in Hm as [_ Hd].
    destruct (py_float (group m 1)) as [v|e1] eqn:H1;
      [|now apply py_float_raises in H1].
    cbn [mbind result_bind]. destruct Hst as [Hedges _]. split; [exact Hedges|].
    cbn [ps_midradius]. intros x Hx. injection Hx as <-.
    eapply py_float_unsigned; eassumption.
Qed.

Lemma parse_lines_unsigned lines st :
  unsigned_state st ->
  match parse_lines lines st with
  | Ok st' => unsigned_state st'
  | Raise x => x = ValueError
  end.
Proof.
  revert st. induction lines as [|line lines IH]; intros st Hst; [exact Hst|].
  cbn [parse_lines]. pose proof (parse_line_unsigned st line Hst) as Hline.
  destruct (parse_line st line) as [st'|x]; [|exact Hline].
  cbn [mbind result_bind]. apply IH, Hline.
Qed.

Lemma parse_output (fs : gmap string str) (filepath : string) :
  match parse_polyhedron_file fs filepath with
  | Ok (vertices, edges, midradius) =>
      Forall nonneg_edge edges /\ forall x, midradius = Some x -> (0 <= x)%R
  | Raise x =>
      (x = FileNotFoundError /\ fs !! filepath = None)
      \/ (x = ValueError /\ fs !! filepath <> None)
  end.
Proof.
  unfold parse_polyhedron_file, read.
  destruct (fs !! filepath) as [content|]; [|left; auto].
  cbn [mbind result_bind].
  assert (Hinit : unsigned_state (ParseState [] [] None None))
    by (split; [constructor|discriminate]).
  pose proof (parse_lines_unsigned (split newline content) _ Hinit) as H.
  destruct (parse_lines _ _) as [st|x]; cbn [mbind result_bind].
  - exact H.
  - right. split; [exact H|discriminate].
Qed.


End DecoderOutput.

Section LossyRoundTrip.

Import Text Re CalculateMidradius ConvertObjToFormat RoundTripSpec CodecSpec UpdateSpec.

(** A run of characters of one kind ends at the first character of
    another kind. *)
Lemma run_unique (ok : ascii -> bool) a a' c c' r r' :
  Forall (fun x => ok x = true) a -> Forall (fun x => ok x = true) a' ->
  ok c = false -> ok c' = false ->
  a ++ c :: r = a' ++ c' :: r' -> a = a' /\ c = c' /\ r = r'.
Proof.
  intros Ha. revert a'. induction Ha as [|x a Hx _ IH]; intros a' Ha' Hc Hc' Heq.
  - destruct Ha' as [|x' a' Hx' _]; simpl in Heq.
    + injection Heq as -> ->. auto.
    + injection Heq as -> _. congruence.
  - destruct Ha' as [|x' a' Hx' Ha']; simpl in Heq.
    + injection Heq as -> _. congruence.
    + injection Heq as -> Heq. destruct (IH a' Ha' Hc Hc' Heq) as (-> & -> & ->). auto.
Qed.

Lemma str_of_Z_negative v :
  (v < 0)%Z -> str_of_Z v = "-"%char :: str_of_N (Z.abs_N v).
Proof. intros Hv. unfold str_of_Z. destruct (Z.ltb_spec v 0); [reflexivity|lia]. Qed.

Lemma str_of_Z_nonspace v : Forall nonspace (str_of_Z v).
Proof.
  unfold str_of_Z. destruct (v <? 0)%Z.
  - apply Forall_cons_2; [reflexivity|]. apply digits_nonspace, str_of_N_isdigit.
  - apply digits_nonspace, str_of_N_isdigit.
Qed.

Lemma edge_line_nonspace_all i e : Forall nonspace (edge_line i e).
Proof.
  destruct e as [v1 v2]. rewrite edge_line_eq.
  apply Forall_app_2; [apply digits_nonspace, str_of_N_isdigit|].
  apply Forall_cons_2; [reflexivity|].
  apply Forall_app_2; [apply str_of_Z_nonspace|].
  apply Forall_cons_2; [reflexivity|]. apply str_of_Z_nonspace.
Qed.

Lemma nonneg_edgeb_spec e : nonneg_edgeb e = true <-> nonneg_edge e.
Proof.
  unfold nonneg_edgeb, nonneg_edge.
  rewrite andb_true_iff, !Z.leb_le. reflexivity.
Qed.

(** The line of an edge with a negative index does not match the edge
    pattern. *)
Lemma match_edge_line_negative i e :
  nonneg_edgeb e = false -> re_match edge_pattern (edge_line i e) = None.
Proof.
  intros Hneg. destruct (re_match _ _) as [m|] eqn:Hm; [exfalso|reflexivity].
  apply match_edge_line_inv in Hm
    as (idx & f1 & f2 & tail & Heq & _ & Hidx & Hn1 & Hd1 & Hn2 & Hd2 & _).
  destruct e as [v1 v2]. rewrite edge_line_eq in Heq.
  apply run_unique with (ok := isdigit) in Heq as (_ & _ & Heq);
    [|apply str_of_N_isdigit|exact Hidx|reflexivity|reflexivity].
  unfold nonneg_edgeb in Hneg. cbn [fst snd] in Hneg.
  destruct (Z.leb_spec 0 v1) as [H1|H1].
  - rewrite (str_of_Z_nonneg v1 H1) in Heq.
    apply run_unique with (ok := isdigit) in Heq as (_ & _ & Heq);
      [|apply str_of_N_isdigit|exact Hd1|reflexivity|reflexivity].
    destruct (Z.leb_spec 0 v2) as [H2|H2]; [discriminate|].
    rewrite (str_of_Z_negative v2 H2) in Heq.
    destruct Hd2 as [|d f2 Hd _]; [contradiction|].
    simpl in Heq. injection Heq as <- _. discriminate.
  - rewrite (str_of_Z_negative v1 H1) in Heq.
    destruct Hd1 as [|d f1 Hd _]; [contradiction|].
    simpl in Heq. injection Heq as <- _. discriminate.
Qed.

Lemma parse_line_edge_negative st i e :
  nonneg_edgeb e = false ->
  ps_section st = Some Edges ->
  parse_line st (edge_line i e) = Ok st.
Proof.
  intros Hneg Hsec. pose proof (edge_line_nonspace_all i e) as Hns.
  pose proof (match_edge_line_negative i e Hneg) as Hm.
  pose proof (str_of_N_isdigit (N.of_nat i)) as Hidx.
  pose proof (str_of_N_nonempty (N.of_nat i)) as Hne.
  destruct e as [v1 v2]. rewrite edge_line_eq in *.
  destruct (str_of_N (N.of_nat i)) as [|d idx] eqn:Hi; [contradiction|].
  apply Forall_cons in Hidx as [Hd _].
  cbn [app] in *. unfold parse_line. rewrite (strip_nonspace _ Hns).
  destruct (startswith_digit d (idx ++ ":"%char :: str_of_Z v1 ++ ","%char :: str_of_Z v2) Hd)
    as (-> & -> & ->).
  now rewrite Hsec, Hm.
Qed.

(** The block of edge lines: the edges with a negative index are dropped. *)
Lemma parse_edge_lines_all (f : nat -> edge -> str) es st :
  (forall i e, exists j, f i e = edge_line j e) ->
  ps_section st = Some Edges ->
  parse_lines (imap f es) st
  = Ok (ParseState (ps_vertices st) (ps_edges st ++ List.filter nonneg_edgeb es)
          (ps_midradius st) (ps_section st)).
Proof.
  revert f st. induction es as [|e es IH]; intros f st Hf Hsec.
  - simpl. rewrite app_nil_r. destruct st; reflexivity.
  - rewrite imap_cons. cbn [parse_lines List.filter]. destruct (Hf 0%nat e) as (j & ->).
    destruct (nonneg_edgeb e) eqn:He.
    + rewrite parse_line_edge by (exact Hsec || now apply nonneg_edgeb_spec).
      cbn [mbind result_bind].
      rewrite IH; [|intros i w; apply (Hf (S i) w)|exact Hsec].
      cbn [ps_vertices ps_edges ps_midradius ps_section].
      now rewrite <- app_assoc.
    + rewrite parse_line_edge_negative by assumption.
      cbn [mbind result_bind]. apply IH; [intros i w; apply (Hf (S i) w)|exact Hsec].
Qed.

(** The midradius line: [inf] and a negative number do not match the
    midradius pattern. *)
Lemma parse_line_midradius_all vs es m :
  parse_line (ParseState vs es None (Some Midradius)) (format_4f_e m)
  = Ok (ParseState vs es (decoded_midradius m) (Some Midradius)).
Proof.
  destruct m as [x|]; cbn [format_4f_e decoded_midradius].
  - destruct (Rlt_dec x 0) as [Hlt|Hge].
    + pose proof (format_4f_nonspace x) as Hns.
      unfold parse_line. rewrite (strip_nonspace _ Hns).
      unfold format_4f. destruct (Rlt_dec x 0) as [_|]; [|contradiction].
      cbn [app]. reflexivity.
    + rewrite parse_line_midradius; [reflexivity|lra|reflexivity].
  - reflexivity.
Qed.

(** Decoding what the encoder writes, for any record. *)
Lemma parse_convert_to_format vertices edges midradius :
  parse_lines (split newline (convert_to_format vertices edges midradius))
    (ParseState [] [] None None)
  = Ok (ParseState (map round4_point vertices) (List.filter nonneg_edgeb edges)
          (decoded_midradius midradius) (Some Midradius)).
Proof.
  rewrite convert_to_format_lines, split_join.
  - change (parse_lines (?l :: ?ls) ?st)
      with (parse_line st l ≫= parse_lines ls).
    change (parse_line (ParseState [] [] None None) "VERTICES:")
      with (Ok (ParseState [] [] None (Some Vertices))).
    cbn [mbind result_bind].
    rewrite parse_lines_app, parse_vertex_lines; [|eauto|reflexivity].
    cbn [mbind result_bind ps_vertices ps_edges ps_midradius ps_section app].
    set (vs := map round4_point vertices).
    change (parse_lines (?l :: ?l2 :: ?ls) ?st)
      with (parse_line st l ≫= fun st' => parse_line st' l2 ≫= parse_lines ls).
    change (parse_line (ParseState vs [] None (Some Vertices)) [])
      with (Ok (ParseState vs [] None (Some Vertices))).
    cbn [mbind result_bind].
    change (parse_line (ParseState vs [] None (Some Vertices)) "EDGES:")
      with (Ok (ParseState vs [] None (Some Edges))).
    cbn [mbind result_bind].
    rewrite parse_lines_app, parse_edge_lines_all; [|eauto|reflexivity].
    cbn [mbind result_bind ps_vertices ps_edges ps_midradius ps_section app].
    set (es := List.filter nonneg_edgeb edges).
    change (parse_lines [?l1; ?l2; ?l3] ?st)
      with (parse_line st l1 ≫= fun st1 =>
            parse_line st1 l2 ≫= fun st2 =>
            parse_line st2 l3 ≫= fun st3 => Ok st3).
    change (parse_line (ParseState vs es None (Some Edges)) [])
      with (Ok (ParseState vs es None (Some Edges))).
    cbn [mbind result_bind].
    change (parse_line (ParseState vs es None (Some Edges)) "MIDRADIUS:")
      with (Ok (ParseState vs es None (Some Midradius))).
    cbn [mbind result_bind].
    rewrite parse_line_midradius_all. reflexivity.
  - discriminate.
  - apply Forall_cons_2; [repeat constructor|].
    apply Forall_app_2.
    { apply imap_Forall. intros i v _. apply vertex_line_nonspace. }
    apply Forall_cons_2; [constructor|].
    apply Forall_cons_2; [repeat constructor|].
    apply Forall_app_2.
    { apply imap_Forall. intros i e _. apply edge_line_nonspace_all. }
    apply Forall_cons_2; [constructor|].
    apply Forall_cons_2; [repeat constructor|].
    apply Forall_cons_2; [|constructor].
    destruct midradius; [apply format_4f_nonspace|repeat constructor].
Qed.

Lemma parse_encoded_file fs filepath vertices edges midradius :
  fs !! filepath = Some (convert_to_format vertices edges midradius) ->
  parse_polyhedron_file fs filepath
  = Ok (map round4_point vertices, List.filter nonneg_edgeb edges,
        decoded_midradius midradius).
Proof.
  intros Hfile. unfold parse_polyhedron_file, read. rewrite Hfile.
  cbn [mbind result_bind]. now rewrite parse_convert_to_format.
Qed.



End LossyRoundTrip.

Section EncodedRecordUpdate.

Import Text Re CalculateMidradius ConvertObjToFormat RoundTripSpec CodecSpec UpdateSpec.

Lemma join_app sep (l1 l2 : list str) :
  l1 <> [] -> l2 <> [] ->
  join sep (l1 ++ l2) = join sep l1 ++ sep ++ join sep l2.
Proof.
  intros H1 H2. induction l1 as [|x l1 IH]; [contradiction|].
  destruct l1 as [|y l1].
  - destruct l2 as [|z l2]; [contradiction|]. reflexivity.
  - change (join sep ((x :: y :: l1) ++ l2))
      with (x ++ sep ++ join sep ((y :: l1) ++ l2)).
    rewrite IH by discriminate.
    change (join sep (x :: y :: l1)) with (x ++ sep ++ join sep (y :: l1)).
    now rewrite <- !app_assoc.
Qed.

Lemma join_Forall (P : ascii -> Prop) sep (lines : list str) :
  Forall P sep -> Forall (Forall P) lines -> Forall P (join sep lines).
Proof.
  intros Hsep. induction 1 as [|l lines Hl _ IH]; [constructor|].
  destruct lines as [|l2 lines]; [exact Hl|].
  change (join sep (l :: l2 :: lines)) with (l ++ sep ++ join sep (l2 :: lines)).
  apply Forall_app_2; [exact Hl|]. apply Forall_app_2; [exact Hsep|exact IH].
Qed.

Lemma digits_not_M s : Forall (fun c => isdigit c = true) s -> Forall not_M s.
Proof. intros H. eapply Forall_impl; [exact H|]. intros c Hc ->. discriminate. Qed.

Lemma format_4f_not_M x : Forall not_M (format_4f x).
Proof.
  eapply Forall_impl; [apply format_4f_signed|]. intros c Hc ->. discriminate.
Qed.

Lemma str_of_Z_not_M v : Forall not_M (str_of_Z v).
Proof.
  unfold str_of_Z. destruct (v <? 0)%Z.
  - apply Forall_cons_2; [discriminate|]. apply digits_not_M, str_of_N_isdigit.
  - apply digits_not_M, str_of_N_isdigit.
Qed.

Lemma vertex_line_not_M i v : Forall not_M (vertex_line i v).
Proof.
  rewrite vertex_line_eq.
  apply Forall_app_2; [apply digits_not_M, str_of_N_isdigit|].
  apply Forall_cons_2; [discriminate|].
  apply Forall_app_2; [apply format_4f_not_M|].
  apply Forall_cons_2; [discriminate|].
  apply Forall_app_2; [apply format_4f_not_M|].
  apply Forall_cons_2; [discriminate|]. apply format_4f_not_M.
Qed.

Lemma edge_line_not_M i e : Forall not_M (edge_line i e).
Proof.
  destruct e as [v1 v2]. rewrite edge_line_eq.
  apply Forall_app_2; [apply digits_not_M, str_of_N_isdigit|].
  apply Forall_cons_2; [discriminate|].
  apply Forall_app_2; [apply str_of_Z_not_M|].
  apply Forall_cons_2; [discriminate|]. apply str_of_Z_not_M.
Qed.

(** The text of a record: a part without the letter M, the header of the
    midradius section, a line break and the formatted midradius. *)
Lemma convert_to_format_split vertices edges :
  exists pre,
    Forall not_M pre
    /\ forall m, convert_to_format vertices edges m
                 = pre ++ header ++ newline :: format_4f_e m.
Proof.
  set (lines := ("VERTICES:" : str) :: imap vertex_line vertices
                ++ ([] : str) :: ("EDGES:" : str) :: imap edge_line edges
                ++ [([] : str)]).
  exists (join [newline] lines ++ [newline]). split.
  - apply Forall_app_2; [|repeat constructor; discriminate].
    apply join_Forall; [repeat constructor; discriminate|].
    unfold lines. apply Forall_cons_2; [repeat constructor; discriminate|].
    apply Forall_app_2.
    { apply imap_Forall. intros i v _. apply vertex_line_not_M. }
    apply Forall_cons_2; [constructor|].
    apply Forall_cons_2; [repeat constructor; discriminate|].
    apply Forall_app_2.
    { apply imap_Forall. intros i e _. apply edge_line_not_M. }
    repeat constructor.
  - intros m. rewrite convert_to_format_lines.
    replace (("VERTICES:" : str) :: imap vertex_line vertices
             ++ ([] : str) :: ("EDGES:" : str) :: imap edge_line edges
             ++ [([] : str); ("MIDRADIUS:" : str); format_4f_e m])
      with (lines ++ [("MIDRADIUS:" : str); format_4f_e m]).
    + rewrite join_app by discriminate.
      change (join [newline] [("MIDRADIUS:" : str); format_4f_e m])
        with (header ++ [newline] ++ format_4f_e m).
      now rewrite <- !app_assoc.
    + unfold lines. cbn [app]. f_equal. rewrite <- app_assoc. cbn [app].
      f_equal. f_equal. f_equal. now rewrite <- app_assoc.
Qed.

(** The pattern of the update finds the value after the first header, and
    nothing after it. *)
Lemma sub_scan_value repl pre num post :
  first_header pre ->
  num <> [] ->
  Forall (fun c => is_number_char c = true) num ->
  no_number_ahead post ->
  ~ mentions_value post ->
  sub_scan midradius_value_pattern repl 0 (pre ++ header ++ newline :: num ++ post) 0
  = pre ++ repl ++ post.
Proof.
  intros Hfirst Hne Hnum Hahead Hpost. rewrite sub_scan_copy.
  - f_equal. destruct (exec_value_at (0 + length pre) num post Hne Hnum Hahead)
      as (marks & Hex).
    rewrite (sub_scan_match _ _ _ _ (length header + 1 + length num) marks);
      [|split|exact Hex].
    + f_equal.
      replace (length header + 1 + length num)%nat
        with (length (header ++ newline :: num)) by (rewrite length_app; simpl; lia).
      replace (header ++ newline :: num ++ post)
        with ((header ++ newline :: num) ++ post) by (now rewrite <- app_assoc).
      rewrite drop_app_length. apply scan_without_value, Hpost.
    + lia.
    + rewrite length_app. simpl. rewrite length_app. lia.
  - intros i Hi. rewrite drop_app_le by lia.
    destruct (exec _ _ _ _) as [r|] eqn:Hex; [|reflexivity]. exfalso.
    apply exec_value_sound in Hex as (ws & c & rest & Heq & _).
    apply header_overlap in Heq as (b & Hb & Hlen).
    assert (Hnil : b = []).
    { apply (Hfirst (take i pre)).
      rewrite <- (take_drop i pre) at 1. rewrite <- app_assoc, Hb. reflexivity. }
    subst b. rewrite length_drop in Hlen. simpl in Hlen. lia.
Qed.

(** The letter M occurs once in a text where it stands between two parts
    without it. *)
Lemma unique_M pre u a v :
  Forall not_M pre -> Forall not_M u ->
  pre ++ "M"%char :: u = a ++ "M"%char :: v -> a = pre /\ v = u.
Proof.
  intros Hpre Hu. revert a. induction Hpre as [|c pre Hc _ IH]; intros a Heq.
  - destruct a as [|x a]; simpl in Heq.
    + injection Heq as ->. auto.
    + injection Heq as <- ->. exfalso.
      apply Forall_app in Hu as [_ Hu]. apply Forall_cons in Hu as [HM _].
      now apply HM.
  - destruct a as [|x a]; simpl in Heq.
    + injection Heq as -> _. exfalso. now apply Hc.
    + injection Heq as <- Heq. destruct (IH _ Heq) as [-> ->]. auto.
Qed.

(** A record whose midradius line starts with neither a digit nor a dot
    has nothing for the update to replace. *)
Lemma no_value_after_header pre tail :
  Forall not_M pre -> Forall not_M tail ->
  Forall (fun c => c <> newline) tail ->
  no_number_ahead tail ->
  ~ mentions_value (pre ++ header ++ newline :: tail).
Proof.
  intros Hpre Htail Hnl Hahead (a & s & Heq & ws & c & rest & -> & Hws & Hc).
  unfold header in Heq. cbn [list_ascii_of_string app] in Heq.
  apply unique_M in Heq as [_ Heq]; [|exact Hpre|].
  - injection Heq as Heq. destruct ws as [|w ws]; simpl in Heq.
    + injection Heq as <-. simpl in Hahead. congruence.
    + injection Heq as _ <-. apply Forall_app in Hnl as [_ Hnl].
      apply Forall_cons in Hnl as [Hnl _]. now apply Hnl.
  - repeat (apply Forall_cons_2; [discriminate|]). exact Htail.
Qed.

Lemma unreadable_tail m :
  readable m = false ->
  Forall not_M (format_4f_e m)
  /\ Forall (fun c => c <> newline) (format_4f_e m)
  /\ no_number_ahead (format_4f_e m).
Proof.
  destruct m as [x|]; cbn [readable format_4f_e].
  - destruct (Rlt_dec x 0) as [Hlt|]; [intros _|discriminate].
    split; [apply format_4f_not_M|]. split.
    + eapply Forall_impl; [apply format_4f_signed|]. intros c Hc ->. discriminate.
    + unfold format_4f. destruct (Rlt_dec x 0); [reflexivity|contradiction].
  - intros _. repeat split; repeat constructor; discriminate.
Qed.

Lemma readable_value m :
  readable m = true ->
  format_4f_e m <> []
  /\ Forall (fun c => is_number_char c = true) (format_4f_e m).
Proof.
  destruct m as [x|]; cbn [readable format_4f_e]; [|discriminate].
  destruct (Rlt_dec x 0) as [|Hge]; [discriminate|]. intros _.
  split; [apply format_4f_nonempty|apply format_4f_unsigned; lra].
Qed.

(** The update on a record as the encoder writes it. *)
Lemma update_encoded fs filepath vertices edges old new :
  fs !! filepath = Some (convert_to_format vertices edges old) ->
  update_midradius_in_file fs filepath new
  = Ok (<[filepath := convert_to_format vertices edges
                        (if readable old then new else old)]> fs).
Proof.
  intros Hfile. unfold update_midradius_in_file, read. rewrite Hfile.
  cbn [mbind result_bind]. unfold re_sub. rewrite expand_replacement.
  cbn [mbind result_bind]. do 2 f_equal.
  destruct (convert_to_format_split vertices edges) as (pre & Hpre & Hsplit).
  rewrite !Hsplit. destruct (readable old) eqn:Hr.
  - destruct (readable_value old Hr) as [Hne Hnum].
    rewrite <- (app_nil_r (format_4f_e old)).
    rewrite sub_scan_value; [now rewrite app_nil_r| |exact Hne|exact Hnum|exact I|].
    + apply no_M_first_header, Hpre.
    + apply no_M_no_value. constructor.
  - destruct (unreadable_tail old Hr) as (HM & Hnl & Hahead).
    apply scan_without_value, no_value_after_header; assumption.
Qed.

(** X18. The in-place update on a record as [convert_to_format] writes it:
    when the recorded midradius is finite and not negative the file
    becomes the record with the new midradius, everything else unchanged;
    when it is [inf] or negative the file is written back unchanged, the
    pattern of the update accepting neither. *)
Theorem update_encoded_record fs filepath vertices edges (old new : efloat) :
  fs !! filepath = Some (convert_to_format vertices edges old) ->
  update_midradius_in_file fs filepath new
  = Ok (<[filepath := convert_to_format vertices edges
                        (if readable old then new else old)]> fs).
Proof. apply update_encoded. Qed.

Lemma update_encoded_record_witness :
  let vertices : list point := [(1, 0, 0); (0, 1, 0)]%R in
  let edges : list edge := [(0, 1)%Z] in
  let fs : gmap string str :=
    {[ "record.txt"%string := convert_to_format vertices edges PosInf ]} in
  update_midradius_in_file fs "record.txt" (Num (1 / 2))
  = Ok (<["record.txt"%string := convert_to_format vertices edges PosInf]> fs).
Proof.
  intros vertices edges fs.
  apply (update_encoded_record fs "record.txt" vertices edges PosInf (Num (1 / 2))).
  apply lookup_singleton_eq.
Defined.

End EncodedRecordUpdate.

Section BatchDriver.

Import Text Re ConvertObjToFormat CalculateMidradius RoundTripSpec CodecSpec
  UpdateSpec MidradiusSpec SegmentSpec.

(** The loop state once an edge has been taken. *)
Lemma step_settled vertices st e st' :
  step vertices st e = Ok st' ->
  (min_distance st = PosInf
   \/ exists d e0 p, st = Best (Num d) (Some e0) (Some p) /\ (0 <= d)%R) ->
  exists d e0 p, st' = Best (Num d) (Some e0) (Some p) /\ (0 <= d)%R.
Proof.
  unfold step. destruct e as [i j].
  destruct (getitem vertices i) as [p1|]; [|discriminate].
  destruct (getitem vertices j) as [p2|]; [|discriminate].
  cbn [mbind result_bind].
  pose proof (cps_nonneg p1 p2 origin) as Hd.
  destruct (closest_point_on_segment p1 p2 origin) as [c d]. cbn [snd] in Hd.
  intros H [Hinf|Hset].
  - rewrite Hinf in H. cbn [lt_efloat] in H. injection H as <-. eauto.
  - destruct (lt_efloat d (min_distance st)); injection H as <-; eauto.
Qed.

Lemma loop_settled vertices edges st st' :
  loop vertices edges st = Ok st' ->
  (exists d e0 p, st = Best (Num d) (Some e0) (Some p) /\ (0 <= d)%R) ->
  exists d e0 p, st' = Best (Num d) (Some e0) (Some p) /\ (0 <= d)%R.
Proof.
  revert st. induction edges as [|e edges IH]; intros st H Hset.
  - injection H as <-. exact Hset.
  - cbn [loop] in H. destruct (step vertices st e) as [st1|] eqn:Hstep; [|discriminate].
    cbn [mbind result_bind] in H. apply (IH _ H).
    eapply step_settled; [exact Hstep|right; exact Hset].
Qed.

(** On a non-empty edge list the calculator returns a distance that is not
    negative, an edge and a point, or raises [IndexError]. *)
Lemma calculate_midradius_result vertices edges :
  edges <> [] ->
  match calculate_midradius vertices edges with
  | Ok r => exists d e p, r = (Num d, Some e, Some p) /\ (0 <= d)%R
  | Raise x => x = IndexError
  end.
Proof.
  intros Hne. unfold calculate_midradius.
  pose proof (convert_loop_raises vertices edges PosInf) as Hraise.
  change PosInf with (min_distance (Best PosInf None None)) in Hraise.
  rewrite loops_agree in Hraise.
  destruct (loop vertices edges (Best PosInf None None)) as [st'|x] eqn:Hloop;
    cbn [mbind result_bind] in *; [|now apply Hraise].
  destruct edges as [|e edges]; [contradiction|]. cbn [loop] in Hloop.
  destruct (step vertices _ e) as [st1|] eqn:Hstep; [|discriminate].
  cbn [mbind result_bind] in Hloop.
  apply step_settled in Hstep; [|left; reflexivity].
  destruct (loop_settled _ _ _ _ Hloop Hstep) as (d & e0 & p & -> & Hd).
  exists d, e0, p. auto.
Qed.

Lemma update_result fs filepath content new :
  fs !! filepath = Some content ->
  exists content', update_midradius_in_file fs filepath new
                   = Ok (<[filepath := content']> fs).
Proof.
  intros Hfile. unfold update_midradius_in_file, read. rewrite Hfile.
  cbn [mbind result_bind]. unfold re_sub. rewrite expand_replacement.
  cbn [mbind result_bind]. eauto.
Qed.

Lemma process_file_cases fs filepath :
  match (process_file fs filepath).2 with
  | Skipped => (process_file fs filepath).1 = fs
  | Failed e =>
      (process_file fs filepath).1 = fs
      /\ ((e = FileNotFoundError /\ fs !! filepath = None)
          \/ (e = ValueError /\ fs !! filepath <> None)
          \/ (e = IndexError /\ fs !! filepath <> None))
  | Updated old new =>
      (exists d, new = Num d /\ (0 <= d)%R)
      /\ (forall x, old = Some x -> (0 <= x)%R)
      /\ exists content content',
           fs !! filepath = Some content
           /\ (process_file fs filepath).1 = <[filepath := content']> fs
  end.
Proof.
  unfold process_file. pose proof (parse_output fs filepath) as Hparse.
  destruct (parse_polyhedron_file fs filepath) as [[[vertices edges] old]|x] eqn:Hp.
  - assert (Hfile : exists content, fs !! filepath = Some content).
    { unfold parse_polyhedron_file, read in Hp.
      destruct (fs !! filepath); [eauto|discriminate]. }
    destruct Hfile as [content Hfile].
    destruct vertices as [|v vertices]; [reflexivity|].
    destruct edges as [|e edges]; [reflexivity|].
    pose proof (calculate_midradius_result (v :: vertices) (e :: edges)
                  ltac:(discriminate)) as Hcalc.
    destruct (calculate_midradius (v :: vertices) (e :: edges)) as [r|x].
    + destruct Hcalc as (d & e0 & p & -> & Hd).
      destruct (update_result fs filepath content (Num d) Hfile) as [content' ->].
      cbn [fst snd]. split; [eauto|]. split; [apply Hparse|]. eauto.
    + cbn [fst snd]. split; [reflexivity|]. right. right.
      split; [exact Hcalc|congruence].
  - cbn [fst snd]. split; [reflexivity|].
    destruct Hparse as [[-> Hnone]|[-> Hsome]]; auto.
Qed.


Lemma process_file_frame fs filepath :
  (forall p, p <> filepath -> (process_file fs filepath).1 !! p = fs !! p)
  /\ (forall p, (process_file fs filepath).1 !! p = None <-> fs !! p = None).
Proof.
  pose proof (process_file_cases fs filepath) as H.
  destruct ((process_file fs filepath).2) as [|old new|e].
  - rewrite H. auto.
  - destruct H as (_ & _ & content & content' & Hfile & ->). split.
    + intros p Hp. now rewrite lookup_insert_ne.
    + intros p. destruct (decide (p = filepath)) as [->|Hp].
      * rewrite lookup_insert_eq, Hfile. split; discriminate.
      * now rewrite lookup_insert_ne.
  - destruct H as [-> _]. auto.
Qed.

(** X20. The batch driver over a list of files reports one outcome per
    file, leaves every file that is not in the list as it was, and neither
    creates nor removes a file. *)
Theorem process_files_frame (fs : gmap string str) (txt_files : list string) :
  length (process_files fs txt_files).2 = length txt_files
  /\ (forall p, p ∉ txt_files -> (process_files fs txt_files).1 !! p = fs !! p)
  /\ (forall p, (process_files fs txt_files).1 !! p = None <-> fs !! p = None).
Proof.
  revert fs. induction txt_files as [|f files IH]; intros fs.
  - simpl. auto.
  - cbn [process_files]. destruct (process_file_frame fs f) as [Hother Hdom].
    destruct (process_file fs f) as [fs1 o]. cbn [fst] in Hother, Hdom.
    destruct (IH fs1) as (Hlen & Hother' & Hdom').
    destruct (process_files fs1 files) as [fs2 os]. cbn [fst snd] in *.
    split; [simpl; now rewrite Hlen|]. split.
    + intros p Hp. apply not_elem_of_cons in Hp as [Hpf Hp].
      rewrite Hother' by exact Hp. now apply Hother.
    + intros p. now rewrite Hdom', Hdom.
Qed.

Lemma filter_nonneg_valid (vertices : list point) edges :
  Forall (valid_edge vertices) edges -> List.filter nonneg_edgeb edges = edges.
Proof.
  induction 1 as [|e edges [H1 H2] _ IH]; [reflexivity|].
  cbn [List.filter]. unfold nonneg_edgeb at 1. unfold valid_index in *.
  destruct (Z.leb_spec 0 e.1); [|lia]. destruct (Z.leb_spec 0 e.2); [|lia].
  cbn [andb]. now rewrite IH.
Qed.

(** The driver on a record as the encoder writes it. *)
Lemma process_file_encoded fs filepath vertices edges old :
  fs !! filepath = Some (convert_to_format vertices edges old) ->
  vertices <> [] -> edges <> [] ->
  Forall (valid_edge vertices) edges ->
  exists d e p,
    calculate_midradius (map round4_point vertices) edges
    = Ok (Num d, Some e, Some p)
    /\ (0 <= d)%R
    /\ process_file fs filepath
       = (<[filepath := convert_to_format vertices edges
                          (if readable old then Num d else old)]> fs,
          Updated (decoded_midradius old) (Num d)).
Proof.
  intros Hfile Hvs Hes Hvalid.
  assert (Hvalid' : Forall (valid_edge (map round4_point vertices)) edges).
  { eapply Forall_impl; [exact Hvalid|]. intros e.
    unfold valid_edge, valid_index. now rewrite length_map. }
  pose proof (calculate_midradius_result (map round4_point vertices) edges Hes)
    as Hcalc.
  destruct (loop_minimum _ _ Hes Hvalid') as (e & p & d & Hloop & _).
  unfold calculate_midradius in Hcalc |- *. rewrite Hloop in Hcalc |- *.
  cbn [mbind result_bind min_distance min_edge min_point] in Hcalc |- *.
  destruct Hcalc as (d' & e' & p' & Heq & Hd). injection Heq as <- <- <-.
  exists d, e, p. split; [reflexivity|]. split; [exact Hd|].
  unfold process_file. rewrite (parse_encoded_file _ _ _ _ _ Hfile).
  rewrite (filter_nonneg_valid _ _ Hvalid).
  destruct vertices as [|v vertices]; [contradiction|].
  destruct edges as [|e0 edges]; [contradiction|].
  cbn [map]. unfold calculate_midradius.
  change (round4_point v :: map round4_point vertices)
    with (map round4_point (v :: vertices)).
  rewrite Hloop. cbn [mbind result_bind min_distance min_edge min_point].
  now rewrite (update_encoded _ _ _ _ _ (Num d) Hfile).
Qed.



(** X22. Running the batch driver a second time on such a record changes
    nothing: the files after the second run are the files after the
    first. *)
Theorem process_file_idempotent fs filepath vertices edges (old : efloat) :
  fs !! filepath = Some (convert_to_format vertices edges old) ->
  vertices <> [] -> edges <> [] ->
  Forall (valid_edge vertices) edges ->
  (process_file (process_file fs filepath).1 filepath).1
  = (process_file fs filepath).1.
Proof.
  intros Hfile Hvs Hes Hvalid.
  destruct (process_file_encoded _ _ _ _ old Hfile Hvs Hes Hvalid)
    as (d & e & p & Hcalc & Hd & ->). cbn [fst].
  set (m1 := if readable old then Num d else old).
  set (fs1 := <[filepath := convert_to_format vertices edges m1]> fs).
  assert (Hfile1 : fs1 !! filepath = Some (convert_to_format vertices edges m1))
    by apply lookup_insert_eq.
  destruct (process_file_encoded _ _ _ _ m1 Hfile1 Hvs Hes Hvalid)
    as (d' & e' & p' & Hcalc' & _ & ->). cbn [fst].
  rewrite Hcalc in Hcalc'. injection Hcalc' as <- <- <-.
  assert (Hm : (if readable m1 then Num d else m1) = m1).
  { unfold m1. destruct (readable old) eqn:Hr; [|now rewrite Hr].
    cbn [readable]. destruct (Rlt_dec d 0); [lra|reflexivity]. }
  rewrite Hm. unfold fs1. apply insert_insert_eq.
Qed.

Lemma process_file_idempotent_witness :
  let vertices : list point := [(1, 0, 0); (0, 1, 0)]%R in
  let edges : list edge := [(0, 1)%Z] in
  let fs : gmap string str :=
    {[ "record.txt"%string := convert_to_format vertices edges (Num 3) ]} in
  (process_file (process_file fs "record.txt").1 "record.txt").1
  = (process_file fs "record.txt").1.
Proof.
  intros vertices edges fs.
  apply (process_file_idempotent fs "record.txt" vertices edges (Num 3)).
  - apply lookup_singleton_eq.
  - discriminate.
  - discriminate.
  - repeat constructor; simpl; lia.
Defined.

End BatchDriver.

(** * Properties of the OBJ reader and of the conversion pipeline *)

Section ObjReaderFacts.

Import Text ObjReader.

Variable float : str -> result R.

Lemma lstrip_app_newline l :
  lstrip (l ++ [newline])
  = match lstrip l with [] => [] | c :: t => (c :: t) ++ [newline] end.
Proof.
  induction l as [|c l IH]; [reflexivity|]. simpl.
  destruct (isspace c); [exact IH|reflexivity].
Qed.

Lemma strip_app_newline l : strip (l ++ [newline]) = strip l.
Proof.
  unfold strip. rewrite lstrip_app_newline.
  destruct (lstrip l) as [|c t]; [reflexivity|].
  unfold rstrip. rewrite rev_app_distr. reflexivity.
Qed.

(** The line break that iterating over a file leaves at the end of a line
    makes no difference. *)
Lemma parse_obj_line_newline st l :
  parse_obj_line float st (l ++ [newline]) = parse_obj_line float st l.
Proof. unfold parse_obj_line. now rewrite strip_app_newline. Qed.

Lemma parse_obj_line_blank st : parse_obj_line float st [] = Ok st.
Proof. destruct st. reflexivity. Qed.

Lemma file_lines_line l :
  Forall (fun c => Ascii.eqb c newline = false) l ->
  file_lines l = match l with [] => [] | _ :: _ => [l] end.
Proof.
  induction 1 as [|c l Hc Hl IH]; [reflexivity|]. simpl. rewrite Hc, IH.
  destruct l; reflexivity.
Qed.

Lemma file_lines_app_newline l s :
  Forall (fun c => Ascii.eqb c newline = false) l ->
  file_lines (l ++ newline :: s) = (l ++ [newline]) :: file_lines s.
Proof.
  induction 1 as [|c l Hc _ IH]; simpl.
  - reflexivity.
  - now rewrite Hc, IH.
Qed.

(** Reading the lines of a file and splitting its text at line breaks
    come to the same for the reader. *)
Lemma parse_obj_lines_sources content l st :
  Forall (fun c => Ascii.eqb c newline = false) l ->
  parse_obj_lines float (file_lines (l ++ content)) st
  = parse_obj_lines float (split newline (l ++ content)) st.
Proof.
  revert l st. induction content as [|c content IH]; intros l st Hl.
  - rewrite app_nil_r, file_lines_line, split_line by exact Hl.
    destruct l as [|x l]; [|reflexivity].
    cbn [parse_obj_lines]. now rewrite parse_obj_line_blank.
  - destruct (Ascii.eqb_spec c newline) as [->|Hc].
    + rewrite file_lines_app_newline, split_app_sep by exact Hl.
      cbn [parse_obj_lines]. rewrite parse_obj_line_newline.
      destruct (parse_obj_line float st l) as [st'|]; [|reflexivity].
      cbn [mbind result_bind]. apply (IH [] st'). constructor.
    + replace (l ++ c :: content) with ((l ++ [c]) ++ content)
        by (now rewrite <- app_assoc).
      apply IH. apply Forall_app_2; [exact Hl|].
      repeat constructor. now apply Ascii.eqb_neq.
Qed.

Lemma parse_obj_file_sources (fs : gmap string str) (obj_path : string) :
  ConvertObjMain.parse_obj_file float fs obj_path
  = (content ← CalculateMidradius.read fs obj_path;
     DownloadJohnsonSolids.parse_obj_file float content).
Proof.
  unfold ConvertObjMain.parse_obj_file, DownloadJohnsonSolids.parse_obj_file.
  destruct (CalculateMidradius.read fs obj_path) as [content|]; [|reflexivity].
  cbn [mbind result_bind]. apply (parse_obj_lines_sources content []). constructor.
Qed.

Lemma face_indices_length parts acc face :
  face_indices parts acc = Ok face -> length face = (length acc + length parts)%nat.
Proof.
  revert acc. induction parts as [|part parts IH]; intros acc H.
  - injection H as <-. simpl. lia.
  - cbn [face_indices] in H.
    destruct (int_of_str (first_component part)) as [v|]; [|discriminate].
    cbn [mbind result_bind] in H. rewrite (IH _ H), length_app. simpl. lia.
Qed.

Lemma int_of_str_raises s x : int_of_str s = Raise x -> x = ValueError.
Proof.
  unfold int_of_str. destruct (split_sign _) as [negative body].
  destruct (digits_of_numeral body false); congruence.
Qed.

Lemma face_indices_raises parts acc x :
  face_indices parts acc = Raise x -> x = ValueError.
Proof.
  revert acc. induction parts as [|part parts IH]; intros acc H; [discriminate|].
  cbn [face_indices] in H.
  destruct (int_of_str (first_component part)) as [v|y] eqn:Hv.
  - eapply IH, H.
  - injection H as <-. eapply int_of_str_raises, Hv.
Qed.

(** Every face that the reader keeps has at least two indices. *)
Lemma parse_obj_line_faces vertices faces line :
  Forall (fun face => (2 <= length face)%nat) faces ->
  match parse_obj_line float (vertices, faces) line with
  | Ok (_, faces') => Forall (fun face => (2 <= length face)%nat) faces'
  | Raise _ => True
  end.
Proof.
  intros Hfaces. unfold parse_obj_line.
  destruct (strip line) as [|c l]; [exact Hfaces|].
  destruct (startswith (c :: l) "#"); [exact Hfaces|].
  destruct (startswith (c :: l) "v ").
  - destruct (4 <=? _)%nat; [|exact Hfaces].
    destruct (float (nth 1 _ _)) as [x|e1]; [|exact I].
    destruct (float (nth 2 _ _)) as [y|e2]; [|exact I].
    destruct (float (nth 3 _ _)) as [z|e3]; [|exact I].
    exact Hfaces.
  - destruct (startswith (c :: l) "f "); [|exact Hfaces].
    destruct (face_indices _ []) as [face|x]; [|exact I].
    cbn [mbind result_bind].
    destruct (Nat.leb_spec 2 (length face)); [|exact Hfaces].
    apply Forall_app_2; [exact Hfaces|]. repeat constructor. assumption.
Qed.

Lemma parse_obj_lines_faces lines vertices faces :
  Forall (fun face => (2 <= length face)%nat) faces ->
  match parse_obj_lines float lines (vertices, faces) with
  | Ok (_, faces') => Forall (fun face => (2 <= length face)%nat) faces'
  | Raise _ => True
  end.
Proof.
  revert vertices faces. induction lines as [|line lines IH];
    intros vertices faces Hfaces; [exact Hfaces|].
  cbn [parse_obj_lines].
  pose proof (parse_obj_line_faces vertices faces line Hfaces) as Hline.
  destruct (parse_obj_line float (vertices, faces) line) as [[vs fs]|x];
    [|exact I].
  cbn [mbind result_bind]. apply IH, Hline.
Qed.

Hypothesis float_raises : forall s x, float s = Raise x -> x = ValueError.

Lemma parse_obj_line_raises st line x :
  parse_obj_line float st line = Raise x -> x = ValueError.
Proof.
  destruct st as [vertices faces]. unfold parse_obj_line.
  destruct (strip line) as [|c l]; [discriminate|].
  destruct (startswith (c :: l) "#"); [discriminate|].
  destruct (startswith (c :: l) "v ").
  - destruct (4 <=? _)%nat; [|discriminate].
    destruct (float (nth 1 _ _)) as [a|e1] eqn:H1;
      [|intros H; injection H as <-; eapply float_raises, H1].
    destruct (float (nth 2 _ _)) as [b|e2] eqn:H2;
      [|intros H; injection H as <-; eapply float_raises, H2].
    destruct (float (nth 3 _ _)) as [d|e3] eqn:H3;
      [|intros H; injection H as <-; eapply float_raises, H3].
    discriminate.
  - destruct (startswith (c :: l) "f "); [|discriminate].
    destruct (face_indices _ []) as [face|y] eqn:Hface.
    + cbn [mbind result_bind]. destruct (2 <=? _)%nat; discriminate.
    + intros H. injection H as <-. eapply face_indices_raises, Hface.
Qed.

Lemma parse_obj_lines_raises lines st x :
  parse_obj_lines float lines st = Raise x -> x = ValueError.
Proof.
  revert st. induction lines as [|line lines IH]; intros st; [discriminate|].
  cbn [parse_obj_lines].
  destruct (parse_obj_line float st line) as [st'|y] eqn:Hline.
  - apply IH.
  - intros H. injection H as <-. eapply parse_obj_line_raises, Hline.
Qed.

End ObjReaderFacts.

Section ObjReaderProperties.

Import Text ObjReader MidradiusSpec SegmentSpec.

(** X23. The two copies of [parse_obj_file] agree: reading an OBJ file
    line by line, as [convert_obj_to_format.py] does, gives what
    [download_johnson_solids.py] gets from splitting the text of the file
    at line breaks. *)
Theorem obj_readers_agree (float : str -> result R) (fs : gmap string str)
    (obj_path : string) :
  ConvertObjMain.parse_obj_file float fs obj_path
  = (content ← CalculateMidradius.read fs obj_path;
     DownloadJohnsonSolids.parse_obj_file float content).
Proof. apply parse_obj_file_sources. Qed.

(** X24. Every face that [parse_obj_file] returns has at least two
    indices, and the reader raises nothing but [ValueError], given that
    [float] raises nothing else. *)
Theorem obj_faces_have_two_indices (float : str -> result R) (obj_content : str) :
  (forall s x, float s = Raise x -> x = ValueError) ->
  match DownloadJohnsonSolids.parse_obj_file float obj_content with
  | Ok (_, faces) => Forall (fun face => (2 <= length face)%nat) faces
  | Raise x => x = ValueError
  end.
Proof.
  intros Hfloat. unfold DownloadJohnsonSolids.parse_obj_file.
  pose proof (parse_obj_lines_faces float (split newline obj_content) [] []
                ltac:(constructor)) as Hshape.
  pose proof (parse_obj_lines_raises float Hfloat (split newline obj_content)
                ([], [])) as Hraise.
  destruct (parse_obj_lines _ _ _) as [[vs faces]|x]; [exact Hshape|].
  now apply Hraise.
Qed.

Lemma obj_faces_have_two_indices_witness :
  let obj_content : str := "v 0 0 0" ++ newline :: "f 1 2 3" ++ newline :: "f 1" in
  match DownloadJohnsonSolids.parse_obj_file py_float obj_content with
  | Ok (_, faces) => Forall (fun face => (2 <= length face)%nat) faces
  | Raise x => x = ValueError
  end.
Proof.
  intros obj_content.
  apply (obj_faces_have_two_indices py_float obj_content py_float_raises).
Defined.

Lemma startswith_nil s : startswith s [] = true.
Proof. destruct s; reflexivity. Qed.

Lemma split_whitespace_word t rest :
  t <> [] -> Forall nonspace t ->
  split_whitespace (t ++ " "%char :: rest) = t :: split_whitespace rest.
Proof.
  intros Hne Ht. induction Ht as [|c t Hc Ht IH]; [contradiction|].
  cbn [app split_whitespace]. rewrite Hc.
  destruct t as [|d t]; [reflexivity|].
  cbn [app]. apply Forall_cons in Ht as [Hd Ht]. rewrite Hd.
  cbn [app] in IH. rewrite IH by discriminate. reflexivity.
Qed.

Lemma split_whitespace_last t :
  t <> [] -> Forall nonspace t -> split_whitespace t = [t].
Proof.
  intros Hne Ht. induction Ht as [|c t Hc Ht IH]; [contradiction|].
  cbn [split_whitespace]. rewrite Hc.
  destruct t as [|d t]; [reflexivity|].
  apply Forall_cons in Ht as [Hd Ht]. rewrite Hd.
  rewrite IH by discriminate. reflexivity.
Qed.

(** [split()] undoes joining words with single spaces. *)
Lemma split_whitespace_join (words : list str) :
  Forall (fun t => t <> [] /\ Forall nonspace t) words ->
  split_whitespace (join " " words) = words.
Proof.
  induction 1 as [|t words [Hne Ht] Hwords IH]; [reflexivity|].
  destruct words as [|t2 words].
  - apply split_whitespace_last; assumption.
  - change (join " " (t :: t2 :: words))
      with (t ++ " "%char :: join " " (t2 :: words)).
    rewrite split_whitespace_word by assumption. now rewrite IH.
Qed.

Lemma rstrip_last s c : nonspace c -> rstrip (s ++ [c]) = s ++ [c].
Proof.
  intros Hc. unfold rstrip. rewrite rev_app_distr. simpl. rewrite Hc.
  simpl. now rewrite rev_involutive.
Qed.

Lemma join_last (words : list str) :
  words <> [] -> Forall (fun t => t <> [] /\ Forall nonspace t) words ->
  exists s c, join " " words = s ++ [c] /\ nonspace c.
Proof.
  intros Hne Hwords. induction Hwords as [|t words [Ht Hns] _ IH]; [contradiction|].
  destruct words as [|t2 words].
  - simpl. destruct (exists_last Ht) as (s & c & ->).
    apply Forall_app in Hns as [_ Hc]. apply Forall_cons in Hc as [Hc _]. eauto.
  - destruct (IH ltac:(discriminate)) as (s & c & Heq & Hc).
    exists (t ++ " "%char :: s), c. split; [|exact Hc].
    change (join " " (t :: t2 :: words))
      with (t ++ " "%char :: join " " (t2 :: words)).
    rewrite Heq, <- app_assoc. reflexivity.
Qed.

(** A line made of a keyword and fields, separated by single spaces, is
    what [strip] and [split()] take it for. *)
Lemma fields_line (k : ascii) (fields : list str) :
  nonspace k -> fields <> [] ->
  Forall (fun t => t <> [] /\ Forall nonspace t) fields ->
  strip (k :: " "%char :: join " " fields) = k :: " "%char :: join " " fields
  /\ split_whitespace (k :: " "%char :: join " " fields) = [k] :: fields.
Proof.
  intros Hk Hne Hfields. split.
  - destruct (join_last fields Hne Hfields) as (s & c & -> & Hc).
    unfold strip. cbn [lstrip]. rewrite Hk.
    apply (rstrip_last (k :: " "%char :: s) c Hc).
  - change (k :: " "%char :: join " " fields)
      with ([k] ++ " "%char :: join " " fields).
    rewrite split_whitespace_word; [|discriminate|repeat constructor; exact Hk].
    now rewrite split_whitespace_join.
Qed.

(** A face reference, as an OBJ file writes it: the vertex number, then
    possibly a slash and further numbers. *)
Lemma first_component_reference (v : Z) (extra : str) :
  extra = [] \/ (exists t, extra = "/"%char :: t) ->
  first_component (str_of_Z v ++ extra) = str_of_Z v.
Proof.
  assert (Hv : Forall (fun c => Ascii.eqb c "/" = false) (str_of_Z v)).
  { unfold str_of_Z. destruct (v <? 0)%Z; [apply Forall_cons_2; [reflexivity|]|];
      (eapply Forall_impl; [apply str_of_N_isdigit|]);
      intros c Hc; destruct (Ascii.eqb_spec c "/") as [->|]; try reflexivity;
      discriminate. }
  unfold first_component. intros [->|[t ->]].
  - now rewrite app_nil_r, split_line.
  - now rewrite split_app_sep.
Qed.

Lemma skip_int_space_digits s :
  match s with c :: _ => int_space c = false | [] => True end ->
  skip_int_space s = s.
Proof. destruct s as [|c s]; [reflexivity|]. simpl. now intros ->. Qed.

Lemma digits_of_numeral_digits s :
  Forall (fun c => isdigit c = true) s -> s <> [] ->
  digits_of_numeral s false = Some s.
Proof.
  intros Hs Hne.
  assert (H : forall b, digits_of_numeral s b = if b then Some s else
              match s with [] => None | _ => Some s end).
  { clear Hne. induction Hs as [|c s Hc _ IH]; intros b; [destruct b; reflexivity|].
    cbn [digits_of_numeral]. rewrite Hc, (IH true). destruct b; reflexivity. }
  rewrite H. destruct s; [contradiction|reflexivity].
Qed.

(** [int] reads back what [str] writes. *)
Lemma int_of_str_of_Z v : int_of_str (str_of_Z v) = Ok v.
Proof.
  pose proof (str_of_N_isdigit (Z.abs_N v)) as Hd.
  pose proof (str_of_N_nonempty (Z.abs_N v)) as Hne.
  pose proof (str_of_N_val (Z.abs_N v)) as Hval.
  assert (Hint : forall c, isdigit c = true -> int_space c = false).
  { intros c Hc. unfold isdigit, int_space in *. 
    destruct (N_of_ascii c) as [|p]; [discriminate|]. 
    repeat match goal with
           | |- context [(?a <=? ?b)%N] => destruct (N.leb_spec a b)
           | |- context [(?a =? ?b)%N] => destruct (N.eqb_spec a b)
           | H : context [(?a <=? ?b)%N] |- _ => destruct (N.leb_spec a b)
           end; simpl in *; try reflexivity; try discriminate; lia. }
  assert (Hstrip : forall s, s <> [] -> Forall (fun c => isdigit c = true) s ->
            forall pre, (pre = [] \/ pre = ["-"%char]) ->
            rev (skip_int_space (rev (skip_int_space (pre ++ s)))) = pre ++ s).
  { intros s Hs Hds pre Hpre.
    destruct (exists_last Hs) as (s' & c & ->).
    apply Forall_app in Hds as [Hs' Hc]. apply Forall_cons in Hc as [Hc _].
    assert (H1 : skip_int_space (pre ++ s' ++ [c]) = pre ++ s' ++ [c]).
    { apply skip_int_space_digits.
      destruct Hpre as [->| ->]; [|reflexivity].
      destruct s' as [|d s']; simpl; [now apply Hint|].
      apply Forall_cons in Hs' as [Hd0 _]. now apply Hint. }
    rewrite H1, app_assoc, rev_app_distr. cbn [rev app].
    rewrite skip_int_space_digits by (now apply Hint).
    change (c :: rev (pre ++ s')) with (rev [c] ++ rev (pre ++ s')).
    now rewrite <- rev_app_distr, rev_involutive. }
  unfold int_of_str, str_of_Z. destruct (Z.ltb_spec v 0) as [Hneg|Hpos].
  - change ("-"%char :: str_of_N (Z.abs_N v))
      with (["-"%char] ++ str_of_N (Z.abs_N v)).
    rewrite (Hstrip _ Hne Hd ["-"%char]) by auto. cbn [app split_sign].
    change (Ascii.eqb "-" "-") with true. cbv iota.
    rewrite digits_of_numeral_digits by assumption. rewrite Hval. f_equal. lia.
  - replace (Z.to_N v) with (Z.abs_N v) by lia.
    change (str_of_N (Z.abs_N v)) with ([] ++ str_of_N (Z.abs_N v)) at 1.
    rewrite (Hstrip _ Hne Hd []) by auto. cbn [app].
    destruct (str_of_N (Z.abs_N v)) as [|d s] eqn:Hs; [contradiction|].
    rewrite split_sign_digit by (apply Forall_cons in Hd; tauto).
    rewrite digits_of_numeral_digits by (assumption || discriminate).
    rewrite Hval. f_equal. lia.
Qed.

Lemma face_indices_references (refs : list (Z * str)) acc :
  Forall (fun r : Z * str => r.2 = [] \/ exists t, r.2 = "/"%char :: t) refs ->
  face_indices (map (fun r : Z * str => str_of_Z r.1 ++ r.2) refs) acc
  = Ok (acc ++ map (fun r : Z * str => (r.1 - 1)%Z) refs).
Proof.
  intros Hrefs. revert acc. induction Hrefs as [|r refs Hr _ IH]; intros acc.
  - simpl. now rewrite app_nil_r.
  - cbn [map face_indices].
    rewrite first_component_reference by exact Hr.
    rewrite int_of_str_of_Z. cbn [mbind result_bind].
    rewrite IH, <- app_assoc. reflexivity.
Qed.

Lemma str_of_Z_nonempty v : str_of_Z v <> [].
Proof.
  unfold str_of_Z. destruct (v <? 0)%Z; [discriminate|apply str_of_N_nonempty].
Qed.

(** X25. A face line as OBJ files write it, the keyword [f] and
    references separated by single spaces, each reference a vertex number
    optionally followed by a slash and texture or normal numbers: the
    reader takes the vertex number of each reference, minus one, and
    keeps the face when it has at least two references. *)
Theorem obj_face_line (float : str -> result R) (vertices : list point)
    (faces : list (list Z)) (refs : list (Z * str)) :
  refs <> [] ->
  Forall (fun r : Z * str =>
            r.2 = [] \/ exists t, r.2 = "/"%char :: t /\ Forall nonspace t) refs ->
  parse_obj_line float (vertices, faces)
    ("f " ++ join " " (map (fun r : Z * str => str_of_Z r.1 ++ r.2) refs))
  = Ok (vertices,
        if (2 <=? length refs)%nat
        then faces ++ [map (fun r : Z * str => (r.1 - 1)%Z) refs]
        else faces).
Proof.
  intros Hne Hrefs.
  set (fields := map (fun r : Z * str => str_of_Z r.1 ++ r.2) refs).
  assert (Hfields : Forall (fun t => t <> [] /\ Forall nonspace t) fields).
  { unfold fields. apply Forall_map. eapply Forall_impl; [exact Hrefs|].
    intros [v extra] Hr. cbn [fst snd] in *. split.
    - pose proof (str_of_Z_nonempty v). destruct (str_of_Z v); [contradiction|discriminate].
    - apply Forall_app_2; [apply str_of_Z_nonspace|].
      destruct Hr as [->|(t & -> & Ht)]; [constructor|].
      apply Forall_cons_2; [reflexivity|exact Ht]. }
  assert (Hne' : fields <> []) by (unfold fields; destruct refs; [contradiction|discriminate]).
  destruct (fields_line "f" fields eq_refl Hne' Hfields) as [Hstrip Hsplit].
  change (list_ascii_of_string "f " ++ join " " fields)
    with ("f"%char :: " "%char :: join " " fields).
  unfold parse_obj_line. rewrite Hstrip.
  change (startswith ("f"%char :: " "%char :: join " " fields) "#") with false.
  change (startswith ("f"%char :: " "%char :: join " " fields) "v ") with false.
  assert (Hf : startswith ("f"%char :: " "%char :: join " " fields) "f " = true)
    by (simpl; apply startswith_nil).
  rewrite Hf. rewrite Hsplit. cbn [tail]. unfold fields.
  rewrite face_indices_references.
  - cbn [mbind result_bind app]. rewrite length_map.
    destruct (2 <=? length refs)%nat; reflexivity.
  - eapply Forall_impl; [exact Hrefs|]. intros r [H|(t & H & _)]; eauto.
Qed.

Lemma obj_face_line_witness :
  let refs : list (Z * str) := [(1, [] : str); (5, "/2/7" : str); (3, "//4" : str)]%Z in
  parse_obj_line py_float ([], [])
    ("f " ++ join " " (map (fun r : Z * str => str_of_Z r.1 ++ r.2) refs))
  = Ok ([],
        if (2 <=? length refs)%nat
        then [] ++ [map (fun r : Z * str => (r.1 - 1)%Z) refs]
        else []).
Proof.
  intros refs. apply (obj_face_line py_float [] [] refs).
  - discriminate.
  - apply Forall_cons_2; [left; reflexivity|].
    apply Forall_cons_2;
      [right; eexists; split; [reflexivity|repeat constructor]|].
    apply Forall_cons_2;
      [right; eexists; split; [reflexivity|repeat constructor]|].
    constructor.
Defined.

End ObjReaderProperties.

Section ConversionPipeline.

Import Text ObjReader MidradiusSpec SegmentSpec ConvertObjToFormat.
Open Scope R_scope.





End ConversionPipeline.

(** * Properties of the recipe checks *)

Section RecipePatterns.

Import Text Re DownloadPolyhedronisme RecipeSpec.

Ltac in_list := apply list_elem_of_In; simpl; tauto.

Lemma run_lit_inv {X} c marks pos s (k : list nat -> nat -> str -> option X) x :
  run (lit c) marks pos s k = Some x ->
  exists s', s = c :: s' /\ k marks (S pos) s' = Some x.
Proof.
  unfold lit. cbn [run]. destruct s as [|d s]; [discriminate|].
  destruct (in_class [Char c] d) eqn:Hd; [|discriminate].
  apply in_class_char in Hd as ->. eauto.
Qed.

Lemma run_lit {X} c marks pos s (k : list nat -> nat -> str -> option X) :
  run (lit c) marks pos (c :: s) k = k marks (S pos) s.
Proof.
  unfold lit. cbn [run]. unfold in_class. simpl. now rewrite Ascii.eqb_refl.
Qed.

Lemma run_lit_other {X} c d marks pos s (k : list nat -> nat -> str -> option X) :
  d <> c -> run (lit c) marks pos (d :: s) k = None.
Proof.
  intros Hd. unfold lit. cbn [run]. unfold in_class. simpl.
  destruct (Ascii.eqb_spec d c); [contradiction|reflexivity].
Qed.

Lemma run_digits_inv {X} marks pos s (k : list nat -> nat -> str -> option X) x :
  run (RPlus [Digit]) marks pos s k = Some x ->
  exists ds rest, s = ds ++ rest /\ ds <> []
    /\ Forall (fun c => isdigit c = true) ds
    /\ k marks (pos + length ds)%nat rest = Some x.
Proof.
  cbn [run]. destruct s as [|c s]; [discriminate|].
  destruct (in_class [Digit] c) eqn:Hc; [|discriminate]. intros H.
  apply star_sound in H as (a & b & -> & Ha & Hk).
  exists (c :: a), b. split; [reflexivity|]. split; [discriminate|]. split.
  - constructor; [now rewrite <- in_class_digit|].
    eapply Forall_impl; [exact Ha|]. intros d Hd. now rewrite <- in_class_digit.
  - rewrite <- Hk. f_equal. simpl. lia.
Qed.

Lemma run_digits {X} marks pos ds rest (k : list nat -> nat -> str -> option X) x :
  ds <> [] -> Forall (fun c => isdigit c = true) ds ->
  match rest with c :: _ => isdigit c = false | [] => True end ->
  k marks (pos + length ds)%nat rest = Some x ->
  run (RPlus [Digit]) marks pos (ds ++ rest) k = Some x.
Proof.
  intros Hne Hds Hrest Hk. destruct ds as [|c ds]; [contradiction|].
  apply Forall_cons in Hds as [Hc Hds]. cbn [app run].
  rewrite in_class_digit, Hc. apply star_greedy.
  - eapply Forall_impl; [exact Hds|]. intros d Hd. now rewrite in_class_digit.
  - destruct rest as [|d rest]; [exact I|]. now rewrite in_class_digit.
  - rewrite <- Hk. f_equal. simpl. lia.
Qed.

Lemma run_eol_inv {X} marks pos s (k : list nat -> nat -> str -> option X) x :
  run REol marks pos s k = Some x ->
  (s = [] \/ s = [newline]) /\ k marks pos s = Some x.
Proof.
  cbn [run]. destruct s as [|c [|d s]]; [auto| |discriminate].
  destruct (Ascii.eqb_spec c newline) as [->|]; [auto|discriminate].
Qed.

Lemma run_eol {X} marks pos s (k : list nat -> nat -> str -> option X) :
  s = [] \/ s = [newline] -> run REol marks pos s k = k marks pos s.
Proof. intros [->| ->]; reflexivity. Qed.

(** Where the pattern of the bases matches: at a base that ends the
    string, or stands before its final line break. *)
Lemma run_base_inv {X} marks pos s (k : list nat -> nat -> str -> option X) x :
  run base_pattern marks pos s k = Some x ->
  exists b tail,
    s = b ++ tail /\ is_base b /\ (tail = [] \/ tail = [newline])
    /\ k (marks ++ [pos; (pos + length b)%nat]) (pos + length b)%nat tail = Some x.
Proof.
  unfold base_pattern. cbn [run].
  set (k' := fun marks' pos' s' =>
               match s' with
               | [] => k (marks' ++ [pos']) pos' s'
               | [c] => if Ascii.eqb c newline then k (marks' ++ [pos']) pos' s' else None
               | _ :: _ :: _ => None
               end).
  assert (Hk' : forall m p t, k' m p t = Some x ->
                  (t = [] \/ t = [newline]) /\ k (m ++ [p]) p t = Some x).
  { intros m p t. unfold k'. destruct t as [|c [|d t]]; [auto| |discriminate].
    destruct (Ascii.eqb_spec c newline) as [->|]; [auto|discriminate]. }
  assert (Hletter : forall c, 
             c ∈ ["T"%char; "C"%char; "O"%char; "I"%char; "D"%char] ->
             run (lit c) (marks ++ [pos]) pos s k' = Some x ->
             exists b tail,
               s = b ++ tail /\ is_base b /\ (tail = [] \/ tail = [newline])
               /\ k (marks ++ [pos; (pos + length b)%nat]) (pos + length b)%nat tail
                  = Some x).
  { intros c Hc H. apply run_lit_inv in H as (s' & -> & H).
    apply Hk' in H as [Htail H]. exists [c], s'.
    split; [reflexivity|]. split.
    - left. repeat (apply elem_of_cons in Hc as [->|Hc]; [in_list|]).
      inversion Hc.
    - split; [exact Htail|]. rewrite <- app_assoc in H. cbn [app length].
      now rewrite Nat.add_1_r. }
  assert (Hnum : forall c,
             c ∈ ["P"%char; "A"%char; "Y"%char; "J"%char] ->
             run (lit c) (marks ++ [pos]) pos s
               (fun marks' pos' s' => run (RPlus [Digit]) marks' pos' s' k') = Some x ->
             exists b tail,
               s = b ++ tail /\ is_base b /\ (tail = [] \/ tail = [newline])
               /\ k (marks ++ [pos; (pos + length b)%nat]) (pos + length b)%nat tail
                  = Some x).
  { intros c Hc H. apply run_lit_inv in H as (s' & -> & H).
    apply run_digits_inv in H as (ds & rest & -> & Hne & Hds & H).
    apply Hk' in H as [Htail H]. exists (c :: ds), rest.
    split; [reflexivity|]. split; [right; exists c, ds; auto|].
    split; [exact Htail|]. rewrite <- app_assoc in H. cbn [app length].
    now rewrite <- Nat.add_succ_comm. }
  cbn [run].
  repeat match goal with
         | |- match ?r with Some _ => _ | None => _ end = Some x -> _ =>
             let H := fresh "H" in
             destruct r eqn:H;
               [intros Heq; injection Heq as ->;
                first [apply Hletter in H; [exact H|in_list]
                      |apply Hnum in H; [exact H|in_list]]
               |clear H]
         end.
  intros H. apply Hnum in H; [exact H|in_list].
Qed.

Lemma run_seq {X} a b marks pos s (k : list nat -> nat -> str -> option X) :
  run (RSeq a b) marks pos s k
  = run a marks pos s (fun marks' pos' s' => run b marks' pos' s' k).
Proof. reflexivity. Qed.

Lemma run_group {X} r marks pos s (k : list nat -> nat -> str -> option X) :
  run (RGroup r) marks pos s k
  = run r (marks ++ [pos]) pos s (fun marks' pos' s' => k (marks' ++ [pos']) pos' s').
Proof. reflexivity. Qed.

Lemma run_alt_skip {X} c r d marks pos s (k : list nat -> nat -> str -> option X) :
  d <> c ->
  run (RAlt (lit c) r) marks pos (d :: s) k = run r marks pos (d :: s) k.
Proof. intros Hd. cbn [run]. fold (lit c). now rewrite run_lit_other. Qed.

Lemma run_alt_skip_seq {X} c q r d marks pos s (k : list nat -> nat -> str -> option X) :
  d <> c ->
  run (RAlt (RSeq (lit c) q) r) marks pos (d :: s) k = run r marks pos (d :: s) k.
Proof.
  intros Hd. change (run (RAlt (RSeq (lit c) q) r) marks pos (d :: s) k)
    with (match run (RSeq (lit c) q) marks pos (d :: s) k with
          | Some x => Some x
          | None => run r marks pos (d :: s) k
          end).
  now rewrite run_seq, run_lit_other.
Qed.

Lemma run_alt_take {X} a r marks pos s (k : list nat -> nat -> str -> option X) x :
  run a marks pos s k = Some x -> run (RAlt a r) marks pos s k = Some x.
Proof. intros H. cbn [run]. now rewrite H. Qed.

(** The pattern of the bases matches at a base that ends the string or
    stands before its final line break. *)
Lemma run_base {X} marks pos b tail (k : list nat -> nat -> str -> option X) x :
  is_base b -> tail = [] \/ tail = [newline] ->
  k (marks ++ [pos; (pos + length b)%nat]) (pos + length b)%nat tail = Some x ->
  run base_pattern marks pos (b ++ tail) k = Some x.
Proof.
  intros Hb Htail Hk. unfold base_pattern. rewrite run_seq, run_group.
  assert (Hend : forall n,
             run REol ((marks ++ [pos]) ++ [(pos + n)%nat]) (pos + n) tail k
             = k (marks ++ [pos; (pos + n)%nat]) (pos + n)%nat tail).
  { intros n. rewrite run_eol by exact Htail. now rewrite <- app_assoc. }
  destruct Hb as [Hb|(l & ds & Hl & Hne & Hds & ->)].
  - repeat (apply elem_of_cons in Hb as [->|Hb];
            [cbn [list_ascii_of_string app];
             repeat first [rewrite run_alt_skip by discriminate
                          |rewrite run_alt_skip_seq by discriminate];
             try apply run_alt_take;
             rewrite run_lit; specialize (Hend 1%nat);
             rewrite Nat.add_1_r in Hend; rewrite Hend;
             cbn [length] in Hk; rewrite Nat.add_1_r in Hk; exact Hk|]).
    inversion Hb.
  - assert (Hdigits : run (RPlus [Digit]) (marks ++ [pos]) (S pos) (ds ++ tail)
               (fun marks' pos' s' => run REol (marks' ++ [pos']) pos' s' k)
             = Some x).
    { apply run_digits; [exact Hne|exact Hds| |].
      - destruct Htail as [->| ->]; [exact I|reflexivity].
      - specialize (Hend (S (length ds))).
        replace (pos + S (length ds))%nat with (S pos + length ds)%nat in Hend by lia.
        rewrite Hend. cbn [length] in Hk.
        replace (pos + S (length ds))%nat with (S pos + length ds)%nat in Hk by lia.
        exact Hk. }
    repeat (apply elem_of_cons in Hl as [->|Hl];
            [cbn [app];
             repeat first [rewrite run_alt_skip by discriminate
                          |rewrite run_alt_skip_seq by discriminate];
             try apply run_alt_take;
             rewrite run_seq, run_lit; exact Hdigits|]).
    inversion Hl.
Qed.

End RecipePatterns.

Section RecipeChecks.

Import Text Re DownloadPolyhedronisme RecipeSpec.

(** What [re.search] finds: the pattern matches at the position found. *)
Lemma search_from_sound r subject pre s m :
  subject = pre ++ s ->
  search_from r subject (length pre) s = Some m ->
  exists pre' s' e marks,
    subject = pre' ++ s'
    /\ sr_start m = length pre'
    /\ sr_match m = Match subject e marks
    /\ run r [] (length pre') s' (fun marks e _ => Some (e, marks))
       = Some (e, marks).
Proof.
  revert pre. induction s as [|c s IH]; intros pre Hsub; cbn [search_from].
  - destruct (run r [] (length pre) [] _) as [[e marks]|] eqn:Hrun; [|discriminate].
    intros H. injection H as <-. exists pre, [], e, marks. auto.
  - destruct (run r [] (length pre) (c :: s) _) as [[e marks]|] eqn:Hrun.
    + intros H. injection H as <-. exists pre, (c :: s), e, marks. auto.
    + intros H. apply (IH (pre ++ [c])).
      * now rewrite <- app_assoc.
      * rewrite length_app. simpl. now rewrite Nat.add_1_r.
Qed.

(** [re.search] finds a match whenever there is one. *)
Lemma search_from_complete r subject pre mid s y :
  run r [] (length (pre ++ mid)) s (fun marks e _ => Some (e, marks)) = Some y ->
  exists m, search_from r subject (length pre) (mid ++ s) = Some m.
Proof.
  revert pre. induction mid as [|c mid IH]; intros pre Hrun.
  - rewrite app_nil_r in Hrun. cbn [app].
    destruct s as [|c s]; cbn [search_from]; rewrite Hrun; destruct y; eauto.
  - cbn [app search_from].
    destruct (run r [] (length pre) (c :: mid ++ s) _) as [[e marks]|]; [eauto|].
    replace (S (length pre)) with (length (pre ++ [c]))
      by (rewrite length_app; simpl; lia).
    apply IH. now rewrite <- app_assoc.
Qed.

Lemma lstrip_head s c t : lstrip s = c :: t -> isspace c = false.
Proof.
  induction s as [|d s IH]; [discriminate|]. simpl.
  destruct (isspace d) eqn:Hd; [exact IH|]. intros H. now injection H as <- _.
Qed.

Lemma strip_last s t c : strip s = t ++ [c] -> isspace c = false.
Proof.
  unfold strip, rstrip. intros H. apply (f_equal (@rev ascii)) in H.
  rewrite rev_involutive, rev_app_distr in H. simpl in H.
  eapply lstrip_head, H.
Qed.

Lemma is_base_nonempty b : is_base b -> b <> [].
Proof.
  intros [Hb|(l & ds & _ & _ & _ & ->)]; [|discriminate].
  repeat (apply elem_of_cons in Hb as [->|Hb]; [discriminate|]). inversion Hb.
Qed.

(** The pattern of the bases is found exactly in the strings that end
    with a base, before a final line break or not. *)
Lemma re_search_base s :
  (exists m, re_search base_pattern s = Some m)
  <-> names_base s.
Proof.
  unfold re_search, names_base. split.
  - intros [m Hm].
    apply (search_from_sound _ s [] s m eq_refl) in Hm
      as (pre & s' & e & marks & -> & _ & _ & Hrun).
    apply run_base_inv in Hrun as (b & tail & -> & Hb & Htail & _). eauto 6.
  - intros (pre & b & tail & -> & Hb & Htail).
    apply (search_from_complete _ _ [] pre (b ++ tail) (length pre + length b, [length pre; length pre + length b])%nat).
    cbn [app]. apply run_base; [exact Hb|exact Htail|reflexivity].
Qed.

Lemma validate_recipe_accepts recipe :
  (validate_recipe recipe).1 = true <-> ends_with_base (strip recipe).
Proof.
  unfold validate_recipe. split.
  - destruct recipe as [|c recipe]; [discriminate|]. cbn [orb].
    destruct (strip (c :: recipe)) as [|d s] eqn:Hstrip; [discriminate|].
    destruct (re_search base_pattern (d :: s)) as [m|] eqn:Hm; [|discriminate].
    intros _.
    destruct (proj1 (re_search_base (d :: s)) (ex_intro _ m Hm))
      as (pre & b & tail & Heq & Hb & [->| ->]).
    + exists pre, b. now rewrite app_nil_r in Heq.
    + exfalso. rewrite <- Hstrip, !app_assoc in Heq.
      apply strip_last in Heq. discriminate.
  - intros (pre & b & Heq & Hb).
    pose proof (is_base_nonempty b Hb) as Hne.
    destruct recipe as [|c recipe];
      [destruct pre; [now destruct b|discriminate]|].
    cbn [orb]. rewrite Heq.
    destruct (pre ++ b) as [|d s] eqn:Hs;
      [apply app_eq_nil in Hs as [_ ->]; contradiction|].
    rewrite <- Hs.
    destruct (proj2 (re_search_base (pre ++ b))) as [m ->]; [|reflexivity].
    exists pre, b, []. rewrite app_nil_r. auto.
Qed.

(** X27. [validate_recipe] accepts a recipe exactly when, surrounding
    whitespace apart, it ends with a base shape: the letter T, C, O, I or
    D, or the letter P, A, Y or J followed by at least one digit. Nothing
    before the base is checked. *)
Theorem validate_recipe_spec (recipe : str) :
  (validate_recipe recipe).1 = true <-> ends_with_base (strip recipe).
Proof. apply validate_recipe_accepts. Qed.

End RecipeChecks.

Section SuggestedNames.

Import Text Re DownloadPolyhedronisme RecipeSpec.

Lemma span_spec ok s a b :
  span ok s = (a, b) ->
  s = a ++ b /\ Forall (fun c => ok c = true) a
  /\ match b with c :: _ => ok c = false | [] => True end.
Proof.
  revert a b. induction s as [|c s IH]; intros a b; simpl.
  - intros H. injection H as <- <-. auto.
  - destruct (ok c) eqn:Hc.
    + destruct (span ok s) as [a' b'] eqn:Hs. intros H. injection H as <- <-.
      destruct (IH a' b' eq_refl) as (-> & Ha & Hb). auto.
    + intros H. injection H as <- <-. auto.
Qed.

Lemma exec_Bol_later p marks pos s :
  pos <> 0%nat -> exec (Bol :: p) marks pos s = None.
Proof. intros H. cbn [exec]. now destruct (Nat.eqb_spec pos 0). Qed.

(** [re.sub(r'^C\d+', '', recipe)] removes the letter C and the digits
    after it from the start of the recipe, when there is at least one. *)
Lemma re_sub_prefix recipe :
  re_sub canonicalization_prefix [] recipe = Ok (without_prefix recipe).
Proof.
  unfold re_sub. cbn [expand_template mbind result_bind]. f_equal.
  assert (Hlater : forall pos s, pos <> 0%nat ->
            sub_scan canonicalization_prefix [] pos s 0 = s).
  { intros pos s Hpos. apply sub_scan_none. intros i _.
    apply exec_Bol_later. lia. }
  assert (Hnone : forall s, exec canonicalization_prefix [] 0 s = None ->
            sub_scan canonicalization_prefix [] 0 s 0 = s).
  { intros s H0. apply sub_scan_none. intros [|i] _; [exact H0|].
    apply exec_Bol_later. lia. }
  unfold without_prefix. destruct recipe as [|c s]; [reflexivity|].
  destruct (Ascii.eqb_spec c "C") as [->|Hc].
  - destruct (span isdigit s) as [[|d ds] rest] eqn:Hspan;
      apply span_spec in Hspan as (-> & Hds & Hrest).
    + apply Hnone. unfold canonicalization_prefix.
      rewrite exec_Bol, exec_One_char. cbn [app exec].
      destruct rest as [|x rest]; [reflexivity|].
      now rewrite in_class_digit, Hrest.
    + assert (Hex : exec canonicalization_prefix [] 0 ("C"%char :: (d :: ds) ++ rest)
                    = Some ((0 + S (length (d :: ds)))%nat, [])).
      { unfold canonicalization_prefix. rewrite exec_Bol, exec_One_char.
        apply exec_Plus_run; [discriminate| | |reflexivity].
        - eapply Forall_impl; [exact Hds|]. intros x Hx. now rewrite in_class_digit.
        - destruct rest as [|x rest]; [exact I|]. now rewrite in_class_digit. }
      rewrite (sub_scan_match _ _ _ _ (S (length (d :: ds))) []);
        [|split; [lia|simpl; rewrite length_app; simpl; lia]|exact Hex].
      cbn [app]. rewrite Hlater by lia.
      change (drop (S (length (d :: ds))) ("C"%char :: (d :: ds) ++ rest))
        with (drop (length (d :: ds)) ((d :: ds) ++ rest)).
      apply drop_app_length.
  - apply Hnone. unfold canonicalization_prefix. rewrite exec_Bol. cbn [exec].
    unfold in_class. simpl. destruct (Ascii.eqb_spec c "C"); [contradiction|reflexivity].
Qed.

Lemma lower_char_not_C c : lower_char c <> "C"%char.
Proof. destruct c as [[] [] [] [] [] [] [] []]; vm_compute; discriminate. Qed.




Lemma replace_absent old new s :
  Forall (fun c => c <> old) s -> replace old new s = s.
Proof.
  induction 1 as [|c s Hc _ IH]; [reflexivity|]. unfold replace in *. simpl.
  destruct (Ascii.eqb_spec c old); [contradiction|]. simpl. now rewrite IH.
Qed.

Lemma replace_same c s : replace c [c] s = s.
Proof.
  induction s as [|d s IH]; [reflexivity|]. unfold replace in *. simpl.
  destruct (Ascii.eqb_spec d c) as [->|]; simpl; now rewrite IH.
Qed.

Lemma lower_no_C s : Forall (fun c => c <> "C"%char) (lower s).
Proof. unfold lower. apply Forall_map, Forall_forall. intros c _. apply lower_char_not_C. Qed.

Lemma suggest_slug_no_base recipe :
  ~ names_base (without_prefix recipe) -> suggest_slug recipe = Ok (lower recipe).
Proof.
  intros Hno. unfold suggest_slug. rewrite re_sub_prefix. cbn [mbind result_bind].
  destruct (re_search base_pattern (without_prefix recipe)) as [m|] eqn:Hm.
  - exfalso. apply Hno, re_search_base. eauto.
  - change (list_ascii_of_string "_") with ["_"%char].
    now rewrite replace_same, replace_absent by apply lower_no_C.
Qed.

(** X28. When the recipe, its canonicalisation prefix removed, does not
    end with a base shape, [suggest_slug] returns the recipe in lower
    case: the replacement of the letter C that the fallback asks for never
    applies, the text having been lower-cased first. *)
Theorem suggest_slug_fallback (recipe : str) :
  ~ names_base (without_prefix recipe) -> suggest_slug recipe = Ok (lower recipe).
Proof. apply suggest_slug_no_base. Qed.

Lemma suggest_slug_fallback_witness :
  suggest_slug "C5" = Ok (lower "C5").
Proof.
  apply (suggest_slug_fallback "C5").
  intros (pre & b & tail & Heq & Hb & _).
  apply is_base_nonempty in Hb. vm_compute in Heq.
  destruct pre; [destruct b; [contradiction|discriminate]|discriminate].
Defined.










End SuggestedNames.
